(** * littlewolf: a shallow embedding of the raycaster of [main.c]

    The program computes on C [float] (IEEE 754 binary32) and [int]
    (32-bit two's complement).  Floats are embedded bit-exactly as the
    Standard Library's [spec_float] at precision 24 and maximal exponent
    128; every arithmetic operation is the correctly rounded one of
    [SpecFloat].  Conversions from [float] to [int] outside the range of
    [int], signed overflow and out-of-bounds reads have no defined result
    in C: the functions that can run into them return in the error monad
    [res]. *)

From Stdlib Require Import ZArith List Bool Lia String Ascii.
From Stdlib Require Import Floats.SpecFloat.
From Stdlib Require Import Reals Lra.
Import ListNotations.

Local Open Scope Z_scope.

(** ** Results of fallible code *)

Inductive res (A : Type) : Type :=
| Ok (a : A)      (* the C expression has a defined value *)
| Undef           (* undefined behaviour was reached *)
| OutOfFuel.      (* the recursion budget of the model ran out *)

Arguments Ok {A} a.
Arguments Undef {A}.
Arguments OutOfFuel {A}.

Definition bind {A B : Type} (m : res A) (k : A -> res B) : res B :=
  match m with
  | Ok a => k a
  | Undef => Undef
  | OutOfFuel => OutOfFuel
  end.

Notation "x <- m ;; k" := (bind m (fun x => k))
  (at level 61, m at next level, right associativity).

(** ** C [int] *)

Definition INT_MIN : Z := - 2 ^ 31.
Definition INT_MAX : Z := 2 ^ 31 - 1.

Definition in_int (z : Z) : bool := (INT_MIN <=? z) && (z <=? INT_MAX).

(** The value of an [int] expression: signed overflow is undefined. *)
Definition int (z : Z) : res Z := if in_int z then Ok z else Undef.

(** ** C [float]: IEEE 754 binary32 *)

Definition float : Type := spec_float.

Definition prec : Z := 24.
Definition emax : Z := 128.

Definition fadd : float -> float -> float := SFadd prec emax.
Definition fsub : float -> float -> float := SFsub prec emax.
Definition fmul : float -> float -> float := SFmul prec emax.
Definition fdiv : float -> float -> float := SFdiv prec emax.
Definition fsqrt : float -> float := SFsqrt prec emax.
Definition fneg : float -> float := SFopp.

(** [a < b], [a > b] and [a == b] on floats: false when an operand is NaN. *)
Definition flt (a b : float) : bool := SFltb a b.
Definition fgt (a b : float) : bool := SFltb b a.
Definition feq (a b : float) : bool := SFeqb a b.

Declare Scope f32_scope.
Delimit Scope f32_scope with f32.
Bind Scope f32_scope with float.
Notation "a + b" := (fadd a b) : f32_scope.
Notation "a - b" := (fsub a b) : f32_scope.
Notation "a * b" := (fmul a b) : f32_scope.
Notation "a / b" := (fdiv a b) : f32_scope.
Notation "- a" := (fneg a) : f32_scope.
Notation "a <? b" := (flt a b) : f32_scope.
Notation "a >? b" := (fgt a b) : f32_scope.
Notation "a =? b" := (feq a b) : f32_scope.

(** Conversion [(float) i] of an [int]: round to nearest, ties to even. *)
Definition of_int (i : Z) : float := binary_normalize prec emax i 0 false.

(** The integral part of a finite float, towards zero. *)
Definition trunc (f : float) : option Z :=
  match f with
  | S754_zero _ => Some 0
  | S754_finite s m e =>
      Some (cond_Zopp s
              (match e with
               | Z0 => Zpos m
               | Zpos p => Zpos m * 2 ^ Zpos p
               | Zneg p => Zpos m / 2 ^ Zpos p
               end))
  | S754_infinity _ | S754_nan => None
  end.

(** Conversion [(int) f]: truncation; undefined when the integral part is
    not an [int] (C11 6.3.1.4), in particular for infinities and NaN. *)
Definition to_int (f : float) : res Z :=
  match trunc f with
  | Some z => int z
  | None => Undef
  end.

(** The float literals of the program, each the binary32 number nearest
    to the decimal. *)
Definition F0 : float := S754_zero false.                    (* 0.0f *)
Definition F1 : float := S754_finite false 8388608 (-23).    (* 1.0f *)
Definition F2 : float := S754_finite false 8388608 (-22).    (* 2.0f *)
Definition F0_5 : float := S754_finite false 8388608 (-24).  (* 0.5f *)
Definition F0_01 : float := S754_finite false 10737418 (-30). (* 0.01f, 1e-2f: 0x3C23D70A *)
Definition F0_1 : float := S754_finite false 13421773 (-27). (* 0.1f, 0.10f: 0x3DCCCCCD *)
Definition F3_5 : float := S754_finite false 14680064 (-22). (* 3.5f *)

(** ** Vector math *)

Record Point : Type := { x : float; y : float }.

Section Libm.
(** [cosf] and [sinf] come from the C library; the program fixes no
    more about them than their type. *)
Variables cosf sinf : float -> float.

Definition turn (a : Point) (t : float) : Point :=
  {| x := (x a * cosf t - y a * sinf t)%f32;
     y := (x a * sinf t + y a * cosf t)%f32 |}.
End Libm.

(** Right angle rotation. *)
Definition rag (a : Point) : Point :=
  {| x := (- y a)%f32; y := x a |}.

Definition sub (a b : Point) : Point :=
  {| x := (x a - x b)%f32; y := (y a - y b)%f32 |}.

Definition add (a b : Point) : Point :=
  {| x := (x a + x b)%f32; y := (y a + y b)%f32 |}.

Definition mul (a : Point) (n : float) : Point :=
  {| x := (x a * n)%f32; y := (y a * n)%f32 |}.

Definition mag (a : Point) : float :=
  fsqrt (x a * x a + y a * y a)%f32.

Definition dvd (a : Point) (n : float) : Point :=
  {| x := (x a / n)%f32; y := (y a / n)%f32 |}.

Definition unt (a : Point) : Point := dvd a (mag a).

Definition slope (a : Point) : float := (y a / x a)%f32.

(** ** Grid stepping *)

(** Fast floor (math). *)
Definition fl (v : float) : res Z :=
  i <- to_int v ;;
  int (i - (if (v <? of_int i)%f32 then 1 else 0)).

(** Fast ceil (math). *)
Definition cl (v : float) : res Z :=
  i <- to_int v ;;
  int (i + (if (v >? of_int i)%f32 then 1 else 0)).

(** Steps horizontally along a grid. *)
Definition sh (a b : Point) : res Point :=
  i <- (if (x b >? F0)%f32 then fl (x a + F1)%f32 else cl (x a - F1)%f32) ;;
  let x' := of_int i in
  let y' := (slope b * (x' - x a) + y a)%f32 in
  Ok {| x := x'; y := y' |}.

(** Steps vertically along a grid. *)
Definition sv (a b : Point) : res Point :=
  i <- (if (y b >? F0)%f32 then fl (y a + F1)%f32 else cl (y a - F1)%f32) ;;
  let y' := of_int i in
  let x' := ((y' - y a) / slope b + x a)%f32 in
  Ok {| x := x'; y := y' |}.

Definition cmp (a b c : Point) : Point :=
  if (mag (sub b a) <? mag (sub c a))%f32 then b else c.

(** ** Tile grids

    A grid is an array of NUL-terminated rows.  Reading the terminator
    of a row is defined; reading past it, or a row that is not there, is
    not. *)

Definition grid : Type := list string.

Definition row_at (tiles : grid) (i : Z) : res string :=
  if i <? 0 then Undef
  else match nth_error tiles (Z.to_nat i) with
       | Some r => Ok r
       | None => Undef
       end.

Definition char_at (r : string) (i : Z) : res Z :=
  if i <? 0 then Undef
  else match String.get (Z.to_nat i) r with
       | Some c => Ok (Z.of_N (N_of_ascii c))
       | None => if i =? Z.of_nat (String.length r) then Ok 0 else Undef
       end.

(** Conversion to [char], taken signed and 8 bits wide. *)
Definition to_char (z : Z) : Z := (z + 128) mod 256 - 128.

Definition tile (a : Point) (tiles : grid) : res Z :=
  ix <- to_int (x a) ;;
  iy <- to_int (y a) ;;
  r <- row_at tiles iy ;;
  c <- char_at r ix ;;
  Ok (to_char (c - 48)).

Record Hit : Type := { h_tile : Z; h_where : Point }.

(** Floating point decimal. *)
Definition dec (v : float) : res float :=
  i <- to_int v ;;
  Ok (v - of_int i)%f32.

(** The offset [cast] adds to the crossing [ray] before it samples the
    grid: [delta] when both coordinates of [ray] are integral, [dx] when
    only the first test [dec(ray.x) == 0.0f] holds, and [dy] otherwise. *)
Definition nudge (ray direction : Point) : res Point :=
  let delta := mul direction F0_01 in
  let dx := {| x := x delta; y := F0 |} in
  let dy := {| x := F0; y := y delta |} in
  rx <- dec (x ray) ;;
  both <- (if (rx =? F0)%f32
           then ry <- dec (y ray) ;; Ok (ry =? F0)%f32
           else Ok false) ;;
  Ok (if both then delta else if (rx =? F0)%f32 then dx else dy).

Fixpoint cast (fuel : nat) (where_ direction : Point) (walling : grid)
  : res Hit :=
  match fuel with
  | O => OutOfFuel
  | S fuel' =>
      h <- sh where_ direction ;;
      v <- sv where_ direction ;;
      let ray := cmp where_ h v in
      n <- nudge ray direction ;;
      let test := add ray n in
      t <- tile test walling ;;
      let hit := {| h_tile := t; h_where := test |} in
      if t =? 0 then cast fuel' ray direction walling else Ok hit
  end.

(** ** Lines *)

Record Line : Type := { a : Point; b : Point }.

(** Party casting (flooring and ceiling) *)
Definition pcast (size : float) (yres row : Z) : res float :=
  r1 <- int (row + 1) ;;
  r2 <- int (2 * r1) ;;
  d <- int (r2 - yres) ;;
  Ok (size / of_int d)%f32.

(** Linear interpolation. *)
Definition lerp (l : Line) (n : float) : Point :=
  add (a l) (mul (sub (b l) (a l)) n).

(** ** Projection *)

Record Gpu : Type := { xres : Z; yres : Z }.

Record Display : Type := { pixels : list Z; width : Z }.

Fixpoint store (l : list Z) (i : nat) (v : Z) : list Z :=
  match l, i with
  | [], _ => []
  | _ :: t, O => v :: t
  | h :: t, S i' => h :: store t i' v
  end.

Definition put (display : Display) (col row : Z) (pixel : Z) : res Display :=
  o <- int (col * width display) ;;
  i <- int (row + o) ;;
  if (0 <=? i) && (i <? Z.of_nat (List.length (pixels display)))
  then Ok {| pixels := store (pixels display) (Z.to_nat i) pixel;
             width := width display |}
  else Undef.

Record Wall : Type := { top : Z; bot : Z; size : float }.

Definition project (xres yres : Z) (fov : Line) (corrected : Point)
  : res Wall :=
  let size := (F0_5 * x (a fov) * of_int xres
               / (if x corrected <? F0_01 then F0_01 else x corrected))%f32 in
  top <- to_int ((of_int yres + size) / F2)%f32 ;;
  bot <- to_int ((of_int yres - size) / F2)%f32 ;;
  Ok {| top := if top >? yres then yres else top;
        bot := if bot <? 0 then 0 else bot;
        size := size |}.

(** ** Hero *)

Record Hero : Type := {
  fov : Line;
  where_ : Point;
  velocity : Point;
  speed : float;
  acceleration : float;
  theta : float
}.

(** The keys the program reads from the keyboard state array. *)
Inductive Scancode : Type :=
| SDL_SCANCODE_W | SDL_SCANCODE_S | SDL_SCANCODE_D | SDL_SCANCODE_A
| SDL_SCANCODE_H | SDL_SCANCODE_L.

Definition keys : Type := Scancode -> Z.

Definition pressed (key : keys) (k : Scancode) : bool := negb (key k =? 0).

Definition spin (hero : Hero) (key : keys) : Hero :=
  let t1 := if pressed key SDL_SCANCODE_H
            then (theta hero - F0_1)%f32 else theta hero in
  let t2 := if pressed key SDL_SCANCODE_L then (t1 + F0_1)%f32 else t1 in
  {| fov := fov hero; where_ := where_ hero; velocity := velocity hero;
     speed := speed hero; acceleration := acceleration hero; theta := t2 |}.

Record Map : Type := { ceiling : grid; walling : grid; floring : grid }.

(** [0xAA << (8 * (tile - 1))] as an [int]: a negative or too large shift
    count, and a result that is not an [int], are undefined. *)
Definition color (t : Z) : res Z :=
  let n := 8 * (t - 1) in
  if (0 <=? n) && (n <? 32) then int (170 * 2 ^ n) else Undef.

(** [for (int i = lo; i < hi; i++) body], threading a state. *)
Fixpoint for_loop {S : Type} (n : nat) (i : Z) (body : Z -> S -> res S)
  (s : S) : res S :=
  match n with
  | O => Ok s
  | Datatypes.S n' => s' <- body i s ;; for_loop n' (i + 1) body s'
  end.

Definition for_range {S : Type} (lo hi : Z) (body : Z -> S -> res S)
  (s : S) : res S :=
  for_loop (Z.to_nat (hi - lo)) lo body s.

Section Engine.
Variables cosf sinf : float -> float.

Definition rotate (l : Line) (t : float) : Line :=
  {| a := turn cosf sinf (a l) t; b := turn cosf sinf (b l) t |}.

(** The velocity [move] settles on before it moves the hero: the keys'
    acceleration or the decay, then the speed cap. *)
Definition drive (hero : Hero) (key : keys) : Point :=
  let v0 := velocity hero in
  let v1 :=
    if pressed key SDL_SCANCODE_W || pressed key SDL_SCANCODE_S
       || pressed key SDL_SCANCODE_D || pressed key SDL_SCANCODE_A
    then
      let reference := {| x := F1; y := F0 |} in
      let direction := turn cosf sinf reference (theta hero) in
      let acc := mul direction (acceleration hero) in
      let vw := if pressed key SDL_SCANCODE_W then add v0 acc else v0 in
      let vs := if pressed key SDL_SCANCODE_S then sub vw acc else vw in
      let vd := if pressed key SDL_SCANCODE_D then add vs (rag acc) else vs in
      if pressed key SDL_SCANCODE_A then sub vd (rag acc) else vd
    else mul v0 (F1 - acceleration hero / speed hero)%f32 in
  if (mag v1 >? speed hero)%f32 then mul (unt v1) (speed hero) else v1.

Definition move (hero : Hero) (walling : grid) (key : keys) : res Hero :=
  let last := where_ hero in
  let zero := {| x := F0; y := F0 |} in
  let v := drive hero key in
  let w := add (where_ hero) v in
  t <- tile w walling ;;
  Ok (if t =? 0
      then {| fov := fov hero; where_ := w; velocity := v;
              speed := speed hero; acceleration := acceleration hero;
              theta := theta hero |}
      else {| fov := fov hero; where_ := last; velocity := zero;
              speed := speed hero; acceleration := acceleration hero;
              theta := theta hero |}).

(** *** The column renderer *)

(** Renders flooring. *)
Definition render_flooring (map : Map) (gpu : Gpu) (col : Z) (wall : Wall)
  (trace : Line) (display : Display) : res Display :=
  for_range 0 (bot wall)
    (fun row d =>
       p <- pcast (size wall) (yres gpu) row ;;
       t <- tile (lerp trace (- p)%f32) (floring map) ;;
       c <- color t ;;
       put d col row c)
    display.

(** Renders wall. *)
Definition render_wall (col : Z) (wall : Wall) (hit : Hit)
  (display : Display) : res Display :=
  for_range (bot wall) (top wall)
    (fun row d => c <- color (h_tile hit) ;; put d col row c)
    display.

(** Renders ceiling. *)
Definition render_ceiling (map : Map) (gpu : Gpu) (col : Z) (wall : Wall)
  (trace : Line) (display : Display) : res Display :=
  for_range (top wall) (xres gpu)
    (fun row d =>
       p <- pcast (size wall) (yres gpu) row ;;
       t <- tile (lerp trace p) (ceiling map) ;;
       c <- color t ;;
       put d col row c)
    display.

(** The body of the loop over the columns of [render]. *)
Definition render_column (fuel : nat) (hero : Hero) (map : Map) (gpu : Gpu)
  (camera : Line) (col : Z) (display : Display) : res Display :=
  let column := lerp camera (of_int col / of_int (xres gpu))%f32 in
  hit <- cast fuel (where_ hero) column (walling map) ;;
  let ray := sub (h_where hit) (where_ hero) in
  let corrected := turn cosf sinf ray (- theta hero)%f32 in
  wall <- project (xres gpu) (yres gpu) (fov hero) corrected ;;
  let trace := {| a := where_ hero; b := h_where hit |} in
  d1 <- render_flooring map gpu col wall trace display ;;
  d2 <- render_wall col wall hit d1 ;;
  render_ceiling map gpu col wall trace d2.

(** [render], on the display that [lock] hands out; presentation and
    frame pacing are left to SDL. *)
Definition render (fuel : nat) (hero : Hero) (map : Map) (gpu : Gpu)
  (display : Display) : res Display :=
  let camera := rotate (fov hero) (theta hero) in
  for_range 0 (xres gpu) (render_column fuel hero map gpu camera) display.
End Engine.

Definition viewport (focal : float) : Line :=
  {| a := {| x := focal; y := (- F1)%f32 |};
     b := {| x := focal; y := F1 |} |}.

Definition born : Hero :=
  {| fov := viewport F1;
     where_ := {| x := F3_5; y := F3_5 |};
     velocity := {| x := F0; y := F0 |};
     speed := F0_1;
     acceleration := F0_01;
     theta := F0 |}.

Definition build : Map :=
  {| ceiling :=
       [ "111111111111111111111111111111111111111111111";
         "122223223232232111111111111111222232232322321";
         "122222221111232111111111111111222222211112321";
         "122221221232323232323232323232222212212323231";
         "122222221111232111111111111111222222211112321";
         "122223223232232111111111111111222232232322321";
         "111111111111111111111111111111111111111111111" ]%string;
     walling :=
       [ "111111111111111111111111111111111111111111111";
         "100000000000000111111111111111000000000000001";
         "103330001111000111111111111111033300011110001";
         "103000000000000000000000000000030000030000001";
         "103330001111000111111111111111033300011110001";
         "100000000000000111111111111111000000000000001";
         "111111111111111111111111111111111111111111111" ]%string;
     floring :=
       [ "111111111111111111111111111111111111111111111";
         "122223223232232111111111111111222232232322321";
         "122222221111232111111111111111222222211112321";
         "122222221232323323232323232323222222212323231";
         "122222221111232111111111111111222222211112321";
         "122223223232232111111111111111222232232322321";
         "111111111111111111111111111111111111111111111" ]%string |}.

(** * Vocabulary of the properties *)

(** ** Floats: classes and comparisons *)

Definition is_nan (f : float) : bool :=
  match f with S754_nan => true | _ => false end.

Definition is_finite (f : float) : bool :=
  match f with S754_zero _ | S754_finite _ _ _ => true | _ => false end.

(** Equality of points as C compares floats, coordinate by coordinate. *)
Definition peq (p q : Point) : bool := (x p =? x q)%f32 && (y p =? y q)%f32.

(** ** The real value of a float and correct rounding

    [F2R f] is the real number a finite float stands for.  The relation
    [rounds v f] says that [f] is what an IEEE operation returns on the
    exact result [v]: a binary32 number nearest to [v], or the infinity
    of its sign when [v] is beyond the largest finite number by half a
    unit in the last place or more. *)

Definition bpow (e : Z) : R := powerRZ 2 e.

Definition F2R (f : float) : R :=
  match f with
  | S754_finite s m e => (IZR (cond_Zopp s (Zpos m)) * bpow e)%R
  | _ => 0%R
  end.

Definition valid (f : float) : bool := valid_binary prec emax f.

Definition inbetween (w : R) (m : Z) (l : location) : Prop :=
  match l with
  | loc_Exact => w = IZR m
  | loc_Inexact Lt => (IZR m < w < IZR m + / 2)%R
  | loc_Inexact Eq => w = (IZR m + / 2)%R
  | loc_Inexact Gt => (IZR m + / 2 < w < IZR m + 1)%R
  end.

(** shifting *)
Definition inb (w : R) (mrs : shr_record) : Prop :=
  (0 <= shr_m mrs)%Z /\ inbetween w (shr_m mrs) (loc_of_shr_record mrs).

(** The second normalisation and the overflow test of [binary_round_aux]. *)
Definition finish (s : bool) (r e' : Z) : float :=
  let '(mrs'', e'') := shr_fexp prec emax r e' loc_Exact in
  match shr_m mrs'' with
  | Z0 => S754_zero s
  | Zpos m => if e'' <=? emax - prec then S754_finite s m e'' else S754_infinity s
  | Zneg _ => S754_nan
  end.

(** [rounding v e' r]: [r] is an integer nearest to [v / 2^e'] and [e'] is
    the exponent of the binary32 numbers around [v]. *)
Definition rounding (v : R) (e' r : Z) : Prop :=
  -149 <= e' /\ 0 <= r <= 2 ^ 24 /\ (-149 < e' -> 2 ^ 23 <= r)
  /\ (Rabs (IZR r - v * bpow (- e')) <= / 2)%R
  /\ (-149 < e' -> (bpow (e' + 23) <= v)%R)
  /\ (0 <= v < bpow (e' + 24))%R.

Definition fsign (f : float) : bool :=
  match f with
  | S754_zero s | S754_infinity s | S754_finite s _ _ => s
  | S754_nan => false
  end.

(** The least magnitude that rounds to an infinity. *)
Definition Tov : R := (bpow 128 - bpow 103)%R.

Definition rounds (v : R) (f : float) : Prop :=
  match f with
  | S754_nan => False
  | S754_infinity s => if s then (v <= - Tov)%R else (Tov <= v)%R
  | _ =>
      valid f = true /\ (Rabs v <= Tov)%R
      /\ (0 < v -> fsign f = false)%R /\ (v < 0 -> fsign f = true)%R
      /\ forall g, valid g = true -> is_finite g = true ->
                   (Rabs (F2R f - v) <= Rabs (F2R g - v))%R
  end.

Definition sgn (s : bool) : R := (if s then -1 else 1)%R.

(** The order of floats, infinities included. *)
Definition fle (f1 f2 : float) : Prop :=
  match f1, f2 with
  | S754_nan, _ | _, S754_nan => False
  | S754_infinity true, _ => True
  | _, S754_infinity false => True
  | S754_infinity false, _ => False
  | _, S754_infinity true => False
  | _, _ => (F2R f1 <= F2R f2)%R
  end.

(** The powers of two of the normal range. *)
Definition pow2 (j : Z) : float := S754_finite false 8388608 (j - 23).

(** ** Sample inputs *)

(** A hero one step east of the wall tile 3 of row 3, running west. *)
Definition runner : Hero :=
  {| fov := viewport F1;
     where_ := {| x := F3_5; y := F3_5 |};
     velocity := {| x := (- F1)%f32; y := F0 |};
     speed := F1;
     acceleration := F0_01;
     theta := F0 |}.

Definition no_keys : keys := fun _ => 0.

(** A crossing of the vertical grid line 4 that is on no horizontal one:
    the first crossing [cast] picks from the start position along
    [shallow]. *)
Definition shallow : Point :=
  {| x := F1; y := S754_finite false 8388608 (-25) |}.            (* (1, 0.25) *)
Definition crossing : Point :=
  {| x := S754_finite false 8388608 (-21);
     y := S754_finite false 15204352 (-22) |}.                    (* (4, 3.625) *)

Definition east : Point := {| x := F1; y := F0 |}.
Definition north : Point := {| x := F0; y := F1 |}.

(** A line from far right to 1 on the first axis. *)
Definition far_line : Line :=
  {| a := {| x := S754_finite false 8388608 2; y := F0 |};        (* (33554432, 0) *)
     b := {| x := F1; y := F0 |} |}.                              (* (1, 0) *)

(** A display of four columns of two rows, all black, as [lock] hands it
    out for a 4x2 window. *)
Definition gpu42 : Gpu := {| xres := 4; yres := 2 |}.
Definition black42 : Display := {| pixels := repeat 0 8; width := 2 |}.

(** ** The nudge of [cast] (C2) *)

(** A coordinate lies on a grid line when [dec] of it compares equal to
    [0.0f]. *)
Definition on_line (v : float) : bool :=
  match dec v with
  | Ok r => (r =? F0)%f32
  | _ => false
  end.

(** The three offsets [cast] chooses from. *)
Definition nudge_delta (direction : Point) : Point := mul direction F0_01.
Definition nudge_dx (direction : Point) : Point :=
  {| x := x (mul direction F0_01); y := F0 |}.
Definition nudge_dy (direction : Point) : Point :=
  {| x := F0; y := y (mul direction F0_01) |}.

(** ** Evaluations of [slope] during [cast] (C9)

    [sh], [sv] and [cast] again, as runs that record the calls of [slope]
    they make: a run carries the arguments of the calls made so far, in
    order, beside its result, and keeps them when a later step is
    undefined.  The code is that of [sh], [sv] and [cast] above, with
    [slope_traced] where they call [slope]; [fl], [cl], [cmp], [nudge] and
    [tile] call no [slope].  (C leaves the order of the two arguments
    [sh(...)] and [sv(...)] of [cmp] open; the run takes [sh] first, as
    [cast] above does.) *)
Definition traced (A : Type) : Type := (list Point * res A)%type.

(** A step that calls no [slope]. *)
Definition quiet {A : Type} (r : res A) : traced A := ([], r).

Definition tbind {A B : Type} (m : traced A) (k : A -> traced B) : traced B :=
  match snd m with
  | Ok a => (fst m ++ fst (k a), snd (k a))
  | Undef => (fst m, Undef)
  | OutOfFuel => (fst m, OutOfFuel)
  end.

Notation "x <~ m ;; k" := (tbind m (fun x => k))
  (at level 61, m at next level, right associativity).

(** The call [slope(a)]. *)
Definition slope_traced (a : Point) : traced float := ([a], Ok (slope a)).

Definition sh_traced (a b : Point) : traced Point :=
  i <~ quiet (if (x b >? F0)%f32
              then fl (x a + F1)%f32 else cl (x a - F1)%f32) ;;
  let x' := of_int i in
  s <~ slope_traced b ;;
  let y' := (s * (x' - x a) + y a)%f32 in
  quiet (Ok {| x := x'; y := y' |}).

Definition sv_traced (a b : Point) : traced Point :=
  i <~ quiet (if (y b >? F0)%f32
              then fl (y a + F1)%f32 else cl (y a - F1)%f32) ;;
  let y' := of_int i in
  s <~ slope_traced b ;;
  let x' := ((y' - y a) / s + x a)%f32 in
  quiet (Ok {| x := x'; y := y' |}).

Fixpoint cast_traced (fuel : nat) (where_ direction : Point) (walling : grid)
  : traced Hit :=
  match fuel with
  | O => quiet OutOfFuel
  | S fuel' =>
      h <~ sh_traced where_ direction ;;
      v <~ sv_traced where_ direction ;;
      let ray := cmp where_ h v in
      n <~ quiet (nudge ray direction) ;;
      let test := add ray n in
      t <~ quiet (tile test walling) ;;
      let hit := {| h_tile := t; h_where := test |} in
      if t =? 0 then cast_traced fuel' ray direction walling
      else quiet (Ok hit)
  end.

(** The division of [slope a] has a zero denominator. *)
Definition zero_denominator (p : Point) : bool := (x p =? F0)%f32.

(** ** The projection as the specification words it (C4) *)

(** The greater of two floats; a NaN operand is ignored, as [fmaxf] does. *)
Definition fmaxf (u v : float) : float :=
  if is_nan u then v
  else if is_nan v then u
  else if (u <? v)%f32 then v else u.

Definition project_spec (xres yres : Z) (fov : Line) (corrected : Point)
  : res Wall :=
  let focal := x (a fov) in
  let size := (F0_5 * focal * of_int xres / fmaxf (x corrected) F0_01)%f32 in
  t <- to_int ((of_int yres + size) / F2)%f32 ;;
  b <- to_int ((of_int yres - size) / F2)%f32 ;;
  Ok {| top := Z.min t yres; bot := Z.max b 0; size := size |}.

(** ** The slab height of [project] (C7, C10) *)

(** The first line of [project]: the height of the wall slab for a focal
    length and a perpendicular distance. *)
Definition slab (xres : Z) (focal cx : float) : float :=
  (F0_5 * focal * of_int xres / (if cx <? F0_01 then F0_01 else cx))%f32.

(** The denominator of the first line of [project]: the distance, or
    [1e-2f] where the distance is below it. *)
Definition clamp (cx : float) : float :=
  if (cx <? F0_01)%f32 then F0_01 else cx.

(** C's [<=] on floats. *)
Definition fleb (u v : float) : bool := SFleb u v.

(** Two distances below the clamp of [project], 0.001f and 0.002f, and two
    neighbouring binary32 distances above it, near 1.907. *)
Definition near1 : Point := {| x := S754_finite false 8589935 (-33); y := F0 |}.
Definition near2 : Point := {| x := S754_finite false 8589935 (-32); y := F0 |}.
Definition mid1 : Point := {| x := S754_finite false 16000001 (-23); y := F0 |}.
Definition mid2 : Point := {| x := S754_finite false 16000002 (-23); y := F0 |}.

(** The wall [project] returns on the 500x500 display of [main] for the
    distances below the clamp, for [mid1] and [mid2], and for distance 1. *)
Definition clamped_wall : Wall :=
  {| top := 500; bot := 0; size := S754_finite false 12800000 (-9) |}.
Definition east_wall : Wall :=
  {| top := 375; bot := 125; size := S754_finite false 16384000 (-16) |}.
Definition mid_wall : Wall :=
  {| top := 315; bot := 184; size := S754_finite false 8589934 (-16) |}.

(** ** The ends of [lerp] (C8) *)

Definition pvalid (p : Point) : bool := valid (x p) && valid (y p).
Definition pfinite (p : Point) : bool := is_finite (x p) && is_finite (y p).

(** The subtraction [u - v] is exact: nothing is lost to rounding. *)
Definition exact_sub (u v : float) : Prop :=
  (F2R (u - v)%f32 = F2R u - F2R v)%R.

(** A line from (1, 0) to (2, 1). *)
Definition short_line : Line :=
  {| a := {| x := F1; y := F0 |}; b := {| x := F2; y := F1 |} |}.

(** ** Vocabulary of the grid steps ([fl], [cl], [mag], [sh], [sv], [cmp]) *)

(** [u] is an integer multiple of 2^e. *)
Definition multiple (e : Z) (u : float) : Prop :=
  exists z, F2R u = (IZR z * bpow e)%R.

(** [z] is a power of two. *)
Definition pow2b (z : Z) : bool := (z =? 2 ^ Z.log2 z)%Z.

(** The sense of a step: forwards when the direction coordinate is
    positive, backwards otherwise. *)
Definition dir (p : bool) : R := (if p then 1 else -1)%R.

(** A float that is a number or an infinity. *)
Definition gi (u : float) : Prop :=
  (valid u = true /\ is_finite u = true) \/ exists s, u = S754_infinity s.

(** A float that is a number from 0 on, or plus infinity. *)
Definition nn (u : float) : Prop :=
  (valid u = true /\ is_finite u = true /\ (0 <= F2R u)%R)
  \/ u = S754_infinity false.

(** The second coordinate [sh] computes on the line [xi], and the first
    coordinate [sv] computes on the line [yj]. *)
Definition sh_y (sl wx wy xi : float) : float := (sl * (xi - wx) + wy)%f32.
Definition sv_x (sl wx wy yj : float) : float := ((yj - wy) / sl + wx)%f32.

(** The grid line [i] is the first one strictly ahead of the coordinate
    [v]: above it when stepping forwards, below it otherwise. *)
Definition first_line (p : bool) (v : R) (i : Z) : Prop :=
  if p then (IZR i - 1 <= v < IZR i)%R else (IZR i < v <= IZR i + 1)%R.

(** The grid line [i] is the second one ahead of [v], forwards, and the
    line [i - 1] that is skipped is a power of two. *)
Definition skipped_line (p : bool) (v : R) (i : Z) : Prop :=
  p = true /\ pow2b (i - 1) = true /\ (IZR i - 2 <= v < IZR i - 1)%R.

(** 1.99999988f, the float just below 2. *)
Definition below2 : float := S754_finite false 16777215 (-23).

(** ** Vocabulary of the termination of [cast] *)

(** The tile at a column and a row of a grid, as [tile] reads it once the
    coordinates are converted. *)
Definition tile_at (tiles : grid) (ix iy : Z) : res Z :=
  r <- row_at tiles iy ;;
  c <- char_at r ix ;;
  Ok (to_char (c - 48)).

(** The cell is there, and holds a wall when [wall] is set. *)
Definition cell_ok (tiles : grid) (wall : bool) (ix iy : Z) : bool :=
  match tile_at tiles ix iy with
  | Ok t => if wall then negb (t =? 0) else true
  | _ => false
  end.

Definition upto (n : Z) : list Z := map Z.of_nat (seq 0 (Z.to_nat (n + 1))).

(** A grid of columns 0 to [LX] and rows 0 to [LY] whose outermost cells
    all hold walls. *)
Definition enclosedb (tiles : grid) (LX LY : Z) : bool :=
  forallb (fun iy =>
    forallb (fun ix =>
      cell_ok tiles ((ix =? 0) || (ix =? LX) || (iy =? 0) || (iy =? LY)) ix iy)
      (upto LX))
    (upto LY).

(** The integer part of a real, downwards. *)
Definition Rfloor (r : R) : Z := (up r - 1)%Z.

(** The grid lines left ahead of the coordinate [v] on an axis whose last
    line is [L]. *)
Definition lines (p : bool) (v : R) (L : Z) : Z :=
  if p then (L - Rfloor v)%Z else (- Rfloor (- v))%Z.

(** A coordinate inside the border of an axis. *)
Definition axis_inside (p : bool) (v : float) (L : Z) : Prop :=
  valid v = true /\ is_finite v = true
  /\ (1 <= F2R v <= IZR L)%R /\ (p = true -> (F2R v < IZR L)%R).

(** A position inside the border of a grid of last column [LX] and last
    row [LY], for a cast along [d]. *)
Definition inside (d w : Point) (LX LY : Z) : Prop :=
  axis_inside (x d >? F0)%f32 (x w) LX /\ axis_inside (y d >? F0)%f32 (y w) LY.

(** The grid lines left ahead of [w] along [d]. *)
Definition lines_left (d w : Point) (LX LY : Z) : Z :=
  (lines (x d >? F0)%f32 (F2R (x w)) LX + lines (y d >? F0)%f32 (F2R (y w)) LY)%Z.

(** A direction [cast] can follow: a vector of numbers, not (0, 0), of
    coordinates within 50. *)
Definition good_dir (d : Point) : Prop :=
  valid (x d) = true /\ valid (y d) = true
  /\ is_finite (x d) = true /\ is_finite (y d) = true
  /\ (F2R (x d) <> 0 \/ F2R (y d) <> 0)%R
  /\ (Rabs (F2R (x d)) <= 50)%R /\ (Rabs (F2R (y d)) <= 50)%R.

(** The same conditions as tests on floats: a coordinate from -50 to 50,
    a direction that is not (0, 0), and a position from 1 up to the last
    column and row. *)
Definition within50 (c : float) : bool :=
  valid c && fleb (of_int (-50)) c && fleb c (of_int 50).

Definition good_dirb (d : Point) : bool :=
  within50 (x d) && within50 (y d) && negb ((x d =? F0)%f32 && (y d =? F0)%f32).

Definition between (c : float) (L : Z) : bool :=
  valid c && fleb F1 c && (c <? of_int L)%f32.

Definition insideb (w : Point) (LX LY : Z) : bool :=
  between (x w) LX && between (y w) LY.

(** ** The loop of [main] *)

(** One pass of the loop of [main]: the keys turn the hero, then move it. *)
Definition frame (cosf sinf : float -> float) (walling : grid) (hero : Hero)
  (key : keys) : res Hero :=
  move cosf sinf (spin hero key) walling key.

(** The passes of the loop of [main] for the key states of successive
    frames. *)
Fixpoint frames (cosf sinf : float -> float) (walling : grid)
  (ks : list keys) (hero : Hero) : res Hero :=
  match ks with
  | [] => Ok hero
  | k :: ks' =>
      h <- frame cosf sinf walling hero k ;;
      frames cosf sinf walling ks' h
  end.

(** The body the three row loops of [render] share: a colour that depends
    on the row, then [put]. *)
Definition paint (f : Z -> res Z) (col : Z) (row : Z) (d : Display)
  : res Display :=
  c <- f row ;; put d col row c.

(** ** Further tests on floats *)

(** A float strictly between -2^23 and 2^23. *)
Definition small (v : float) : bool :=
  valid v && (of_int (-8388608) <? v)%f32 && (v <? of_int 8388608)%f32.

(** A float strictly between -1 and 1. *)
Definition within1 (v : float) : bool :=
  valid v && (of_int (-1) <? v)%f32 && (v <? of_int 1)%f32.

Definition is_zero (u : float) : bool :=
  match u with S754_zero _ => true | _ => false end.

Definition not_nan (u : float) : bool :=
  match u with S754_nan => false | _ => true end.

(** [|u| <= |v|]. *)
Definition absle (u v : float) : bool := fleb (SFabs u) (SFabs v).

(** A float that is 0 or of magnitude 2^-60 at least: its square does not
    underflow. *)
Definition clear60 (u : float) : bool :=
  is_zero u || fleb (S754_finite false 8388608 (-83)) (SFabs u).

(** A hero that stands still, away from the axes, with a finite decay
    factor and a top speed that is not negative. *)
Definition at_rest (hero : Hero) : bool :=
  is_zero (x (velocity hero)) && is_zero (y (velocity hero))
  && negb (is_zero (x (where_ hero))) && negb (is_zero (y (where_ hero)))
  && is_finite (F1 - acceleration hero / speed hero)%f32
  && negb (speed hero <? F0)%f32.

(** The key state with no key down. *)
Definition idle : keys := fun _ => 0.

(** The key state with only W down. *)
Definition forward : keys :=
  fun k => match k with SDL_SCANCODE_W => 1 | _ => 0 end.

(** No key that [spin] and [move] read is down. *)
Definition no_key (key : keys) : bool :=
  forallb (fun k => key k =? 0)
    [SDL_SCANCODE_W; SDL_SCANCODE_S; SDL_SCANCODE_D; SDL_SCANCODE_A;
     SDL_SCANCODE_H; SDL_SCANCODE_L].

(** What a row loop of [render] leaves in the display [d']: in the column
    [col] of the display [d] it started from, each row from [lo] up to
    [hi] holds the colour [f] gives for it, at the index
    [row + col * width] that lies inside the buffer; every other pixel,
    the length of the buffer and the width are those of [d]. *)
Definition painted (d d' : Display) (col lo hi : Z) (f : Z -> res Z) : Prop :=
  width d' = width d
  /\ List.length (pixels d') = List.length (pixels d)
  /\ (forall row, lo <= row < hi ->
        exists c, f row = Ok c
                  /\ 0 <= row + col * width d < Z.of_nat (List.length (pixels d))
                  /\ nth_error (pixels d') (Z.to_nat (row + col * width d)) = Some c)
  /\ (forall k, (forall row, lo <= row < hi -> k <> Z.to_nat (row + col * width d)) ->
                nth_error (pixels d') k = nth_error (pixels d) k).

(** * Properties *)

Local Ltac inv H := inversion H; subst; clear H.

(** ** The error monad *)

Lemma bind_Ok {A B : Type} (m : res A) (k : A -> res B) (r : B) :
  bind m k = Ok r -> exists v, m = Ok v /\ k v = Ok r.
Proof. destruct m; simpl; intros H; try discriminate; eauto. Qed.

Lemma int_Ok (z r : Z) : int z = Ok r -> r = z /\ INT_MIN <= z <= INT_MAX.
Proof.
  unfold int, in_int. destruct (INT_MIN <=? z) eqn:E1; simpl; try discriminate.
  destruct (z <=? INT_MAX) eqn:E2; intros H; inv H. split; [reflexivity|lia].
Qed.

Lemma feq_refl_finite (f : float) : is_finite f = true -> feq f f = true.
Proof.
  destruct f as [s|s| |s m e]; simpl; try discriminate; intros _; try reflexivity.
  unfold feq, SFeqb, SFcompare.
  rewrite Z.compare_refl, Pos.compare_cont_refl. now destruct s.
Qed.

(** ** Binary32 arithmetic: every operation rounds correctly *)

Local Open Scope R_scope.

Lemma bpow_pos e : 0 < bpow e.
Proof. apply powerRZ_lt. lra. Qed.

Lemma bpow_add e1 e2 : bpow (e1 + e2) = bpow e1 * bpow e2.
Proof. apply powerRZ_add. lra. Qed.

Lemma bpow_0 : bpow 0 = 1.
Proof. reflexivity. Qed.

Lemma bpow_1 : bpow 1 = 2.
Proof. unfold bpow. simpl. lra. Qed.

Lemma bpow_m1 : bpow (-1) = / 2.
Proof. unfold bpow. simpl. f_equal. lra. Qed.

Lemma bpow_IZR e : (0 <= e)%Z -> bpow e = IZR (2 ^ e).
Proof.
  intros H. unfold bpow. destruct e as [|p|p]; try lia.
  - simpl. reflexivity.
  - simpl. rewrite pow_IZR, positive_nat_Z. reflexivity.
Qed.

Lemma bpow_ge_1 e : (0 <= e)%Z -> 1 <= bpow e.
Proof.
  intros H. rewrite bpow_IZR by assumption. apply IZR_le.
  assert (0 < 2 ^ e)%Z by (apply Z.pow_pos_nonneg; lia). lia.
Qed.

Lemma bpow_le e1 e2 : (e1 <= e2)%Z -> bpow e1 <= bpow e2.
Proof.
  intros H. replace e2 with (e1 + (e2 - e1))%Z by lia. rewrite bpow_add.
  assert (H1 := bpow_pos e1). assert (H2 := bpow_ge_1 (e2 - e1) ltac:(lia)).
  nra.
Qed.

Lemma bpow_lt e1 e2 : (e1 < e2)%Z -> bpow e1 < bpow e2.
Proof.
  intros H. replace e2 with (e1 + 1 + (e2 - e1 - 1))%Z by lia.
  rewrite !bpow_add, bpow_1.
  assert (H1 := bpow_pos e1). assert (H2 := bpow_ge_1 (e2 - e1 - 1) ltac:(lia)).
  nra.
Qed.

Lemma bpow_succ e : bpow (e + 1) = 2 * bpow e.
Proof. rewrite bpow_add, bpow_1. lra. Qed.

Lemma bpow_pred e : bpow (e - 1) = bpow e / 2.
Proof. replace (e - 1)%Z with (e + (-1))%Z by lia. rewrite bpow_add, bpow_m1. lra. Qed.

(** digits *)
Lemma digits2_size p : digits2_pos p = Pos.size p.
Proof. induction p; simpl; congruence. Qed.

Lemma digits2_bounds p :
  (2 ^ (Zpos (digits2_pos p) - 1) <= Zpos p < 2 ^ Zpos (digits2_pos p))%Z.
Proof.
  rewrite digits2_size. split.
  - assert (H := Pos.size_le p).
    assert (E : (2 ^ Zpos (Pos.size p) = 2 * 2 ^ (Zpos (Pos.size p) - 1))%Z).
    { rewrite <- Z.pow_succ_r by lia. f_equal. lia. }
    assert (H' : (2 ^ Zpos (Pos.size p) <= Zpos p~0)%Z).
    { rewrite <- Pos2Z.inj_pow. apply Pos2Z.pos_le_pos. exact H. }
    lia.
  - rewrite <- Pos2Z.inj_pow. apply Pos2Z.pos_lt_pos. apply Pos.size_gt.
Qed.

Lemma digits2_bpow p :
  bpow (Zpos (digits2_pos p) - 1) <= IZR (Zpos p) < bpow (Zpos (digits2_pos p)).
Proof.
  destruct (digits2_bounds p) as [H1 H2].
  rewrite !bpow_IZR by lia. split; [apply IZR_le|apply IZR_lt]; assumption.
Qed.

Lemma Zdigits2_unique m d :
  (2 ^ (d - 1) <= m < 2 ^ d)%Z -> (0 < d)%Z -> Zdigits2 m = d.
Proof.
  intros [H1 H2] Hd.
  assert (0 < m)%Z. { assert (0 < 2 ^ (d - 1))%Z by (apply Z.pow_pos_nonneg; lia). lia. }
  destruct m as [|p|p]; try lia. simpl.
  destruct (digits2_bounds p) as [B1 B2].
  set (k := Zpos (digits2_pos p)) in *.
  destruct (Z.lt_trichotomy k d) as [L|[E|G]]; [|assumption|].
  - exfalso. assert (2 ^ k <= 2 ^ (d - 1))%Z by (apply Z.pow_le_mono_r; lia). lia.
  - exfalso. assert (2 ^ d <= 2 ^ (k - 1))%Z by (apply Z.pow_le_mono_r; lia). lia.
Qed.

Lemma IZR_xO p : IZR (Zpos p~0) = 2 * IZR (Zpos p).
Proof. rewrite Pos2Z.inj_xO, mult_IZR. reflexivity. Qed.

Lemma IZR_xI p : IZR (Zpos p~1) = 2 * IZR (Zpos p) + 1.
Proof. rewrite Pos2Z.inj_xI, plus_IZR, mult_IZR. reflexivity. Qed.

Lemma shr_1_inb w mrs : inb w mrs -> inb (w / 2) (shr_1 mrs).
Proof.
  destruct mrs as [m r s]. unfold inb. simpl. intros [Hm H].
  destruct m as [|p|p]; [| |lia].
  - destruct r, s; simpl in *; split; try lia; lra.
  - destruct p as [p|p|]; destruct r, s; simpl in *;
      try rewrite IZR_xO in *; try rewrite IZR_xI in *;
      split; try lia; lra.
Qed.

Lemma iter_shr_1_inb n :
  forall w mrs, inb w mrs -> inb (w * bpow (- Zpos n)) (SpecFloat.iter_pos shr_1 n mrs).
Proof.
  induction n as [n IH|n IH|]; intros w mrs H; simpl SpecFloat.iter_pos.
  - apply shr_1_inb in H. apply IH in H. apply IH in H.
    replace (- Zpos n~1)%Z with (-1 + (- Zpos n + - Zpos n))%Z by lia.
    rewrite !bpow_add, bpow_m1.
    replace (w * (/ 2 * (bpow (- Zpos n) * bpow (- Zpos n))))
      with (w / 2 * bpow (- Zpos n) * bpow (- Zpos n)) by lra.
    exact H.
  - apply IH in H. apply IH in H.
    replace (- Zpos n~0)%Z with (- Zpos n + - Zpos n)%Z by lia.
    rewrite bpow_add.
    replace (w * (bpow (- Zpos n) * bpow (- Zpos n)))
      with (w * bpow (- Zpos n) * bpow (- Zpos n)) by lra.
    exact H.
  - apply shr_1_inb in H.
    change (- Zpos 1)%Z with (-1)%Z. rewrite bpow_m1. exact H.
Qed.

Lemma shr_inb w mrs e n :
  inb w mrs -> (0 <= n)%Z ->
  snd (shr mrs e n) = (e + n)%Z /\ inb (w * bpow (- n)) (fst (shr mrs e n)).
Proof.
  intros H Hn. destruct n as [|p|p]; [| |lia]; simpl.
  - split; [lia|]. rewrite Rmult_1_r. exact H.
  - split; [reflexivity|]. apply iter_shr_1_inb. exact H.
Qed.

Lemma inb_of_loc w m l :
  (0 <= m)%Z -> inbetween w m l -> inb w (shr_record_of_loc m l).
Proof.
  intros Hm H. unfold inb. destruct l as [|[| |]]; simpl; auto.
Qed.

(** an integer located by [inbetween] is the floor *)
Lemma inbetween_bounds w m l : inbetween w m l -> IZR m <= w < IZR m + 1.
Proof. destruct l as [|[| |]]; simpl; lra. Qed.

Lemma rne_spec w m l :
  inbetween w m l ->
  Rabs (IZR (round_nearest_even m l) - w) <= / 2
  /\ (m <= round_nearest_even m l <= m + 1)%Z
  /\ (l = loc_Exact -> round_nearest_even m l = m).
Proof.
  intros H. destruct l as [|[| |]]; simpl in *.
  - subst. replace (IZR m - IZR m) with 0 by lra. rewrite Rabs_R0.
    split; [lra|]. split; [lia|reflexivity].
  - destruct (Z.even m); [|rewrite plus_IZR]; subst w;
      (split; [|split; [lia|discriminate]]).
    + replace (IZR m - (IZR m + / 2)) with (- / 2) by lra.
      rewrite Rabs_Ropp, Rabs_pos_eq; lra.
    + replace (IZR m + 1 - (IZR m + / 2)) with (/ 2) by lra.
      rewrite Rabs_pos_eq; lra.
  - split; [|split; [lia|discriminate]].
    apply Rabs_le. lra.
  - rewrite plus_IZR. split; [|split; [lia|discriminate]].
    apply Rabs_le. lra.
Qed.

Local Open Scope Z_scope.

Lemma fexp_eq k : fexp prec emax k = Z.max (k - 24) (-149).
Proof. reflexivity. Qed.

Lemma digits2_le p n : Zpos p < 2 ^ n -> 0 <= n -> Zpos (digits2_pos p) <= n.
Proof.
  intros H Hn. destruct (digits2_bounds p) as [B1 _].
  destruct (Z_le_gt_dec (Zpos (digits2_pos p)) n) as [L|G]; [assumption|].
  exfalso. assert (2 ^ n <= 2 ^ (Zpos (digits2_pos p) - 1)) by (apply Z.pow_le_mono_r; lia).
  lia.
Qed.

Lemma digits2_ge p n : 2 ^ n <= Zpos p -> 0 <= n -> n + 1 <= Zpos (digits2_pos p).
Proof.
  intros H Hn. destruct (digits2_bounds p) as [_ B2].
  destruct (Z_le_gt_dec (n + 1) (Zpos (digits2_pos p))) as [L|G]; [assumption|].
  exfalso. assert (2 ^ (Zpos (digits2_pos p)) <= 2 ^ n) by (apply Z.pow_le_mono_r; lia).
  lia.
Qed.

Lemma bra_unfold s m e l :
  binary_round_aux prec emax s m e l
  = finish s (round_nearest_even (shr_m (fst (shr_fexp prec emax m e l)))
                (loc_of_shr_record (fst (shr_fexp prec emax m e l))))
      (snd (shr_fexp prec emax m e l)).
Proof.
  unfold binary_round_aux, finish.
  destruct (shr_fexp prec emax m e l) as [mrs' e']. reflexivity.
Qed.

Lemma shr_fexp_eq m e l :
  shr_fexp prec emax m e l
  = shr (shr_record_of_loc m l) e (Z.max (Zdigits2 m + e - 24) (-149) - e).
Proof. reflexivity. Qed.

Lemma shr_nonpos mrs e n : n <= 0 -> shr mrs e n = (mrs, e).
Proof. destruct n; try reflexivity. lia. Qed.

Lemma finish_spec s r e' :
  -149 <= e' -> 0 <= r <= 2 ^ 24 -> (-149 < e' -> 2 ^ 23 <= r) ->
  match finish s r e' with
  | S754_zero s' => s' = s /\ r = 0
  | S754_finite s' m3 e3 =>
      s' = s /\ SpecFloat.bounded prec emax m3 e3 = true
      /\ (IZR (Zpos m3) * bpow e3 = IZR r * bpow e')%R /\ 0 < r
      /\ e' <= e3 <= 104 /\ Zpos m3 < 2 ^ 24
  | S754_infinity s' => s' = s /\ 0 < r /\ (bpow 128 <= IZR r * bpow e')%R
  | S754_nan => False
  end.
Proof.
  intros He Hr Hn. unfold finish. rewrite shr_fexp_eq.
  destruct r as [|p|p]; [| |lia].
  - (* zero *)
    rewrite shr_nonpos by (cbn [Zdigits2]; lia). cbn. auto.
  - destruct (Z.eq_dec (Zpos p) (2 ^ 24)) as [E|NE].
    + (* the mantissa overflowed to 2^24 *)
      inversion E; subst p.
      replace (Z.max (Zdigits2 16777216 + e' - 24) (-149) - e') with 1
        by (change (Zdigits2 16777216) with 25; lia).
      cbn [shr shr_record_of_loc SpecFloat.iter_pos shr_1 shr_m].
      destruct (e' + 1 <=? emax - prec) eqn:L.
      * apply Z.leb_le in L. unfold emax, prec in L.
        split; [reflexivity|]. split.
        { unfold SpecFloat.bounded, canonical_mantissa. rewrite fexp_eq.
          change (Zpos (digits2_pos 8388608)) with 24.
          apply andb_true_intro.
          split; [apply Z.eqb_eq; lia|apply Z.leb_le; unfold emax, prec; lia]. }
        split; [|split; [lia|split; [lia|reflexivity]]].
        rewrite bpow_add, bpow_1.
        change (IZR (2 ^ 24)) with 16777216%R. lra.
      * apply Z.leb_gt in L. unfold emax, prec in L.
        split; [reflexivity|]. split; [lia|].
        change (IZR (Zpos 16777216)) with (IZR (2 ^ 24)). rewrite <- bpow_IZR by lia.
        rewrite <- bpow_add. apply bpow_le. lia.
    + (* no second shift *)
      assert (Hlt : Zpos p < 2 ^ 24) by lia.
      assert (Hd := digits2_le p 24 Hlt ltac:(lia)).
      assert (Hc : Z.max (Zpos (digits2_pos p) + e' - 24) (-149) = e').
      { destruct (Z.eq_dec e' (-149)) as [E1|N1]; [lia|].
        assert (2 ^ 23 <= Zpos p) by (apply Hn; lia).
        assert (24 <= Zpos (digits2_pos p)) by (apply (digits2_ge p 23); lia). lia. }
      cbn [Zdigits2]. rewrite Hc, Z.sub_diag.
      cbn [shr shr_record_of_loc shr_m].
      destruct (e' <=? emax - prec) eqn:L.
      * split; [reflexivity|]. split; [|split; [reflexivity|]].
        { unfold SpecFloat.bounded, canonical_mantissa. rewrite fexp_eq, Hc, Z.eqb_refl, L. reflexivity. }
        apply Z.leb_le in L. unfold emax, prec in L. lia.
      * apply Z.leb_gt in L. unfold emax, prec in L.
        split; [reflexivity|]. split; [lia|].
        assert (2 ^ 23 <= Zpos p) by (apply Hn; lia).
        replace 128 with (23 + 105) by lia. rewrite bpow_add.
        assert (bpow 23 <= IZR (Zpos p))%R.
        { rewrite bpow_IZR by lia. apply IZR_le. assumption. }
        assert (bpow 105 <= bpow e')%R by (apply bpow_le; lia).
        assert (0 < bpow 23)%R by apply bpow_pos.
        assert (0 < bpow 105)%R by apply bpow_pos.
        nra.
Qed.

Lemma IZR_succ_le_digits m : 0 <= m -> (IZR m + 1 <= bpow (Zdigits2 m))%R.
Proof.
  intros H. destruct m as [|p|p]; [| |lia].
  - cbn [Zdigits2]. rewrite bpow_0. lra.
  - cbn [Zdigits2]. destruct (digits2_bounds p) as [_ B].
    rewrite bpow_IZR by lia. rewrite <- plus_IZR. apply IZR_le. lia.
Qed.

Lemma digits_le_IZR m : 0 < m -> (bpow (Zdigits2 m - 1) <= IZR m)%R.
Proof.
  intros H. destruct m as [|p|p]; try lia. cbn [Zdigits2]. apply digits2_bpow.
Qed.

Lemma bra_rounding s m e l w :
  0 <= m -> inbetween w m l ->
  e <= fexp prec emax (Zdigits2 m + e) ->
  exists e' r,
    rounding (w * bpow e) e' r
    /\ e' = fexp prec emax (Zdigits2 m + e)
    /\ (l = loc_Exact -> e' = e -> r = m)
    /\ binary_round_aux prec emax s m e l = finish s r e'.
Proof.
  intros Hm Hw He.
  set (k := Zdigits2 m + e) in *. set (e' := fexp prec emax k) in *.
  assert (Hn : 0 <= e' - e) by lia.
  destruct (shr_inb w (shr_record_of_loc m l) e (e' - e)
              (inb_of_loc w m l Hm Hw) Hn) as [Hs [Hm1 Hw1]].
  rewrite bra_unfold, shr_fexp_eq.
  change (Z.max (Zdigits2 m + e - 24) (-149)) with e'.
  set (sh := shr (shr_record_of_loc m l) e (e' - e)) in *.
  set (m1 := shr_m (fst sh)) in *. set (l1 := loc_of_shr_record (fst sh)) in *.
  destruct (rne_spec _ m1 l1 Hw1) as [Hr [Hr2 Hr3]].
  set (r := round_nearest_even m1 l1) in *.
  exists e', r.
  assert (Ee : e' = Z.max (k - 24) (-149)) by reflexivity.
  assert (Hb := inbetween_bounds _ _ _ Hw).
  assert (Hb1 := inbetween_bounds _ _ _ Hw1).
  assert (Hd := IZR_succ_le_digits m Hm).
  assert (Pe := bpow_pos e). assert (Pe' := bpow_pos (- e')).
  assert (Hw1eq : (w * bpow (- (e' - e)) = w * bpow e * bpow (- e'))%R).
  { replace (- (e' - e)) with (e + - e') by lia. rewrite bpow_add. lra. }
  rewrite Hw1eq in *.
  assert (Hv0 : (0 <= w * bpow e)%R).
  { assert (0 <= IZR m)%R by (apply IZR_le; lia). nra. }
  assert (Hvk : (w * bpow e < bpow k)%R).
  { unfold k. rewrite Z.add_comm, bpow_add. nra. }
  assert (Hvu : (w * bpow e < bpow (e' + 24))%R).
  { eapply Rlt_le_trans; [exact Hvk|]. apply bpow_le. lia. }
  assert (Hw1u : (w * bpow e * bpow (- e') < bpow 24)%R).
  { replace 24 with (e' + 24 + - e') by lia. rewrite bpow_add. nra. }
  assert (Hm1u : m1 < 2 ^ 24).
  { apply lt_IZR. rewrite <- bpow_IZR by lia. lra. }
  assert (Hvl : -149 < e' -> (bpow (e' + 23) <= w * bpow e)%R).
  { intros Hlt.
    assert (0 < m).
    { destruct (Z.eq_dec m 0) as [E|N]; [|lia]. subst m. unfold k in *. simpl in Ee. lia. }
    assert (Hdl := digits_le_IZR m H).
    replace (e' + 23) with (Zdigits2 m - 1 + e) by (unfold k in Ee; lia).
    rewrite bpow_add. nra. }
  assert (Hm1l : -149 < e' -> 2 ^ 23 <= m1).
  { intros Hlt. specialize (Hvl Hlt).
    assert (bpow 23 <= w * bpow e * bpow (- e'))%R.
    { replace 23 with (e' + 23 + - e') by lia. rewrite bpow_add. nra. }
    rewrite bpow_IZR in H by lia.
    assert (IZR (2 ^ 23) < IZR m1 + 1)%R by lra.
    rewrite <- plus_IZR in H0. apply lt_IZR in H0. lia. }
  split; [|split; [reflexivity|split]].
  - unfold rounding. repeat split; try lia; try lra; auto.
  - intros El Ee2. subst l. subst r l1 m1 sh.
    rewrite shr_nonpos by lia. reflexivity.
  - fold sh. fold m1. fold l1. fold r.
    replace (snd sh) with e' by (rewrite Hs; lia). reflexivity.
Qed.

Local Open Scope R_scope.

Ltac absr := unfold Rabs in *; repeat destruct Rcase_abs; try lra.

Lemma bpow_inv e : bpow e * bpow (- e) = 1.
Proof. rewrite <- bpow_add. replace (e + - e)%Z with 0%Z by lia. apply bpow_0. Qed.

Lemma nearest_multiple v e' r (j : Z) :
  rounding v e' r ->
  Rabs (IZR r * bpow e' - v) <= Rabs (IZR j * bpow e' - v).
Proof.
  intros (_ & _ & _ & Hr & _ & _).
  assert (Hu := bpow_pos e'). assert (Hi := bpow_inv e').
  set (xx := v * bpow (- e')) in *.
  assert (Ev : v = xx * bpow e') by (unfold xx; rewrite Rmult_assoc, (Rmult_comm (bpow (- e'))), Hi; lra).
  rewrite Ev. rewrite <- !Rmult_minus_distr_r, !Rabs_mult, (Rabs_pos_eq (bpow e')) by lra.
  apply Rmult_le_compat_r; [lra|].
  destruct (Z.eq_dec j r) as [E|N]; [subst j; lra|].
  assert (Hd : 1 <= Rabs (IZR j - IZR r)).
  { rewrite <- minus_IZR. rewrite <- abs_IZR. apply IZR_le. lia. }
  absr.
Qed.

Lemma valid_finite_form g :
  valid g = true -> is_finite g = true ->
  Rabs (F2R g) = 0
  \/ exists mg eg,
      Rabs (F2R g) = IZR (Zpos mg) * bpow eg
      /\ (-149 <= eg <= 104)%Z /\ (Zpos mg < 2 ^ 24)%Z
      /\ (-149 < eg -> 2 ^ 23 <= Zpos mg)%Z.
Proof.
  destruct g as [s|s| |s m e]; simpl; try discriminate; intros Hv _.
  - left. apply Rabs_R0.
  - right. exists m, e. unfold valid, valid_binary, SpecFloat.bounded, canonical_mantissa in Hv.
    apply andb_prop in Hv. destruct Hv as [Hc Hb].
    apply Z.eqb_eq in Hc. apply Z.leb_le in Hb. rewrite fexp_eq in Hc.
    unfold emax, prec in Hb.
    assert (Hd : (Zpos (digits2_pos m) <= 24)%Z) by lia.
    destruct (digits2_bounds m) as [B1 B2].
    split.
    { rewrite Rabs_mult, (Rabs_pos_eq (bpow e)) by (apply Rlt_le, bpow_pos).
      f_equal. destruct s; simpl.
      - rewrite <- abs_IZR. reflexivity.
      - apply Rabs_pos_eq. apply IZR_le. lia. }
    split; [lia|]. split.
    { assert (2 ^ Zpos (digits2_pos m) <= 2 ^ 24)%Z by (apply Z.pow_le_mono_r; lia). lia. }
    intros Hlt. assert (E : Zpos (digits2_pos m) = 24%Z) by lia.
    rewrite E in B1. exact (proj1 (conj B1 I)).
Qed.

Lemma nearest_float v e' r g :
  rounding v e' r -> valid g = true -> is_finite g = true ->
  Rabs (IZR r * bpow e' - v) <= Rabs (Rabs (F2R g) - v).
Proof.
  intros Hr Hv Hf.
  destruct (valid_finite_form g Hv Hf) as [E0|(mg & eg & E & He & Hm & Hn)].
  - rewrite E0. replace 0 with (IZR 0 * bpow e') by (simpl; lra).
    apply nearest_multiple. exact Hr.
  - rewrite E. destruct (Z_le_gt_dec e' eg) as [L|G].
    + (* a multiple of the unit *)
      replace (IZR (Zpos mg) * bpow eg) with (IZR (Zpos mg * 2 ^ (eg - e')) * bpow e').
      { apply nearest_multiple. exact Hr. }
      rewrite mult_IZR, <- bpow_IZR by lia.
      rewrite Rmult_assoc, <- bpow_add. do 2 f_equal. lia.
    + (* a number of a finer binade, below every number of the binade of v *)
      destruct Hr as (H1 & H2 & H3 & H4 & H5 & H6).
      assert (Hlow : bpow (e' + 23) <= v) by (apply H5; lia).
      assert (HG : IZR (Zpos mg) * bpow eg <= bpow (e' + 23)).
      { apply Rle_trans with (bpow (eg + 24)).
        - rewrite Z.add_comm, bpow_add. assert (Hp := bpow_pos eg).
          assert (IZR (Zpos mg) <= bpow 24).
          { rewrite bpow_IZR by lia. apply IZR_le. lia. }
          nra.
        - apply bpow_le. lia. }
      assert (HP := nearest_multiple v e' r (2 ^ 23)
                      (conj H1 (conj H2 (conj H3 (conj H4 (conj H5 H6)))))).
      rewrite <- bpow_IZR, <- bpow_add in HP by lia.
      rewrite (Z.add_comm 23 e') in HP.
      eapply Rle_trans; [exact HP|]. absr.
Qed.

Lemma F2R_finite s m e : F2R (S754_finite s m e) = sgn s * (IZR (Zpos m) * bpow e).
Proof.
  unfold F2R, sgn. destruct s; simpl; [|lra].
  change (Zneg m) with (- Zpos m)%Z. rewrite opp_IZR. lra.
Qed.

Lemma bpow_104 : bpow 104 = 2 * bpow 103.
Proof. replace 104%Z with (103 + 1)%Z by lia. apply bpow_succ. Qed.

Lemma bpow_128 : bpow 128 = bpow 24 * bpow 104.
Proof. rewrite <- bpow_add. reflexivity. Qed.

Lemma bpow_24 : bpow 24 = 16777216.
Proof. rewrite bpow_IZR by lia. reflexivity. Qed.

Lemma finish_rounds s v e' r :
  rounding v e' r ->
  rounds (sgn s * v) (finish s r e')
  /\ fsign (finish s r e') = s
  /\ (is_finite (finish s r e') = true ->
      F2R (finish s r e') = sgn s * (IZR r * bpow e')).
Proof.
  intros Hr. assert (Hr' := Hr).
  destruct Hr' as (H1 & H2 & H3 & H4 & H5 & H6).
  assert (Hsp := finish_spec s r e' H1 H2 H3).
  assert (Hu := bpow_pos e'). assert (Hi := bpow_inv e').
  assert (Hhalf : Rabs (IZR r * bpow e' - v) <= bpow e' / 2).
  { replace (IZR r * bpow e' - v) with ((IZR r - v * bpow (- e')) * bpow e')
      by (rewrite Rmult_minus_distr_r, Rmult_assoc, (Rmult_comm (bpow (- e'))), Hi; lra).
    rewrite Rabs_mult, (Rabs_pos_eq (bpow e')) by lra. nra. }
  assert (Hsg : forall z, Rabs (sgn s * z) = Rabs z).
  { intros z. unfold sgn. destruct s.
    - replace (-1 * z) with (- z) by lra. apply Rabs_Ropp.
    - f_equal. lra. }
  assert (Hnear : forall F g, F = sgn s * (IZR r * bpow e') ->
            valid g = true -> is_finite g = true ->
            Rabs (F - sgn s * v) <= Rabs (F2R g - sgn s * v)).
  { intros F g EF Hv Hf. subst F. rewrite <- Rmult_minus_distr_l, Hsg.
    eapply Rle_trans; [apply (nearest_float v e' r g Hr Hv Hf)|].
    unfold sgn. destruct s; absr. }
  destruct (finish s r e') as [s'|s'| |s' m3 e3] eqn:Ef.
  - (* zero *)
    destruct Hsp as [Es Er]. subst s' r. simpl.
    split; [|split; [reflexivity|intros _; lra]].
    split; [reflexivity|]. rewrite Hsg.
    assert (He' : (e' <= 104)%Z).
    { destruct (Z_le_gt_dec e' 104) as [L|G]; [assumption|exfalso].
      assert (bpow (e' + 23) <= v) by (apply H5; lia).
      assert (Hp := bpow_pos (e' + 23)).
      assert (bpow e' < bpow (e' + 23)) by (apply bpow_lt; lia).
      simpl in Hhalf. rewrite Rmult_0_l in Hhalf. absr. }
    split.
    { assert (bpow e' <= bpow 104) by (apply bpow_le; assumption).
      assert (Hp := bpow_pos 103).
      unfold Tov. rewrite bpow_128, bpow_24, bpow_104 in *.
      simpl in Hhalf. rewrite Rmult_0_l in Hhalf. absr. }
    split; [intros Hv; unfold sgn in Hv; destruct s; [lra|reflexivity]|].
    split; [intros Hv; unfold sgn in Hv; destruct s; [reflexivity|lra]|].
    intros g Hv Hf. apply Hnear; auto. simpl. lra.
  - (* infinity *)
    destruct Hsp as [Es [Er Hbig]]. subst s'. simpl.
    split; [|split; [reflexivity|discriminate]].
    assert (Tov <= v).
    { destruct (Z_le_gt_dec e' 104) as [L|G].
      - assert (bpow e' <= bpow 104) by (apply bpow_le; assumption).
        unfold Tov. rewrite bpow_104 in *. assert (Hp := bpow_pos 103). absr.
      - assert (bpow (e' + 23) <= v) by (apply H5; lia).
        assert (bpow 128 <= bpow (e' + 23)) by (apply bpow_le; lia).
        unfold Tov. assert (Hp := bpow_pos 103). lra. }
    unfold sgn. destruct s; lra.
  - destruct Hsp.
  - (* finite *)
    destruct Hsp as (Es & Hb & Ev & Er & He3 & Hm3). subst s'.
    assert (EF : F2R (S754_finite s m3 e3) = sgn s * (IZR r * bpow e')).
    { rewrite F2R_finite, Ev. reflexivity. }
    split; [|split; [reflexivity|intros _; exact EF]].
    split; [exact Hb|]. rewrite Hsg.
    split.
    { assert (bpow e' <= bpow 104) by (apply bpow_le; lia).
      assert (IZR (Zpos m3) * bpow e3 <= (bpow 24 - 1) * bpow 104).
      { assert (IZR (Zpos m3) <= bpow 24 - 1).
        { rewrite bpow_IZR by lia. rewrite <- minus_IZR. apply IZR_le. lia. }
        assert (bpow e3 <= bpow 104) by (apply bpow_le; lia).
        assert (0 < bpow e3) by apply bpow_pos.
        assert (0 <= IZR (Zpos m3)) by (apply IZR_le; lia).
        rewrite bpow_24 in *. nra. }
      rewrite Ev in H0.
      unfold Tov. rewrite bpow_128, bpow_104 in *. assert (Hp := bpow_pos 103).
      absr. }
    split; [intros Hv; unfold sgn in Hv; destruct s; [lra|reflexivity]|].
    split; [intros Hv; unfold sgn in Hv; destruct s; [reflexivity|lra]|].
    intros g Hv Hf. rewrite EF. apply Hnear; auto.
Qed.

Theorem bra_rounds s m e l w :
  (0 <= m)%Z -> inbetween w m l ->
  (e <= fexp prec emax (Zdigits2 m + e))%Z ->
  rounds (sgn s * (w * bpow e)) (binary_round_aux prec emax s m e l)
  /\ fsign (binary_round_aux prec emax s m e l) = s.
Proof.
  intros Hm Hw He.
  destruct (bra_rounding s m e l w Hm Hw He) as (e' & r & Hr & _ & _ & E).
  rewrite E. destruct (finish_rounds s _ e' r Hr) as (A & B & _). auto.
Qed.

(** ** Consequences of [rounds] *)

Lemma valid_finite_bound g :
  valid g = true -> is_finite g = true ->
  Rabs (F2R g) <= bpow 128 - bpow 104.
Proof.
  intros Hv Hf. assert (Hp := bpow_pos 104).
  destruct (valid_finite_form g Hv Hf) as [E0|(mg & eg & E & He & Hm & Hn)].
  - rewrite E0, bpow_128, bpow_24. lra.
  - rewrite E, bpow_128.
    assert (IZR (Zpos mg) <= bpow 24 - 1).
    { rewrite bpow_IZR by lia. rewrite <- minus_IZR. apply IZR_le. lia. }
    assert (bpow eg <= bpow 104) by (apply bpow_le; lia).
    assert (0 < bpow eg) by apply bpow_pos.
    assert (0 <= IZR (Zpos mg)) by (apply IZR_le; lia).
    rewrite bpow_24 in *. nra.
Qed.

Lemma Tov_gt_max : bpow 128 - bpow 104 < Tov.
Proof. unfold Tov. rewrite bpow_104. assert (Hp := bpow_pos 103). lra. Qed.

Lemma rounds_not_nan v f : rounds v f -> is_nan f = false.
Proof. destruct f; simpl; auto. intros []. Qed.

Lemma Tov_pos : 0 < Tov.
Proof.
  unfold Tov. rewrite bpow_128, bpow_104, bpow_24. assert (Hs := bpow_pos 103). lra.
Qed.

Lemma rounds_finite v f :
  rounds v f -> Rabs v < Tov -> is_finite f = true.
Proof.
  assert (HT := Tov_pos).
  destruct f as [s|s| |s m e]; simpl; intros H1 H2; try reflexivity;
    try contradiction.
  exfalso. destruct s; absr.
Qed.

Lemma rounds_nearest v f g :
  rounds v f -> is_finite f = true -> valid g = true -> is_finite g = true ->
  Rabs (F2R f - v) <= Rabs (F2R g - v).
Proof.
  destruct f as [s|s| |s m e]; simpl; try discriminate;
    intros (_ & _ & _ & _ & H) _ Hv Hf; apply H; assumption.
Qed.

Lemma rounds_valid v f : rounds v f -> valid f = true.
Proof.
  destruct f as [s|s| |s m e]; simpl; try reflexivity; try tauto.
Qed.

Lemma rounds_exact g f :
  valid g = true -> is_finite g = true -> rounds (F2R g) f ->
  is_finite f = true /\ F2R f = F2R g.
Proof.
  intros Hv Hf Hr.
  assert (Hb := valid_finite_bound g Hv Hf). assert (Ht := Tov_gt_max).
  assert (Hfin : is_finite f = true) by (apply (rounds_finite _ _ Hr); lra).
  split; [assumption|].
  assert (H := rounds_nearest _ _ g Hr Hfin Hv Hf).
  replace (F2R g - F2R g) with 0 in H by lra. rewrite Rabs_R0 in H.
  absr.
Qed.

Lemma rounds_mono_finite v1 v2 f1 f2 :
  rounds v1 f1 -> rounds v2 f2 ->
  is_finite f1 = true -> is_finite f2 = true -> v1 < v2 ->
  F2R f1 <= F2R f2.
Proof.
  intros H1 H2 F1 F2 Hlt.
  assert (V1 := rounds_valid _ _ H1). assert (V2 := rounds_valid _ _ H2).
  assert (N1 := rounds_nearest _ _ f2 H1 F1 V2 F2).
  assert (N2 := rounds_nearest _ _ f1 H2 F2 V1 F1).
  absr.
Qed.

Lemma rounds_bound v f : rounds v f -> is_finite f = true -> Rabs v <= Tov.
Proof.
  destruct f as [s|s| |s m e]; simpl; try discriminate; tauto.
Qed.

Lemma fle_finite f1 f2 :
  is_finite f1 = true -> is_finite f2 = true ->
  fle f1 f2 <-> F2R f1 <= F2R f2.
Proof.
  destruct f1, f2; simpl; try discriminate; tauto.
Qed.

Lemma rounds_mono v1 v2 f1 f2 :
  rounds v1 f1 -> rounds v2 f2 -> v1 < v2 -> fle f1 f2.
Proof.
  intros H1 H2 Hlt. assert (HT := Tov_pos).
  destruct (is_finite f1) eqn:F1; destruct (is_finite f2) eqn:F2.
  - apply fle_finite; auto. eapply rounds_mono_finite; eauto.
  - assert (B1 := rounds_bound _ _ H1 F1).
    destruct f2 as [s2|[|]| |s2 m2 e2]; simpl in *; try discriminate; try contradiction.
    + exfalso. absr.
    + destruct f1; simpl in *; try discriminate; exact I.
  - assert (B2 := rounds_bound _ _ H2 F2).
    destruct f1 as [s1|[|]| |s1 m1 e1]; simpl in *; try discriminate; try contradiction.
    + destruct f2; simpl in *; try discriminate; exact I.
    + exfalso. absr.
  - destruct f1 as [s1|[|]| |s1 m1 e1]; simpl in *; try discriminate; try contradiction;
    destruct f2 as [s2|[|]| |s2 m2 e2]; simpl in *; try discriminate; try contradiction;
      try exact I; lra.
Qed.

(** ** [binary_round] and [binary_normalize] *)

Local Open Scope Z_scope.

Lemma iter_xO_spec m d :
  Zpos (Pos.iter xO m d) = Zpos m * 2 ^ Zpos d
  /\ Zpos (digits2_pos (Pos.iter xO m d)) = Zpos (digits2_pos m) + Zpos d.
Proof.
  induction d as [|d IH] using Pos.peano_ind.
  - simpl. split; lia.
  - rewrite Pos.iter_succ. destruct IH as [IH1 IH2].
    cbn [digits2_pos]. rewrite Pos2Z.inj_xO, IH1, !Pos2Z.inj_succ, IH2.
    rewrite Z.pow_succ_r by lia. split; lia.
Qed.

Lemma shl_align_spec m e e' :
  (IZR (Zpos (fst (shl_align m e e'))) * bpow (snd (shl_align m e e'))
   = IZR (Zpos m) * bpow e)%R
  /\ Zpos (digits2_pos (fst (shl_align m e e'))) + snd (shl_align m e e')
     = Zpos (digits2_pos m) + e
  /\ snd (shl_align m e e') = Z.min e e'.
Proof.
  unfold shl_align. destruct (e' - e) as [|d|d] eqn:E; cbn [fst snd].
  - split; [reflexivity|]. split; lia.
  - split; [reflexivity|]. split; lia.
  - destruct (iter_xO_spec m d) as [I1 I2]. rewrite I1, I2.
    split; [|split; lia].
    rewrite mult_IZR, <- bpow_IZR by lia. rewrite Rmult_assoc, <- bpow_add.
    do 2 f_equal. lia.
Qed.

Lemma fexp_mono k1 k2 : k1 <= k2 -> fexp prec emax k1 <= fexp prec emax k2.
Proof. rewrite !fexp_eq. lia. Qed.

Theorem binary_round_rounds s m e :
  rounds (sgn s * (IZR (Zpos m) * bpow e)) (binary_round prec emax s m e)
  /\ fsign (binary_round prec emax s m e) = s.
Proof.
  unfold binary_round.
  destruct (shl_align_spec m e (fexp prec emax (Zpos (digits2_pos m) + e)))
    as (Hv & Hd & He).
  destruct (shl_align m e (fexp prec emax (Zpos (digits2_pos m) + e))) as [mz ez].
  cbn [fst snd] in *. rewrite <- Hv.
  apply bra_rounds; [lia|reflexivity|].
  cbn [Zdigits2]. rewrite Hd, He. lia.
Qed.

Theorem binary_normalize_rounds z e :
  rounds (IZR z * bpow e) (binary_normalize prec emax z e false).
Proof.
  destruct z as [|p|p]; cbn [binary_normalize].
  - rewrite Rmult_0_l. simpl. rewrite Rabs_R0. assert (HT := Tov_pos).
    split; [reflexivity|]. split; [lra|]. split; [lra|]. split; [lra|].
    intros g _ _. replace (0 - 0)%R with 0%R by lra. rewrite Rabs_R0. apply Rabs_pos.
  - destruct (binary_round_rounds false p e) as [H _].
    unfold sgn in H. rewrite Rmult_1_l in H. exact H.
  - destruct (binary_round_rounds true p e) as [H _].
    unfold sgn in H. change (Zneg p) with (- Zpos p). rewrite opp_IZR.
    replace (- IZR (Zpos p) * bpow e)%R with (-1 * (IZR (Zpos p) * bpow e))%R by lra.
    exact H.
Qed.

Theorem of_int_rounds z : rounds (IZR z) (of_int z).
Proof.
  unfold of_int. replace (IZR z) with (IZR z * bpow 0)%R by (rewrite bpow_0; lra).
  apply binary_normalize_rounds.
Qed.

(** ** Addition and subtraction *)

Local Open Scope R_scope.

Lemma rounds_zero s : rounds 0 (S754_zero s).
Proof.
  simpl. rewrite Rabs_R0. assert (HT := Tov_pos).
  split; [reflexivity|]. split; [lra|]. split; [lra|]. split; [lra|].
  intros g _ _. replace (0 - 0) with 0 by lra. rewrite Rabs_R0. apply Rabs_pos.
Qed.

Lemma rounds_self f :
  valid f = true -> is_finite f = true -> rounds (F2R f) f.
Proof.
  intros Hv Hf. destruct f as [s|s| |s m e]; try discriminate.
  - apply rounds_zero.
  - assert (Hb := valid_finite_bound _ Hv Hf). assert (Ht := Tov_gt_max).
    assert (Hp : 0 < IZR (Zpos m) * bpow e).
    { apply Rmult_lt_0_compat; [apply IZR_lt; lia|apply bpow_pos]. }
    split; [exact Hv|]. split; [lra|].
    rewrite F2R_finite. unfold sgn. cbn [fsign].
    split; [destruct s; [lra|reflexivity]|].
    split; [destruct s; [reflexivity|lra]|].
    intros g _ _.
    match goal with |- Rabs (?a - ?a) <= _ => replace (a - a) with 0 by lra end.
    rewrite Rabs_R0. apply Rabs_pos.
Qed.

Lemma F2R_cond_Zopp s m e :
  F2R (S754_finite s m e) = IZR (cond_Zopp s (Zpos m)) * bpow e.
Proof. reflexivity. Qed.

Lemma F2R_aligned s m e ez :
  (ez <= e)%Z ->
  F2R (S754_finite s m e)
  = IZR (cond_Zopp s (Zpos (fst (shl_align m e ez)))) * bpow ez.
Proof.
  intros H. destruct (shl_align_spec m e ez) as (Hv & _ & He).
  rewrite Z.min_r in He by assumption. rewrite He in Hv.
  unfold F2R. destruct s; cbn [cond_Zopp].
  - rewrite !opp_IZR. lra.
  - exact (eq_sym Hv).
Qed.

Lemma valid_opp f : valid (SFopp f) = valid f.
Proof. destruct f; reflexivity. Qed.

Lemma F2R_opp f : F2R (SFopp f) = - F2R f.
Proof.
  destruct f as [s|s| |s m e]; simpl; try lra.
  destruct s; simpl; change (Zneg m) with (- Zpos m)%Z; rewrite opp_IZR; lra.
Qed.

Theorem fadd_rounds u v :
  valid u = true -> valid v = true ->
  is_finite u = true -> is_finite v = true ->
  rounds (F2R u + F2R v) (fadd u v).
Proof.
  intros Vu Vv Fu Fv.
  destruct u as [su|su| |su mu eu]; try discriminate;
    destruct v as [sv|sv| |sv mv ev]; try discriminate.
  - replace (F2R (S754_zero su) + F2R (S754_zero sv)) with 0 by (simpl; lra).
    unfold fadd, SFadd. destruct su, sv; apply rounds_zero.
  - replace (F2R (S754_zero su) + F2R (S754_finite sv mv ev))
      with (F2R (S754_finite sv mv ev)) by (simpl; lra).
    apply rounds_self; assumption.
  - replace (F2R (S754_finite su mu eu) + F2R (S754_zero sv))
      with (F2R (S754_finite su mu eu)) by (simpl; lra).
    apply rounds_self; assumption.
  - unfold fadd, SFadd.
    rewrite (F2R_aligned su mu eu (Z.min eu ev)) by lia.
    rewrite (F2R_aligned sv mv ev (Z.min eu ev)) by lia.
    rewrite <- Rmult_plus_distr_r, <- plus_IZR.
    apply binary_normalize_rounds.
Qed.

Theorem fsub_rounds u v :
  valid u = true -> valid v = true ->
  is_finite u = true -> is_finite v = true ->
  rounds (F2R u - F2R v) (fsub u v).
Proof.
  intros Vu Vv Fu Fv.
  destruct u as [su|su| |su mu eu]; try discriminate;
    destruct v as [sv|sv| |sv mv ev]; try discriminate.
  - replace (F2R (S754_zero su) - F2R (S754_zero sv)) with 0 by (simpl; lra).
    unfold fsub, SFsub. destruct su, sv; apply rounds_zero.
  - replace (F2R (S754_zero su) - F2R (S754_finite sv mv ev))
      with (F2R (SFopp (S754_finite sv mv ev))) by (rewrite F2R_opp; simpl; lra).
    apply rounds_self; [exact Vv|reflexivity].
  - replace (F2R (S754_finite su mu eu) - F2R (S754_zero sv))
      with (F2R (S754_finite su mu eu)) by (simpl; lra).
    apply rounds_self; assumption.
  - unfold fsub, SFsub.
    rewrite (F2R_aligned su mu eu (Z.min eu ev)) by lia.
    rewrite (F2R_aligned sv mv ev (Z.min eu ev)) by lia.
    rewrite <- Rmult_minus_distr_r, <- minus_IZR.
    apply binary_normalize_rounds.
Qed.

(** ** Multiplication *)

Lemma sgn_xorb s1 s2 : sgn (xorb s1 s2) = sgn s1 * sgn s2.
Proof. destruct s1, s2; unfold sgn; simpl; lra. Qed.

Lemma valid_canonical s m e :
  valid (S754_finite s m e) = true ->
  (Z.max (Zpos (digits2_pos m) + e - 24) (-149) = e /\ e <= 104)%Z.
Proof.
  unfold valid, valid_binary, SpecFloat.bounded, canonical_mantissa.
  intros H. apply andb_prop in H. destruct H as [Hc Hb].
  apply Z.eqb_eq in Hc. apply Z.leb_le in Hb. rewrite fexp_eq in Hc.
  unfold emax, prec in Hb. lia.
Qed.

Lemma digits2_mul m1 m2 :
  (Zpos (digits2_pos m1) + Zpos (digits2_pos m2) - 1
   <= Zpos (digits2_pos (m1 * m2)))%Z.
Proof.
  destruct (digits2_bounds m1) as [A1 _]. destruct (digits2_bounds m2) as [A2 _].
  set (d1 := Zpos (digits2_pos m1)) in *. set (d2 := Zpos (digits2_pos m2)) in *.
  assert (H : (2 ^ (d1 + d2 - 2) <= Zpos (m1 * m2))%Z).
  { replace (d1 + d2 - 2)%Z with ((d1 - 1) + (d2 - 1))%Z by lia.
    rewrite Z.pow_add_r by (unfold d1, d2; lia). rewrite Pos2Z.inj_mul.
    apply Z.mul_le_mono_nonneg; try lia; apply Z.pow_nonneg; lia. }
  apply digits2_ge in H; [lia|unfold d1, d2; lia].
Qed.

Theorem fmul_rounds u v :
  valid u = true -> valid v = true ->
  is_finite u = true -> is_finite v = true ->
  rounds (F2R u * F2R v) (fmul u v).
Proof.
  intros Vu Vv Fu Fv.
  destruct u as [su|su| |su mu eu]; try discriminate;
    destruct v as [sv|sv| |sv mv ev]; try discriminate;
    try (match goal with |- rounds ?a _ => replace a with 0 by (simpl; lra) end;
         apply rounds_zero).
  unfold fmul, SFmul. rewrite !F2R_finite.
  replace (sgn su * (IZR (Zpos mu) * bpow eu) * (sgn sv * (IZR (Zpos mv) * bpow ev)))
    with (sgn (xorb su sv) * (IZR (Zpos (mu * mv)) * bpow (eu + ev))).
  2:{ rewrite sgn_xorb, Pos2Z.inj_mul, mult_IZR, bpow_add. lra. }
  apply bra_rounds; [lia|reflexivity|].
  destruct (valid_canonical _ _ _ Vu) as [Cu _].
  destruct (valid_canonical _ _ _ Vv) as [Cv _].
  assert (Hd := digits2_mul mu mv).
  assert (0 < Zpos (digits2_pos mu))%Z by lia.
  assert (0 < Zpos (digits2_pos mv))%Z by lia.
  cbn [Zdigits2]. rewrite fexp_eq.
  generalize dependent (Zpos (digits2_pos (mu * mv))).
  generalize dependent (Zpos (digits2_pos mu)).
  generalize dependent (Zpos (digits2_pos mv)).
  clear. intros. lia.
Qed.

(** ** Division *)

Lemma new_location_spec (m2 q r : Z) :
  (0 < m2)%Z -> (0 <= r < m2)%Z ->
  inbetween (IZR q + IZR r / IZR m2) q (new_location m2 r).
Proof.
  intros Hm Hr.
  assert (Hm' : 0 < IZR m2) by (apply IZR_lt; lia).
  assert (Ht : IZR r / IZR m2 * IZR m2 = IZR r) by (field; lra).
  set (t := IZR r / IZR m2) in *. clearbody t.
  assert (Hr0 : 0 <= IZR r < IZR m2) by (split; [apply IZR_le|apply IZR_lt]; lia).
  unfold new_location.
  destruct (Z.even m2) eqn:Ev; unfold new_location_even, new_location_odd;
    destruct (Z.eqb_spec r 0) as [E|N].
  - subst r. assert (t = 0).
    { apply Rmult_eq_reg_r with (IZR m2); [|lra]. rewrite Ht. lra. }
    simpl; lra.
  - assert (0 < IZR r) by (apply IZR_lt; lia).
    destruct (Z.compare_spec (2 * r) m2) as [E|L|G]; simpl.
    + apply (f_equal IZR) in E. rewrite mult_IZR in E.
      assert (Et : t = / 2); [|rewrite Et; reflexivity].
      apply Rmult_eq_reg_r with (IZR m2); [|lra]. rewrite Ht. lra.
    + apply IZR_lt in L. rewrite mult_IZR in L. split; nra.
    + apply IZR_lt in G. rewrite mult_IZR in G. split; nra.
  - subst r. assert (t = 0).
    { apply Rmult_eq_reg_r with (IZR m2); [|lra]. rewrite Ht. lra. }
    simpl; lra.
  - assert (0 < IZR r) by (apply IZR_lt; lia).
    assert (Hodd : (2 * r <> m2)%Z).
    { intros E. rewrite <- E in Ev. rewrite Z.even_mul in Ev. discriminate. }
    destruct (Z.compare_spec (2 * r + 1) m2) as [E|L|G]; simpl.
    + assert (L : (2 * r < m2)%Z) by lia.
      apply IZR_lt in L. rewrite mult_IZR in L. split; nra.
    + assert (L' : (2 * r < m2)%Z) by lia.
      apply IZR_lt in L'. rewrite mult_IZR in L'. split; nra.
    + assert (G' : (m2 < 2 * r)%Z) by lia.
      apply IZR_lt in G'. rewrite mult_IZR in G'. split; nra.
Qed.

Lemma div_core_spec m1 e1 m2 e2 :
  let '(q, e', l) := SFdiv_core_binary prec emax (Zpos m1) e1 (Zpos m2) e2 in
  (0 <= q)%Z
  /\ (exists w, inbetween w q l
                /\ w * bpow e' = IZR (Zpos m1) * bpow e1 / (IZR (Zpos m2) * bpow e2))
  /\ (e' <= fexp prec emax (Zdigits2 q + e'))%Z.
Proof.
  unfold SFdiv_core_binary.
  destruct (digits2_bounds m1) as [A1 _]. destruct (digits2_bounds m2) as [_ A2].
  change (Zdigits2 (Zpos m1)) with (Zpos (digits2_pos m1)).
  change (Zdigits2 (Zpos m2)) with (Zpos (digits2_pos m2)).
  assert (Hd1 : (0 < Zpos (digits2_pos m1))%Z) by lia.
  assert (Hd2 : (0 < Zpos (digits2_pos m2))%Z) by lia.
  generalize dependent (Zpos (digits2_pos m1)). intros d1 A1 Hd1.
  generalize dependent (Zpos (digits2_pos m2)). intros d2 A2 Hd2.
  set (K := (d1 + e1 - (d2 + e2))%Z).
  assert (He1 : (Z.min (fexp prec emax K) (e1 - e2) <= fexp prec emax K)%Z) by lia.
  assert (He2 : (Z.min (fexp prec emax K) (e1 - e2) <= e1 - e2)%Z) by lia.
  generalize dependent (Z.min (fexp prec emax K) (e1 - e2)). intros e' He1 He2.
  assert (Es : exists s, (e1 - e2 - e' = s /\ 0 <= s)%Z) by (eexists; split; [reflexivity|lia]).
  destruct Es as (s & Es & Hs). rewrite Es.
  set (m' := match s with
             | 0%Z => Zpos m1
             | Zpos _ => Z.shiftl (Zpos m1) s
             | Zneg _ => 0%Z
             end).
  assert (Em : m' = (Zpos m1 * 2 ^ s)%Z).
  { unfold m'. destruct s as [|p|p]; try lia.
    apply Z.shiftl_mul_pow2. lia. }
  clearbody m'.
  assert (Hdiv := Z_div_mod m' (Zpos m2) ltac:(lia)).
  destruct (Z.div_eucl m' (Zpos m2)) as [q r]. destruct Hdiv as [Eq Hr].
  assert (P2 : (0 < 2 ^ s)%Z) by (apply Z.pow_pos_nonneg; lia).
  assert (Hq : (0 <= q)%Z) by nia.
  split; [exact Hq|]. split.
  - exists (IZR q + IZR r / IZR (Zpos m2)).
    split; [apply new_location_spec; lia|].
    assert (H2 : 0 < IZR (Zpos m2)) by (apply IZR_lt; lia).
    assert (Hb1 := bpow_pos e1). assert (Hb2 := bpow_pos e2). assert (Hb' := bpow_pos e').
    assert (Em' : IZR q * IZR (Zpos m2) + IZR r = IZR (Zpos m1) * bpow s).
    { rewrite bpow_IZR by lia. rewrite <- !mult_IZR, <- plus_IZR. f_equal. lia. }
    assert (Eb : bpow e1 = bpow s * bpow e' * bpow e2).
    { rewrite <- !bpow_add. f_equal. lia. }
    rewrite Eb.
    replace (IZR q + IZR r / IZR (Zpos m2))
      with ((IZR q * IZR (Zpos m2) + IZR r) / IZR (Zpos m2)) by (field; lra).
    rewrite Em'. field. split; lra.
  - apply Z.le_trans with (fexp prec emax K); [assumption|].
    apply fexp_mono. unfold K.
    assert (Hdq : (0 <= Zdigits2 q)%Z) by (destruct q; simpl; lia).
    destruct (Z_lt_le_dec (d1 - d2 + s - 1) 0) as [L|G]; [lia|].
    assert (Hge : (2 ^ (d1 - d2 + s - 1) <= q)%Z).
    { assert (Hm'ge : (2 ^ (d1 - d2 + s - 1) * 2 ^ d2 <= m')%Z).
      { rewrite <- Z.pow_add_r by lia.
        replace (d1 - d2 + s - 1 + d2)%Z with ((d1 - 1) + s)%Z by lia.
        rewrite Z.pow_add_r by lia. rewrite Em.
        apply Z.mul_le_mono_nonneg_r; lia. }
      assert (P : (0 < 2 ^ (d1 - d2 + s - 1))%Z) by (apply Z.pow_pos_nonneg; lia).
      destruct (Z_le_gt_dec (2 ^ (d1 - d2 + s - 1)) q) as [Y|Nq]; [assumption|exfalso].
      assert (q + 1 <= 2 ^ (d1 - d2 + s - 1))%Z by lia.
      assert (Zpos m2 * (q + 1) <= Zpos m2 * 2 ^ (d1 - d2 + s - 1))%Z
        by (apply Z.mul_le_mono_nonneg_l; lia).
      nia. }
    destruct q as [|pq|pq]; try lia.
    apply digits2_ge in Hge; [|lia]. cbn [Zdigits2]. lia.
Qed.

Theorem fdiv_rounds u v :
  is_finite u = true -> is_finite v = true ->
  F2R v <> 0 ->
  rounds (F2R u / F2R v) (fdiv u v).
Proof.
  intros Fu Fv Nz.
  destruct v as [sv|sv| |sv mv ev]; try discriminate; [simpl in Nz; lra|].
  destruct u as [su|su| |su mu eu]; try discriminate.
  - replace (F2R (S754_zero su) / F2R (S754_finite sv mv ev)) with 0
      by (simpl; unfold Rdiv; lra).
    apply rounds_zero.
  - unfold fdiv, SFdiv.
    assert (H := div_core_spec mu eu mv ev).
    destruct (SFdiv_core_binary prec emax (Zpos mu) eu (Zpos mv) ev) as [[q e'] l].
    destruct H as (Hq & (w & Hw & Ev) & He).
    rewrite !F2R_finite.
    assert (Hm : 0 < IZR (Zpos mv) * bpow ev).
    { apply Rmult_lt_0_compat; [apply IZR_lt; lia|apply bpow_pos]. }
    replace (sgn su * (IZR (Zpos mu) * bpow eu) / (sgn sv * (IZR (Zpos mv) * bpow ev)))
      with (sgn (xorb su sv) * (w * bpow e')).
    2:{ rewrite Ev, sgn_xorb. clear Ev.
        generalize dependent (IZR (Zpos mv) * bpow ev). intros Y HY.
        generalize (IZR (Zpos mu) * bpow eu). intros X.
        unfold sgn. destruct su, sv; field; lra. }
    apply bra_rounds; assumption.
Qed.

(** ** Comparisons *)

Lemma canonical_order_lt m1 e1 m2 e2 :
  valid (S754_finite false m1 e1) = true ->
  valid (S754_finite false m2 e2) = true ->
  (e1 < e2)%Z ->
  IZR (Zpos m1) * bpow e1 < IZR (Zpos m2) * bpow e2.
Proof.
  intros V1 V2 Hlt.
  destruct (valid_canonical _ _ _ V1) as [C1 _].
  destruct (valid_canonical _ _ _ V2) as [C2 _].
  destruct (digits2_bpow m1) as [_ B1]. destruct (digits2_bpow m2) as [B2 _].
  assert (P1 := bpow_pos e1). assert (P2 := bpow_pos e2).
  apply Rlt_le_trans with (bpow (Zpos (digits2_pos m1) + e1)).
  - rewrite bpow_add. nra.
  - apply Rle_trans with (bpow (Zpos (digits2_pos m2) - 1 + e2)).
    + apply bpow_le. lia.
    + rewrite bpow_add. nra.
Qed.

Lemma compare_cont_spec m1 m2 :
  match Pos.compare_cont Eq m1 m2 with
  | Eq => m1 = m2
  | Lt => (Zpos m1 < Zpos m2)%Z
  | Gt => (Zpos m2 < Zpos m1)%Z
  end.
Proof.
  change (Pos.compare_cont Eq m1 m2) with (Pos.compare m1 m2).
  destruct (Pos.compare_spec m1 m2); auto; lia.
Qed.

Lemma SFcompare_finite f1 f2 :
  valid f1 = true -> valid f2 = true ->
  is_finite f1 = true -> is_finite f2 = true ->
  match SFcompare f1 f2 with
  | Some Lt => F2R f1 < F2R f2
  | Some Eq => F2R f1 = F2R f2
  | Some Gt => F2R f2 < F2R f1
  | None => False
  end.
Proof.
  intros V1 V2 F1 F2.
  destruct f1 as [s1|s1| |s1 m1 e1]; try discriminate;
    destruct f2 as [s2|s2| |s2 m2 e2]; try discriminate.
  - simpl. reflexivity.
  - assert (0 < IZR (Zpos m2) * bpow e2)
      by (apply Rmult_lt_0_compat; [apply IZR_lt; lia|apply bpow_pos]).
    unfold SFcompare. rewrite F2R_finite. unfold sgn. simpl F2R. destruct s2; lra.
  - assert (0 < IZR (Zpos m1) * bpow e1)
      by (apply Rmult_lt_0_compat; [apply IZR_lt; lia|apply bpow_pos]).
    unfold SFcompare. rewrite F2R_finite. unfold sgn. simpl F2R. destruct s1; lra.
  - assert (H1 : 0 < IZR (Zpos m1) * bpow e1)
      by (apply Rmult_lt_0_compat; [apply IZR_lt; lia|apply bpow_pos]).
    assert (H2 : 0 < IZR (Zpos m2) * bpow e2)
      by (apply Rmult_lt_0_compat; [apply IZR_lt; lia|apply bpow_pos]).
    assert (V1' : valid (S754_finite false m1 e1) = true) by exact V1.
    assert (V2' : valid (S754_finite false m2 e2) = true) by exact V2.
    assert (Hc := compare_cont_spec m1 m2).
    assert (P2 := bpow_pos e2).
    unfold SFcompare. rewrite !F2R_finite. unfold sgn.
    destruct s1, s2; try lra;
      destruct (Z.compare_spec e1 e2) as [E|L|G];
      try (assert (A := canonical_order_lt _ _ _ _ V1' V2' L); lra);
      try (assert (A := canonical_order_lt _ _ _ _ V2' V1' G); lra);
      subst e2; destruct (Pos.compare_cont Eq m1 m2); simpl;
      try (subst m2; lra);
      try (apply IZR_lt in Hc; nra).
Qed.

Lemma flt_spec f1 f2 :
  valid f1 = true -> valid f2 = true ->
  is_finite f1 = true -> is_finite f2 = true ->
  (flt f1 f2 = true <-> F2R f1 < F2R f2).
Proof.
  intros V1 V2 F1 F2. assert (H := SFcompare_finite f1 f2 V1 V2 F1 F2).
  unfold flt, SFltb. destruct (SFcompare f1 f2) as [[| |]|]; try contradiction;
    split; intros; try discriminate; try reflexivity; lra.
Qed.

Lemma feq_spec f1 f2 :
  valid f1 = true -> valid f2 = true ->
  is_finite f1 = true -> is_finite f2 = true ->
  (feq f1 f2 = true <-> F2R f1 = F2R f2).
Proof.
  intros V1 V2 F1 F2. assert (H := SFcompare_finite f1 f2 V1 V2 F1 F2).
  unfold feq, SFeqb. destruct (SFcompare f1 f2) as [[| |]|]; try contradiction;
    split; intros; try discriminate; try reflexivity; lra.
Qed.

(** ** Truncation *)

Lemma trunc_spec f z :
  trunc f = Some z ->
  is_finite f = true
  /\ (0 <= F2R f -> IZR z <= F2R f < IZR z + 1)
  /\ (F2R f <= 0 -> IZR z - 1 < F2R f <= IZR z).
Proof.
  destruct f as [s|s| |s m e]; unfold trunc; try discriminate.
  - intros H. injection H as <-. split; [reflexivity|]. simpl. split; intros; lra.
  - set (q := match e with
              | 0%Z => Zpos m
              | Zpos p => (Zpos m * 2 ^ Zpos p)%Z
              | Zneg p => (Zpos m / 2 ^ Zpos p)%Z
              end).
    assert (Hmag : (0 <= q)%Z /\ IZR q <= IZR (Zpos m) * bpow e < IZR q + 1).
    { unfold q. destruct e as [|p|p].
      - rewrite bpow_0. split; [lia|lra].
      - split; [lia|]. rewrite mult_IZR, <- bpow_IZR by lia. lra.
      - assert (P : (0 < 2 ^ Zpos p)%Z) by (apply Z.pow_pos_nonneg; lia).
        split; [apply Z.div_pos; lia|].
        assert (Hd := Z_div_mod_eq_full (Zpos m) (2 ^ Zpos p)).
        assert (Hm := Z.mod_pos_bound (Zpos m) (2 ^ Zpos p) P).
        set (q' := (Zpos m / 2 ^ Zpos p)%Z) in *.
        set (r := (Zpos m mod 2 ^ Zpos p)%Z) in *.
        assert (Hb : bpow (Zneg p) * IZR (2 ^ Zpos p) = 1).
        { rewrite <- bpow_IZR by lia. rewrite <- bpow_add.
          replace (Zneg p + Zpos p)%Z with 0%Z by lia. apply bpow_0. }
        assert (Pb := bpow_pos (Zneg p)).
        assert (HR : IZR (Zpos m) = IZR (2 ^ Zpos p) * IZR q' + IZR r).
        { rewrite <- mult_IZR, <- plus_IZR. f_equal. exact Hd. }
        assert (Hr : 0 <= IZR r < IZR (2 ^ Zpos p)).
        { split; [apply IZR_le|apply IZR_lt]; lia. }
        rewrite HR. set (T := IZR (2 ^ Zpos p)) in *. clearbody T.
        set (B := bpow (Zneg p)) in *. clearbody B.
        assert (H1 : 0 <= IZR r * B) by (apply Rmult_le_pos; lra).
        assert (H2 : IZR r * B < T * B) by (apply Rmult_lt_compat_r; lra).
        replace ((T * IZR q' + IZR r) * B) with (IZR q' * (B * T) + IZR r * B) by ring.
        rewrite Hb. lra. }
    clearbody q. destruct Hmag as [Hq Hb].
    intros H. injection H as <-. split; [reflexivity|].
    rewrite F2R_finite. unfold sgn. apply IZR_le in Hq.
    destruct s; cbn [cond_Zopp]; [rewrite opp_IZR|]; split; intros; lra.
Qed.

Lemma to_int_spec f z :
  to_int f = Ok z ->
  trunc f = Some z /\ (INT_MIN <= z <= INT_MAX)%Z.
Proof.
  unfold to_int. destruct (trunc f) as [t|]; [|discriminate].
  intros H. apply int_Ok in H. destruct H as [E R]. subst. auto.
Qed.

(** ** Bounds against representable numbers *)

Lemma rounds_le_float v f g :
  rounds v f -> is_finite f = true ->
  valid g = true -> is_finite g = true ->
  v <= F2R g -> F2R f <= F2R g.
Proof.
  intros Hr Hf Vg Fg [Hlt|He].
  - eapply rounds_mono_finite; eauto. apply rounds_self; assumption.
  - subst v. destruct (rounds_exact g f Vg Fg Hr) as [_ E]. lra.
Qed.

Lemma rounds_ge_float v f g :
  rounds v f -> is_finite f = true ->
  valid g = true -> is_finite g = true ->
  F2R g <= v -> F2R g <= F2R f.
Proof.
  intros Hr Hf Vg Fg [Hlt|He].
  - eapply rounds_mono_finite; eauto. apply rounds_self; assumption.
  - subst v. destruct (rounds_exact g f Vg Fg Hr) as [_ E]. lra.
Qed.

Lemma rounds_nonneg v f :
  rounds v f -> is_finite f = true -> 0 <= v -> 0 <= F2R f.
Proof.
  intros Hr Hf Hv.
  apply (rounds_ge_float v f (S754_zero false) Hr Hf); auto.
Qed.

Lemma rounds_nonpos v f :
  rounds v f -> is_finite f = true -> v <= 0 -> F2R f <= 0.
Proof.
  intros Hr Hf Hv.
  apply (rounds_le_float v f (S754_zero false) Hr Hf); auto.
Qed.

(** Valid finite floats are determined by their value, zeros apart. *)
Lemma F2R_inj f1 f2 :
  valid f1 = true -> valid f2 = true ->
  is_finite f1 = true -> is_finite f2 = true ->
  F2R f1 = F2R f2 -> f1 = f2 \/ (F2R f1 = 0 /\ F2R f2 = 0).
Proof.
  intros V1 V2 F1 F2 E.
  assert (H := SFcompare_finite f1 f2 V1 V2 F1 F2).
  destruct f1 as [s1|s1| |s1 m1 e1]; try discriminate;
    destruct f2 as [s2|s2| |s2 m2 e2]; try discriminate;
    try (right; simpl in *; split; lra).
  left. unfold SFcompare in H.
  assert (Hc := compare_cont_spec m1 m2).
  destruct s1, s2;
    destruct (Z.compare_spec e1 e2) as [Ee|L|G]; try lra;
    destruct (Pos.compare_cont Eq m1 m2); simpl in H, E; try lra;
    subst; reflexivity.
Qed.

Lemma pow2_spec j :
  (-126 <= j <= 127)%Z ->
  valid (pow2 j) = true /\ is_finite (pow2 j) = true /\ F2R (pow2 j) = bpow j.
Proof.
  intros H. split; [|split; [reflexivity|]].
  - unfold valid, pow2, valid_binary, SpecFloat.bounded, canonical_mantissa.
    rewrite fexp_eq. change (Zpos (digits2_pos 8388608)) with 24%Z.
    apply andb_true_intro. split; [apply Z.eqb_eq; lia|apply Z.leb_le; unfold emax, prec; lia].
  - unfold pow2. rewrite F2R_finite. unfold sgn.
    change (IZR (Zpos 8388608)) with (IZR (2 ^ 23)). rewrite <- bpow_IZR by lia.
    rewrite Rmult_1_l, <- bpow_add. f_equal. lia.
Qed.

(** Finiteness of the operands of a finite result. *)
Lemma fadd_finite_inv u v :
  is_finite (fadd u v) = true -> is_finite u = true /\ is_finite v = true.
Proof. destruct u as [|[|]| |], v as [|[|]| |]; simpl; auto; discriminate. Qed.

Lemma fsub_finite_inv u v :
  is_finite (fsub u v) = true -> is_finite u = true /\ is_finite v = true.
Proof. destruct u as [|[|]| |], v as [|[|]| |]; simpl; auto; discriminate. Qed.

Lemma fmul_finite_inv u v :
  is_finite (fmul u v) = true -> is_finite u = true /\ is_finite v = true.
Proof. destruct u as [|[|]| |], v as [|[|]| |]; simpl; auto; discriminate. Qed.

Lemma fdiv_finite_inv u v :
  is_finite (fdiv u v) = true -> is_finite u = true.
Proof. destruct u as [|[|]| |], v as [|[|]| |]; simpl; auto; discriminate. Qed.

Lemma F2R_F2 : F2R F2 = 2.
Proof. unfold F2, F2R, bpow. simpl. lra. Qed.

Lemma F2R_F0_5 : F2R F0_5 = / 2.
Proof. unfold F0_5, F2R, bpow. simpl. lra. Qed.

Lemma F2R_F0_01_pos : 0 < F2R F0_01.
Proof.
  unfold F0_01. rewrite F2R_finite. unfold sgn.
  assert (H := bpow_pos (-30)). assert (0 < IZR (Zpos 10737418)) by (apply IZR_lt; lia).
  nra.
Qed.

Lemma F2R_F1 : F2R F1 = 1.
Proof. unfold F1, F2R, bpow. simpl. lra. Qed.

Lemma finite_nonzero s m e : F2R (S754_finite s m e) <> 0.
Proof.
  rewrite F2R_finite.
  assert (0 < IZR (Zpos m) * bpow e)
    by (apply Rmult_lt_0_compat; [apply IZR_lt; lia|apply bpow_pos]).
  unfold sgn. destruct s; lra.
Qed.

Lemma fdiv_finite_nonneg n d :
  (is_finite n = true -> 0 <= F2R n) ->
  (is_finite d = true -> 0 <= F2R d) ->
  is_finite (fdiv n d) = true ->
  valid (fdiv n d) = true /\ 0 <= F2R (fdiv n d).
Proof.
  intros Hn Hd Hf.
  destruct n as [sn|sn| |sn mn en]; destruct d as [sd|sd| |sd md ed];
    try discriminate; try (split; [reflexivity|simpl; lra]).
  assert (Nz := finite_nonzero sd md ed).
  assert (Hr := fdiv_rounds (S754_finite sn mn en) (S754_finite sd md ed)
                  eq_refl eq_refl Nz).
  split; [exact (rounds_valid _ _ Hr)|].
  apply (rounds_nonneg _ _ Hr Hf).
  specialize (Hn eq_refl). specialize (Hd eq_refl).
  apply Rmult_le_pos; [assumption|]. apply Rlt_le, Rinv_0_lt_compat. lra.
Qed.

Lemma fmul_finite_nonneg u v :
  valid u = true -> valid v = true ->
  (is_finite u = true -> 0 <= F2R u) ->
  (is_finite v = true -> 0 <= F2R v) ->
  is_finite (fmul u v) = true ->
  valid (fmul u v) = true /\ 0 <= F2R (fmul u v).
Proof.
  intros Vu Vv Hu Hv Hf.
  destruct (fmul_finite_inv u v Hf) as [Fu Fv].
  assert (Hr := fmul_rounds u v Vu Vv Fu Fv).
  split; [exact (rounds_valid _ _ Hr)|].
  apply (rounds_nonneg _ _ Hr Hf). apply Rmult_le_pos; auto.
Qed.

Lemma of_int_valid z : valid (of_int z) = true.
Proof. exact (rounds_valid _ _ (of_int_rounds z)). Qed.

Lemma of_int_nonneg z :
  (0 <= z)%Z -> is_finite (of_int z) = true -> 0 <= F2R (of_int z).
Proof.
  intros Hz Hf. apply (rounds_nonneg _ _ (of_int_rounds z) Hf).
  apply IZR_le. assumption.
Qed.

Lemma fgt_zero_pos f :
  valid f = true -> (f >? F0)%f32 = true -> is_finite f = true -> 0 < F2R f.
Proof.
  intros V H F. unfold fgt in H. change (SFltb F0 f) with (flt F0 f) in H.
  apply (flt_spec F0 f eq_refl V eq_refl F) in H. simpl in H. exact H.
Qed.

(** The slab height computed by [project] is a valid nonnegative
    number whenever it is finite. *)
Lemma size_nonneg (xres : Z) (focal cx : float) :
  (0 < xres)%Z -> valid focal = true -> valid cx = true ->
  (focal >? F0)%f32 = true ->
  let size := (F0_5 * focal * of_int xres
               / (if cx <? F0_01 then F0_01 else cx))%f32 in
  is_finite size = true -> valid size = true /\ 0 <= F2R size.
Proof.
  intros Hx Vf Vc Hpos size Hfin.
  apply fdiv_finite_nonneg; [| |exact Hfin].
  - intros Fn.
    apply fmul_finite_nonneg; [| | | |exact Fn].
    + destruct (fmul_finite_inv _ _ Fn) as [F1 _].
      destruct (fmul_finite_inv _ _ F1) as [_ Ff].
      exact (rounds_valid _ _ (fmul_rounds F0_5 focal eq_refl Vf eq_refl Ff)).
    + apply of_int_valid.
    + intros F1. destruct (fmul_finite_inv _ _ F1) as [_ Ff].
      apply (rounds_nonneg _ _ (fmul_rounds F0_5 focal eq_refl Vf eq_refl Ff) F1).
      rewrite F2R_F0_5. assert (H := fgt_zero_pos focal Vf Hpos Ff). lra.
    + intros Fx. apply of_int_nonneg; [lia|assumption].
  - intros Fd. destruct (cx <? F0_01)%f32 eqn:E.
    + apply Rlt_le, F2R_F0_01_pos.
    + assert (H := F2R_F0_01_pos).
      destruct (Rle_or_lt (F2R F0_01) (F2R cx)) as [L|G]; [lra|].
      apply (flt_spec cx F0_01 Vc eq_refl Fd eq_refl) in G. congruence.
Qed.

Lemma trunc_mono f1 f2 z1 z2 :
  trunc f1 = Some z1 -> trunc f2 = Some z2 ->
  F2R f1 <= F2R f2 -> (z1 <= z2)%Z.
Proof.
  intros H1 H2 Hle.
  destruct (trunc_spec _ _ H1) as (_ & P1 & N1).
  destruct (trunc_spec _ _ H2) as (_ & P2 & N2).
  destruct (Rle_or_lt 0 (F2R f1)) as [A|A]; destruct (Rle_or_lt 0 (F2R f2)) as [B|B].
  - specialize (P1 A). specialize (P2 B).
    assert (IZR z1 < IZR z2 + 1) by lra. rewrite <- plus_IZR in H. apply lt_IZR in H. lia.
  - lra.
  - specialize (N1 (Rlt_le _ _ A)). specialize (P2 B).
    assert (Ha : IZR z1 - 1 < 0) by lra. assert (Hb : 0 < IZR z2 + 1) by lra.
    rewrite <- minus_IZR in Ha. rewrite <- plus_IZR in Hb.
    apply lt_IZR in Ha. apply lt_IZR in Hb. lia.
  - specialize (N1 (Rlt_le _ _ A)). specialize (N2 (Rlt_le _ _ B)).
    assert (IZR z1 - 1 < IZR z2) by lra. rewrite <- minus_IZR in H. apply lt_IZR in H. lia.
Qed.

Lemma fdiv_two_mono u v :
  valid u = true -> valid v = true ->
  is_finite u = true -> is_finite v = true ->
  is_finite (fdiv u F2) = true -> is_finite (fdiv v F2) = true ->
  F2R u <= F2R v -> F2R (fdiv u F2) <= F2R (fdiv v F2).
Proof.
  intros Vu Vv Fu Fv Fu2 Fv2 Hle.
  assert (N2 : F2R F2 <> 0) by (rewrite F2R_F2; lra).
  assert (Ru := fdiv_rounds u F2 Fu eq_refl N2).
  assert (Rv := fdiv_rounds v F2 Fv eq_refl N2).
  rewrite F2R_F2 in Ru, Rv.
  destruct Hle as [Hlt|He].
  - apply (rounds_mono_finite _ _ _ _ Ru Rv Fu2 Fv2). lra.
  - destruct (F2R_inj u v Vu Vv Fu Fv He) as [E|[E1 E2]].
    + subst. lra.
    + rewrite E1 in Ru. rewrite E2 in Rv.
      replace (0 / 2) with 0 in Ru, Rv by lra.
      assert (A1 := rounds_nonpos _ _ Ru Fu2 (Rle_refl 0)).
      assert (A2 := rounds_nonneg _ _ Rv Fv2 (Rle_refl 0)). lra.
Qed.

Local Open Scope Z_scope.

(** ** Collision in [move] (C3) *)

Section MoveProperties.
Variables cosf sinf : float -> float.

(** C3: when the tile at the tentative position [where + velocity] is
    nonzero, [move] returns the hero at its old position with the zero
    velocity. *)
Theorem move_collision_stops (hero : Hero) (walling : grid) (key : keys)
  (t : Z) :
  tile (add (where_ hero) (drive cosf sinf hero key)) walling = Ok t ->
  t <> 0 ->
  exists hero',
    move cosf sinf hero walling key = Ok hero'
    /\ where_ hero' = where_ hero
    /\ velocity hero' = {| x := F0; y := F0 |}.
Proof.
  intros Ht Hnz. unfold move. rewrite Ht. simpl.
  destruct (t =? 0) eqn:E; [apply Z.eqb_eq in E; contradiction|].
  eexists; split; [reflexivity|]. split; reflexivity.
Qed.
End MoveProperties.

Lemma move_collision_stops_witness :
  exists hero',
    move (fun _ => F1) (fun _ => F0) runner (walling build) no_keys = Ok hero'
    /\ where_ hero' = where_ runner
    /\ velocity hero' = {| x := F0; y := F0 |}.
Proof.
  apply (move_collision_stops (fun _ => F1) (fun _ => F0) runner
           (walling build) no_keys 3).
  - vm_compute. reflexivity.
  - discriminate.
Defined.

(** ** The nudge of [cast] (C2) *)

(** C2, refuted as stated: on the crossing (4, 3.625), whose x is on a
    grid line and whose y is not, [cast] nudges along x, not along y. *)
Lemma cast_nudge_counterexample :
  sh (where_ born) shallow = Ok crossing
  /\ (exists v, sv (where_ born) shallow = Ok v
               /\ cmp (where_ born) crossing v = crossing)
  /\ on_line (x crossing) = true
  /\ on_line (y crossing) = false
  /\ nudge crossing shallow = Ok (nudge_dx shallow)
  /\ nudge crossing shallow <> Ok (nudge_dy shallow).
Proof.
  split; [vm_compute; reflexivity|].
  split; [eexists; split; [vm_compute; reflexivity | vm_compute; reflexivity]|].
  repeat split; try (vm_compute; reflexivity).
  vm_compute. discriminate.
Qed.

(** C2, amended: with both coordinates of the crossing convertible to
    [int], the nudge is the scaled direction when both lie on grid lines,
    along x when x lies on one and y does not, and along y when x lies on
    none. *)
Theorem cast_nudge_by_axis (ray direction : Point) (rx ry : float) :
  dec (x ray) = Ok rx -> dec (y ray) = Ok ry ->
  (on_line (x ray) = true -> on_line (y ray) = true ->
   nudge ray direction = Ok (nudge_delta direction))
  /\ (on_line (x ray) = true -> on_line (y ray) = false ->
      nudge ray direction = Ok (nudge_dx direction))
  /\ (on_line (x ray) = false ->
      nudge ray direction = Ok (nudge_dy direction)).
Proof.
  intros Hx Hy. unfold on_line, nudge. rewrite Hx, Hy.
  repeat split; intros H1; try intros H2; simpl; rewrite H1; simpl;
    try rewrite Hy; simpl; try rewrite H2; reflexivity.
Qed.

Lemma cast_nudge_by_axis_witness :
  (on_line (x crossing) = true -> on_line (y crossing) = true ->
   nudge crossing shallow = Ok (nudge_delta shallow))
  /\ (on_line (x crossing) = true -> on_line (y crossing) = false ->
      nudge crossing shallow = Ok (nudge_dx shallow))
  /\ (on_line (x crossing) = false ->
      nudge crossing shallow = Ok (nudge_dy shallow)).
Proof.
  apply (cast_nudge_by_axis crossing shallow
           F0 (S754_finite false 10485760 (-24)));
    vm_compute; reflexivity.
Defined.

(** ** The projection (C4) *)

Lemma fdiv_nan_r (u : float) : fdiv u S754_nan = S754_nan.
Proof. now destruct u. Qed.

Lemma fadd_nan_r (u : float) : fadd u S754_nan = S754_nan.
Proof. now destruct u. Qed.

Lemma fmaxf_select (u : float) :
  is_nan u = false ->
  fmaxf u F0_01 = if (u <? F0_01)%f32 then F0_01 else u.
Proof. intros H. unfold fmaxf. rewrite H. reflexivity. Qed.

(** C4: [project] returns a wall exactly when [corrected.x] is a number
    and the formula of the specification yields that wall:
    size = 0.5 * focal * xres / max(corrected.x, 1e-2),
    top = (yres + size) / 2 capped at yres, bot = (yres - size) / 2
    raised to 0. *)
Theorem project_meets_spec (xres yres : Z) (fov : Line) (corrected : Point)
  (w : Wall) :
  project xres yres fov corrected = Ok w
  <-> is_nan (x corrected) = false
      /\ project_spec xres yres fov corrected = Ok w.
Proof.
  assert (Hsame : is_nan (x corrected) = false ->
                  project xres yres fov corrected
                  = project_spec xres yres fov corrected).
  { intros Hn. unfold project, project_spec. rewrite (fmaxf_select _ Hn).
    destruct (to_int _) as [t| |]; simpl; try reflexivity.
    destruct (to_int _) as [b| |]; simpl; try reflexivity.
    f_equal. f_equal.
    - rewrite Z.gtb_ltb. destruct (yres <? t) eqn:E.
      + apply Z.ltb_lt in E. lia.
      + apply Z.ltb_ge in E. lia.
    - destruct (b <? 0) eqn:E.
      + apply Z.ltb_lt in E. lia.
      + apply Z.ltb_ge in E. lia. }
  split.
  - intros H. destruct (is_nan (x corrected)) eqn:Hn.
    + exfalso. destruct (x corrected) eqn:Hx; try discriminate.
      unfold project in H. rewrite Hx in H. simpl in H.
      rewrite fdiv_nan_r, fadd_nan_r in H. discriminate.
    + split; [reflexivity|]. now rewrite <- Hsame.
  - intros [Hn H]. now rewrite Hsame.
Qed.

(** ** The ceiling loop of [render] (C6) *)

(** C6, on a 4x2 display: the ray cast east from the start position
    hits the wall, whose slab starts at row 1; the ceiling loop of the
    last column then runs to row 3 and writes past the eight pixels of
    the display at row 2, while in column 0 it writes the rows 2 and 3 into
    the pixels of column 1. *)
Lemma render_ceiling_overrun :
  exists hit wall,
    cast 32 (where_ born) east (walling build) = Ok hit
    /\ project (xres gpu42) (yres gpu42) (fov born)
         (sub (h_where hit) (where_ born)) = Ok wall
    /\ top wall = 1
    /\ render_ceiling build gpu42 3 wall
         {| a := where_ born; b := h_where hit |} black42 = Undef
    /\ render_ceiling build gpu42 0 wall
         {| a := where_ born; b := h_where hit |} black42
       = Ok {| pixels := [0; 43520; 43520; 43520; 0; 0; 0; 0]; width := 2 |}.
Proof.
  eexists. eexists.
  split; [vm_compute; reflexivity|].
  split; [vm_compute; reflexivity|].
  split; [reflexivity|].
  split; vm_compute; reflexivity.
Qed.

(** ** Linear interpolation (C8) *)

(** C8, refuted as stated: on the line from (33554432, 0) to (1, 0) the
    difference [b - a] rounds to -33554432, and [lerp] at 1 is (0, 0). *)
Lemma lerp_one_counterexample :
  lerp far_line F1 = {| x := F0; y := F0 |}
  /\ peq (lerp far_line F1) (b far_line) = false.
Proof. split; vm_compute; reflexivity. Qed.

(** ** Division by zero in [slope] (C9) *)

Lemma tbind_result {A B : Type} (m : traced A) (k : A -> traced B) :
  snd (tbind m k) = bind (snd m) (fun a => snd (k a)).
Proof. unfold tbind, bind. destruct (snd m); reflexivity. Qed.

Lemma tbind_calls {A B : Type} (m : traced A) (k : A -> traced B) p :
  In p (fst (tbind m k)) ->
  In p (fst m) \/ exists a, snd m = Ok a /\ In p (fst (k a)).
Proof.
  unfold tbind. destruct (snd m) as [a| |]; cbn [fst]; auto.
  intros H. apply in_app_or in H. destruct H as [H|H]; [left; exact H|].
  right. exists a. split; [reflexivity|exact H].
Qed.

(** The runs compute what [sh] and [sv] compute. *)
Lemma sh_traced_result a b : snd (sh_traced a b) = sh a b.
Proof.
  unfold sh_traced, sh. rewrite tbind_result. cbn [quiet snd].
  destruct (if (x b >? F0)%f32 then fl (x a + F1)%f32 else cl (x a - F1)%f32);
    reflexivity.
Qed.

Lemma sv_traced_result a b : snd (sv_traced a b) = sv a b.
Proof.
  unfold sv_traced, sv. rewrite tbind_result. cbn [quiet snd].
  destruct (if (y b >? F0)%f32 then fl (y a + F1)%f32 else cl (y a - F1)%f32);
    reflexivity.
Qed.

(** [sh] and [sv] call [slope] once, on their second argument, as soon as
    their grid line is computed. *)
Lemma sh_traced_calls a b :
  fst (sh_traced a b) = match sh a b with Ok _ => [b] | _ => [] end.
Proof.
  unfold sh_traced, sh, tbind. cbn [quiet snd fst].
  destruct (if (x b >? F0)%f32 then fl (x a + F1)%f32 else cl (x a - F1)%f32);
    reflexivity.
Qed.

Lemma sv_traced_calls a b :
  fst (sv_traced a b) = match sv a b with Ok _ => [b] | _ => [] end.
Proof.
  unfold sv_traced, sv, tbind. cbn [quiet snd fst].
  destruct (if (y b >? F0)%f32 then fl (y a + F1)%f32 else cl (y a - F1)%f32);
    reflexivity.
Qed.

Lemma cast_traced_result fuel : forall w d g,
  snd (cast_traced fuel w d g) = cast fuel w d g.
Proof.
  induction fuel as [|fuel IH]; intros w d g; [reflexivity|].
  cbn [cast_traced cast].
  rewrite tbind_result, sh_traced_result.
  destruct (sh w d) as [h| |]; cbn [bind]; try reflexivity.
  rewrite tbind_result, sv_traced_result.
  destruct (sv w d) as [v| |]; cbn [bind]; try reflexivity.
  rewrite tbind_result. cbn [quiet snd].
  destruct (nudge (cmp w h v) d) as [n| |]; cbn [bind]; try reflexivity.
  rewrite tbind_result. cbn [quiet snd].
  destruct (tile (add (cmp w h v) n) g) as [t| |]; cbn [bind]; try reflexivity.
  destruct (t =? 0); [apply IH|reflexivity].
Qed.

Lemma cast_traced_calls fuel : forall w d g p,
  In p (fst (cast_traced fuel w d g)) -> p = d.
Proof.
  induction fuel as [|fuel IH]; intros w d g p H; [contradiction|].
  cbn [cast_traced] in H.
  apply tbind_calls in H. destruct H as [H|(h & _ & H)].
  { rewrite sh_traced_calls in H. destruct (sh w d); cbn [In] in H; intuition. }
  apply tbind_calls in H. destruct H as [H|(v & _ & H)].
  { rewrite sv_traced_calls in H. destruct (sv w d); cbn [In] in H; intuition. }
  apply tbind_calls in H. destruct H as [H|(n & _ & H)]; [contradiction|].
  apply tbind_calls in H. destruct H as [H|(t & _ & H)]; [contradiction|].
  destruct (t =? 0); [exact (IH _ _ _ _ H)|contradiction].
Qed.

Lemma cast_traced_first fuel w d g h :
  sh w d = Ok h -> In d (fst (cast_traced (S fuel) w d g)).
Proof.
  intros E. cbn [cast_traced]. unfold tbind at 1.
  assert (R := sh_traced_result w d). assert (C := sh_traced_calls w d).
  rewrite E in R, C. rewrite R, C. cbn [fst]. left. reflexivity.
Qed.

(** C9, refuted as stated: the cast due north from the start position,
    along the axis-aligned direction (0, 1), evaluates [slope] on that
    direction first of all; the denominator of the division is zero, the
    quotient is +infinity, and the cast goes on to return a hit. *)
Lemma slope_zero_denominator_counterexample :
  zero_denominator north = true
  /\ hd_error (fst (cast_traced 32 (where_ born) north (walling build)))
     = Some north
  /\ existsb zero_denominator
       (fst (cast_traced 32 (where_ born) north (walling build))) = true
  /\ slope north = S754_infinity false
  /\ exists hit, cast 32 (where_ born) north (walling build) = Ok hit.
Proof.
  split; [reflexivity|].
  split; [vm_compute; reflexivity|].
  split; [vm_compute; reflexivity|].
  split; [reflexivity|]. eexists. vm_compute. reflexivity.
Qed.

(** C9, amended: the run of [cast] that records the calls of [slope]
    returns what [cast] returns; every evaluation of [slope] during
    [cast] is on the direction of the cast, and there is one as soon as
    the grid line of [sh] is computed.  So the denominator of an
    evaluation is zero exactly when [direction.x == 0.0f]: along a
    direction with [direction.x != 0.0f], a horizontal one included, no
    evaluation of [slope] divides by zero; along a vertical direction
    every one does. *)
Theorem cast_slope_calls (fuel : nat) (w d : Point) (g : grid) :
  snd (cast_traced fuel w d g) = cast fuel w d g
  /\ (forall p, In p (fst (cast_traced fuel w d g)) -> p = d)
  /\ (forall h, sh w d = Ok h -> fuel <> O ->
                In d (fst (cast_traced fuel w d g)))
  /\ (zero_denominator d = false ->
      existsb zero_denominator (fst (cast_traced fuel w d g)) = false)
  /\ (zero_denominator d = true ->
      forallb zero_denominator (fst (cast_traced fuel w d g)) = true).
Proof.
  split; [apply cast_traced_result|].
  split; [apply cast_traced_calls|].
  split.
  { intros h E Hf. destruct fuel as [|fuel]; [contradiction|].
    exact (cast_traced_first fuel w d g h E). }
  split.
  - intros Z. destruct (existsb _ _) eqn:E; [|reflexivity].
    apply existsb_exists in E. destruct E as (p & Hin & Hp).
    rewrite (cast_traced_calls _ _ _ _ _ Hin) in Hp. congruence.
  - intros Z. apply forallb_forall. intros p Hin.
    rewrite (cast_traced_calls _ _ _ _ _ Hin). exact Z.
Qed.

Local Open Scope R_scope.

(** ** The rows of a wall (C10) *)

(** C10: for a display height [yres] that is an [int] and not negative, a
    positive [xres] and a focal length [fov.a.x > 0], the wall [project]
    returns has [0 <= bot <= top <= yres]: the floor rows [0, bot), the
    wall rows [bot, top) and the ceiling rows from [top] on follow each
    other without overlap.  ([project] returns wherever its two
    conversions to [int] are defined.) *)
Theorem project_rows_ordered (xres yres : Z) (fov : Line) (corrected : Point)
  (w : Wall) :
  (0 <= yres <= INT_MAX)%Z -> (0 < xres)%Z ->
  valid (x (a fov)) = true -> valid (x corrected) = true ->
  (x (a fov) >? F0)%f32 = true ->
  project xres yres fov corrected = Ok w ->
  (0 <= bot w <= top w /\ top w <= yres)%Z.
Proof.
  intros Hy Hx Vf Vc Hpos Hp. unfold project in Hp.
  set (S := (F0_5 * x (a fov) * of_int xres
             / (if x corrected <? F0_01 then F0_01 else x corrected))%f32) in *.
  apply bind_Ok in Hp. destruct Hp as (t & Ht & Hp).
  apply bind_Ok in Hp. destruct Hp as (bt & Hb & Hp).
  injection Hp as <-. cbn [top bot].
  apply to_int_spec in Ht. destruct Ht as [Ht _].
  apply to_int_spec in Hb. destruct Hb as [Hb _].
  destruct (trunc_spec _ _ Ht) as (FA2 & PA & NA).
  destruct (trunc_spec _ _ Hb) as (FB2 & PB & NB).
  assert (FA := fdiv_finite_inv _ _ FA2). assert (FB := fdiv_finite_inv _ _ FB2).
  destruct (fadd_finite_inv _ _ FA) as [FY FS].
  destruct (size_nonneg xres (x (a fov)) (x corrected) Hx Vf Vc Hpos FS) as [VS HS].
  fold S in VS, HS.
  assert (VY := of_int_valid yres).
  assert (HY := of_int_nonneg yres (proj1 Hy) FY).
  assert (RA := fadd_rounds _ _ VY VS FY FS).
  assert (RB := fsub_rounds _ _ VY VS FY FS).
  assert (VA := rounds_valid _ _ RA). assert (VB := rounds_valid _ _ RB).
  assert (Hya : F2R (of_int yres) <= F2R (of_int yres + S)%f32).
  { apply (rounds_ge_float _ _ _ RA FA VY FY). lra. }
  assert (Hby : F2R (of_int yres - S)%f32 <= F2R (of_int yres)).
  { apply (rounds_le_float _ _ _ RB FB VY FY). lra. }
  assert (N2 : F2R F2 <> 0) by (rewrite F2R_F2; lra).
  assert (RA2 := fdiv_rounds _ F2 FA eq_refl N2).
  assert (RB2 := fdiv_rounds _ F2 FB eq_refl N2).
  rewrite F2R_F2 in RA2, RB2.
  (* the two raw rows are ordered *)
  assert (Hbt : (bt <= t)%Z).
  { apply (trunc_mono _ _ _ _ Hb Ht).
    apply fdiv_two_mono; auto. lra. }
  (* the upper raw row is not negative *)
  assert (Ht0 : (0 <= t)%Z).
  { assert (0 <= F2R ((of_int yres + S) / F2)%f32).
    { apply (rounds_nonneg _ _ RA2 FA2). lra. }
    specialize (PA H). assert (0 < IZR t + 1) by lra.
    rewrite <- plus_IZR in H0. apply lt_IZR in H0. lia. }
  (* the lower raw row is at most yres *)
  assert (Hby2 : (bt <= yres)%Z).
  { destruct (Rle_or_lt (F2R ((of_int yres - S) / F2)%f32) 0) as [Neg|Pos].
    - specialize (NB Neg). assert (IZR bt - 1 < 0) by lra.
      rewrite <- minus_IZR in H. apply lt_IZR in H. lia.
    - specialize (PB (Rlt_le _ _ Pos)).
      destruct (Z.eq_dec yres 0) as [E0|N0].
      + exfalso. subst yres. change (F2R (of_int 0)) with 0 in *.
        assert (F2R ((of_int 0 - S) / F2)%f32 <= 0).
        { apply (rounds_nonpos _ _ RB2 FB2). lra. }
        lra.
      + assert (Hpos' : (0 < yres)%Z) by lia.
        destruct (Z.log2_spec yres Hpos') as [L1 L2].
        assert (Hj0 := Z.log2_nonneg yres).
        assert (Hj : (Z.log2 yres < 31)%Z).
        { apply Z.log2_lt_pow2; [assumption|]. unfold INT_MAX in Hy. lia. }
        set (j := Z.log2 yres) in *.
        destruct (pow2_spec (j + 1) ltac:(lia)) as (V1 & F1' & E1).
        destruct (pow2_spec j ltac:(lia)) as (V0 & F0' & E0).
        assert (Hyb : F2R (of_int yres) <= bpow (j + 1)).
        { rewrite <- E1. apply (rounds_le_float _ _ _ (of_int_rounds yres) FY V1 F1').
          rewrite E1, bpow_IZR by lia. apply IZR_le.
          replace (j + 1)%Z with (Z.succ j) by lia. lia. }
        assert (HB2 : F2R ((of_int yres - S) / F2)%f32 <= bpow j).
        { rewrite <- E0. apply (rounds_le_float _ _ _ RB2 FB2 V0 F0').
          rewrite E0. rewrite bpow_succ in Hyb. lra. }
        rewrite bpow_IZR in HB2 by lia.
        assert (IZR bt <= IZR yres).
        { apply Rle_trans with (IZR (2 ^ j)); [lra|]. apply IZR_le. assumption. }
        apply le_IZR. assumption. }
  rewrite Z.gtb_ltb.
  destruct (yres <? t)%Z eqn:E1; destruct (bt <? 0)%Z eqn:E2;
    try apply Z.ltb_lt in E1; try apply Z.ltb_ge in E1;
    try apply Z.ltb_lt in E2; try apply Z.ltb_ge in E2; lia.
Qed.

(** The claim at the display of [main], one unit from a wall. *)
Lemma project_rows_ordered_witness :
  (0 <= bot east_wall <= top east_wall /\ top east_wall <= 500)%Z.
Proof.
  apply (project_rows_ordered 500 500 (viewport F1) east east_wall);
    vm_compute; try reflexivity; split; discriminate.
Defined.

(** ** The slab height against the distance (C7) *)

(** C7, refuted as stated: the distances 0.001f < 0.002f are both below
    the clamp of [project] and give the same wall, and so do the
    neighbouring distances [mid1 < mid2] above the clamp, whose quotients
    round to the same binary32 value. *)
Lemma project_size_plateau_counterexample :
  (x near1 <? x near2)%f32 = true
  /\ project 500 500 (viewport F1) near1 = Ok clamped_wall
  /\ project 500 500 (viewport F1) near2 = Ok clamped_wall
  /\ (x mid1 <? x mid2)%f32 = true
  /\ (x mid1 <? F0_01)%f32 = false
  /\ project 500 500 (viewport F1) mid1 = Ok mid_wall
  /\ project 500 500 (viewport F1) mid2 = Ok mid_wall
  /\ (size clamped_wall >? size clamped_wall)%f32 = false
  /\ (size mid_wall >? size mid_wall)%f32 = false.
Proof. repeat split; vm_compute; reflexivity. Qed.

Lemma project_size (xres yres : Z) (fov : Line) (corrected : Point) (w : Wall) :
  project xres yres fov corrected = Ok w ->
  size w = slab xres (x (a fov)) (x corrected).
Proof.
  unfold project. intros H.
  apply bind_Ok in H. destruct H as (t & _ & H).
  apply bind_Ok in H. destruct H as (bt & _ & H).
  injection H as <-. reflexivity.
Qed.

Lemma fle_refl f : is_nan f = false -> fle f f.
Proof. destruct f as [s|[|]| |s m e]; simpl; try discriminate; auto; lra. Qed.

Lemma fle_fleb f1 f2 :
  valid f1 = true -> valid f2 = true -> fle f1 f2 -> fleb f1 f2 = true.
Proof.
  intros V1 V2 H. unfold fleb, SFleb.
  destruct (is_finite f1) eqn:F1; destruct (is_finite f2) eqn:F2.
  - assert (C := SFcompare_finite f1 f2 V1 V2 F1 F2).
    apply (fle_finite f1 f2 F1 F2) in H.
    destruct (SFcompare f1 f2) as [[| |]|]; try reflexivity; try contradiction. lra.
  - destruct f1 as [s1|s1| |s1 m1 e1]; try discriminate;
      destruct f2 as [s2|[|]| |s2 m2 e2]; try discriminate; simpl in *;
      try contradiction; try reflexivity; destruct s1; reflexivity.
  - destruct f2 as [s2|s2| |s2 m2 e2]; try discriminate;
      destruct f1 as [s1|[|]| |s1 m1 e1]; try discriminate; simpl in *;
      try contradiction; try reflexivity; destruct s2; reflexivity.
  - destruct f1 as [s1|[|]| |s1 m1 e1]; try discriminate;
      destruct f2 as [s2|[|]| |s2 m2 e2]; try discriminate; simpl in *;
      try contradiction; reflexivity.
Qed.

Lemma fdiv_antitone n u v :
  valid n = true -> is_finite n = true -> 0 <= F2R n ->
  valid u = true -> valid v = true ->
  is_finite u = true -> is_finite v = true ->
  0 < F2R u -> F2R u <= F2R v ->
  fle (fdiv n v) (fdiv n u).
Proof.
  intros Vn Fn Hn Vu Vv Fu Fv Hu Huv.
  assert (Ru := fdiv_rounds n u Fn Fu ltac:(lra)).
  assert (Rv := fdiv_rounds n v Fn Fv ltac:(lra)).
  destruct Huv as [Hlt|Heq].
  - destruct Hn as [Hpos|Hz].
    + apply (rounds_mono _ _ _ _ Rv Ru).
      unfold Rdiv. apply Rmult_lt_compat_l; [assumption|].
      apply Rinv_lt_contravar; [|assumption]. apply Rmult_lt_0_compat; lra.
    + destruct n as [sn|sn| |sn mn en]; try discriminate.
      * destruct u as [su|su| |su mu eu]; try discriminate; [simpl in Hu; lra|].
        destruct v as [sv|sv| |sv mv ev]; try discriminate; [simpl in Hlt, Hu; lra|].
        simpl. lra.
      * exfalso. apply (finite_nonzero sn mn en). auto.
  - destruct (F2R_inj u v Vu Vv Fu Fv Heq) as [E|[E _]]; [|lra].
    subst v. apply fle_refl. exact (rounds_not_nan _ _ Ru).
Qed.

Lemma flt_not_nan u v : (u <? v)%f32 = true -> is_nan u = false /\ is_nan v = false.
Proof. destruct u, v; simpl; auto; discriminate. Qed.

Lemma flt_trans u v w :
  valid u = true -> valid v = true -> valid w = true ->
  (u <? v)%f32 = true -> (v <? w)%f32 = true -> (u <? w)%f32 = true.
Proof.
  intros Vu Vv Vw H1 H2.
  destruct (is_finite u) eqn:Fu; destruct (is_finite v) eqn:Fv;
    destruct (is_finite w) eqn:Fw.
  - apply (flt_spec u v Vu Vv Fu Fv) in H1. apply (flt_spec v w Vv Vw Fv Fw) in H2.
    apply (flt_spec u w Vu Vw Fu Fw). lra.
  - destruct w as [|[|]| |]; try discriminate;
      destruct v as [|[|]| |]; try discriminate;
      destruct u as [|[|]| |]; try discriminate; reflexivity.
  - destruct v as [|[|]| |]; try discriminate;
      destruct w as [|[|]| |]; try discriminate;
      destruct u as [|[|]| |]; try discriminate.
  - destruct v as [|[|]| |]; try discriminate;
      destruct w as [|[|]| |]; try discriminate;
      destruct u as [|[|]| |]; try discriminate.
  - destruct u as [|[|]| |]; try discriminate;
      destruct v as [|[|]| |]; try discriminate;
      destruct w as [|[|]| |]; try discriminate; reflexivity.
  - destruct u as [|[|]| |]; try discriminate;
      destruct v as [|[|]| |]; try discriminate;
      destruct w as [|[|]| |]; try discriminate; reflexivity.
  - destruct u as [|[|]| |]; try discriminate;
      destruct v as [|[|]| |]; try discriminate;
      destruct w as [|[|]| |]; try discriminate; reflexivity.
  - destruct u as [|[|]| |]; try discriminate;
      destruct v as [|[|]| |]; try discriminate;
      destruct w as [|[|]| |]; try discriminate; reflexivity.
Qed.

(** The numerator [0.5f * focal * xres] of the slab height. *)
Lemma numerator_nonneg (xres : Z) (focal : float) :
  (0 < xres)%Z -> valid focal = true -> (focal >? F0)%f32 = true ->
  is_finite (F0_5 * focal * of_int xres)%f32 = true ->
  valid (F0_5 * focal * of_int xres)%f32 = true
  /\ 0 <= F2R (F0_5 * focal * of_int xres)%f32.
Proof.
  intros Hx Vf Hpos Fn.
  apply fmul_finite_nonneg; [| | | |exact Fn].
  - destruct (fmul_finite_inv _ _ Fn) as [F1 _].
    destruct (fmul_finite_inv _ _ F1) as [_ Ff].
    exact (rounds_valid _ _ (fmul_rounds F0_5 focal eq_refl Vf eq_refl Ff)).
  - apply of_int_valid.
  - intros F1. destruct (fmul_finite_inv _ _ F1) as [_ Ff].
    apply (rounds_nonneg _ _ (fmul_rounds F0_5 focal eq_refl Vf eq_refl Ff) F1).
    rewrite F2R_F0_5. assert (H := fgt_zero_pos focal Vf Hpos Ff). lra.
  - intros Fx. apply of_int_nonneg; [lia|assumption].
Qed.

(** The denominator of the slab height: [0.01f] or more. *)
Lemma clamp_cases (d : float) :
  valid d = true -> is_nan d = false ->
  let c := if (d <? F0_01)%f32 then F0_01 else d in
  valid c = true
  /\ ((is_finite c = true /\ F2R F0_01 <= F2R c) \/ c = S754_infinity false).
Proof.
  intros Vd Nd c. unfold c. destruct (d <? F0_01)%f32 eqn:E.
  - split; [reflexivity|]. left. split; [reflexivity|lra].
  - split; [assumption|].
    destruct d as [s|[|]| |s m e]; try discriminate; auto; left;
      (split; [reflexivity|]);
      match goal with |- _ <= F2R ?f =>
        destruct (Rle_or_lt (F2R F0_01) (F2R f)) as [L|G]; [exact L|];
        apply (flt_spec f F0_01 Vd eq_refl eq_refl eq_refl) in G; congruence
      end.
Qed.

Lemma fle_zero_rounds v f s : rounds v f -> 0 <= v -> fle (S754_zero s) f.
Proof.
  intros Hr Hv. assert (HT := Tov_pos).
  destruct f as [s'|[|]| |s' m e]; simpl in *; try contradiction; auto.
  - lra.
  - lra.
  - apply (rounds_nonneg v (S754_finite s' m e) Hr eq_refl Hv).
Qed.

Lemma slab_non_increasing (xres : Z) (focal d1 d2 : float) :
  (0 < xres)%Z ->
  valid focal = true -> valid d1 = true -> valid d2 = true ->
  (focal >? F0)%f32 = true ->
  is_finite (F0_5 * focal * of_int xres)%f32 = true ->
  (d1 <? d2)%f32 = true ->
  fleb (slab xres focal d2) (slab xres focal d1) = true
  /\ ((d2 <? F0_01)%f32 = true -> slab xres focal d1 = slab xres focal d2).
Proof.
  intros Hx Vf V1 V2 Hpos Fn Hlt.
  destruct (numerator_nonneg xres focal Hx Vf Hpos Fn) as [Vn Hn].
  destruct (flt_not_nan _ _ Hlt) as [N1 N2].
  assert (Hc := F2R_F0_01_pos).
  split.
  - unfold slab. set (n := (F0_5 * focal * of_int xres)%f32) in *.
    destruct (clamp_cases d1 V1 N1) as [Vc1 C1].
    destruct (clamp_cases d2 V2 N2) as [Vc2 C2].
    set (c1 := if (d1 <? F0_01)%f32 then F0_01 else d1) in *.
    set (c2 := if (d2 <? F0_01)%f32 then F0_01 else d2) in *.
    assert (Fc1 : is_finite c1 = true /\ F2R F0_01 <= F2R c1).
    { destruct C1 as [C1|C1]; [exact C1|exfalso].
      unfold c1 in C1. destruct (d1 <? F0_01)%f32; [discriminate|].
      subst d1. destruct d2 as [|[|]| |]; discriminate. }
    destruct Fc1 as [Fc1 Lc1].
    assert (R1 := fdiv_rounds n c1 Fn Fc1 ltac:(lra)).
    assert (Hq : 0 <= F2R n / F2R c1).
    { apply Rmult_le_pos; [assumption|]. apply Rlt_le, Rinv_0_lt_compat. lra. }
    destruct C2 as [[Fc2 Lc2]|Einf].
    + assert (R2 := fdiv_rounds n c2 Fn Fc2 ltac:(lra)).
      apply fle_fleb; [exact (rounds_valid _ _ R2)|exact (rounds_valid _ _ R1)|].
      apply fdiv_antitone; auto; [lra|].
      (* the clamped distances are ordered *)
      unfold c1, c2 in *.
      destruct (d1 <? F0_01)%f32 eqn:E1; destruct (d2 <? F0_01)%f32 eqn:E2; try lra.
      * exfalso. assert (T := flt_trans d1 d2 F0_01 V1 V2 eq_refl Hlt E2). congruence.
      * apply (flt_spec d1 d2 V1 V2 Fc1 Fc2) in Hlt. lra.
    + rewrite Einf.
      assert (Ez : exists s, fdiv n (S754_infinity false) = S754_zero s).
      { destruct n as [sn|sn| |sn mn en]; try discriminate; eexists; reflexivity. }
      destruct Ez as [s Ez]. rewrite Ez.
      apply fle_fleb; [reflexivity|exact (rounds_valid _ _ R1)|].
      apply (fle_zero_rounds _ _ s R1 Hq).
  - intros E2. unfold slab.
    rewrite (flt_trans d1 d2 F0_01 V1 V2 eq_refl Hlt E2), E2. reflexivity.
Qed.

Lemma project_size_finite (xres yres : Z) (fov : Line) (corrected : Point)
  (w : Wall) :
  project xres yres fov corrected = Ok w ->
  is_finite (F0_5 * x (a fov) * of_int xres)%f32 = true.
Proof.
  unfold project. intros H.
  apply bind_Ok in H. destruct H as (t & Ht & _).
  apply to_int_spec in Ht. destruct Ht as [Ht _].
  destruct (trunc_spec _ _ Ht) as (F2' & _).
  assert (FA := fdiv_finite_inv _ _ F2').
  destruct (fadd_finite_inv _ _ FA) as [_ FS].
  exact (fdiv_finite_inv _ _ FS).
Qed.

(** ** The ends of [lerp] (C8) *)

Lemma lerp_coordinate_zero (u d : float) :
  is_finite u = true -> is_finite d = true ->
  feq (u + d * F0)%f32 u = true.
Proof.
  intros Fu Fd.
  destruct d as [sd|sd| |sd md ed]; try discriminate;
    destruct u as [su|su| |su mu eu]; try discriminate;
    try (destruct su, sd; reflexivity);
    apply (feq_refl_finite (S754_finite su mu eu)); reflexivity.
Qed.

Lemma lerp_coordinate_one (u v : float) :
  valid u = true -> valid v = true ->
  is_finite u = true -> is_finite (v - u)%f32 = true ->
  exact_sub v u ->
  feq (u + (v - u) * F1)%f32 v = true.
Proof.
  intros Vu Vv Fu Fd Hex. unfold exact_sub in Hex.
  destruct (fsub_finite_inv _ _ Fd) as [Fv _].
  assert (Rd := fsub_rounds v u Vv Vu Fv Fu).
  assert (Vd := rounds_valid _ _ Rd).
  assert (Rp := fmul_rounds _ F1 Vd eq_refl Fd eq_refl).
  rewrite F2R_F1, Rmult_1_r in Rp.
  destruct (rounds_exact _ _ Vd Fd Rp) as [Fp Ep].
  assert (Vp := rounds_valid _ _ Rp).
  assert (Rs := fadd_rounds u _ Vu Vp Fu Fp).
  rewrite Ep, Hex in Rs.
  replace (F2R u + (F2R v - F2R u)) with (F2R v) in Rs by lra.
  destruct (rounds_exact _ _ Vv Fv Rs) as [Fs Es].
  apply feq_spec; auto. exact (rounds_valid _ _ Rs).
Qed.

(** C8, amended: on a line whose ends have finite coordinates and whose
    coordinate differences [b - a] are finite, [lerp] at 0 compares equal
    to [a]; where moreover both differences are exact, [lerp] at 1
    compares equal to [b]. *)
Theorem lerp_ends (l : Line) :
  pvalid (a l) = true -> pvalid (b l) = true ->
  pfinite (a l) = true -> pfinite (sub (b l) (a l)) = true ->
  peq (lerp l F0) (a l) = true
  /\ (exact_sub (x (b l)) (x (a l)) -> exact_sub (y (b l)) (y (a l)) ->
      peq (lerp l F1) (b l) = true).
Proof.
  unfold pvalid, pfinite, peq, lerp, add, mul, sub. cbn [x y].
  intros Va Vb Fa Fd.
  apply andb_prop in Va, Vb, Fa, Fd.
  destruct Va as [Vax Vay], Vb as [Vbx Vby], Fa as [Fax Fay], Fd as [Fdx Fdy].
  split.
  - apply andb_true_intro. split; apply lerp_coordinate_zero; assumption.
  - intros Ex Ey. apply andb_true_intro.
    split; apply lerp_coordinate_one; assumption.
Qed.

(** The amended claim on the line from (1, 0) to (2, 1). *)
Lemma lerp_ends_witness :
  peq (lerp short_line F0) (a short_line) = true
  /\ peq (lerp short_line F1) (b short_line) = true.
Proof.
  destruct (lerp_ends short_line) as [H0 H1]; try (vm_compute; reflexivity).
  split; [exact H0|]. apply H1; unfold exact_sub; cbn [short_line a b x y].
  - replace (F2 - F1)%f32 with F1 by (vm_compute; reflexivity).
    rewrite F2R_F2, F2R_F1. lra.
  - replace (F1 - F0)%f32 with F1 by (vm_compute; reflexivity).
    rewrite F2R_F1. simpl. lra.
Defined.

(** * Tools for the grid steps *)

(** ** The square root rounds correctly *)

Lemma sqrt_core_spec m e :
  let '(q, e', l) := SFsqrt_core_binary prec emax (Zpos m) e in
  (0 <= q)%Z
  /\ (exists w, inbetween w q l /\ w * bpow e' = sqrt (IZR (Zpos m) * bpow e))
  /\ (e' <= fexp prec emax (Zdigits2 q + e'))%Z.
Proof.
  unfold SFsqrt_core_binary.
  destruct (digits2_bounds m) as [A1 _].
  change (Zdigits2 (Zpos m)) with (Zpos (digits2_pos m)).
  assert (Hd : (0 < Zpos (digits2_pos m))%Z) by lia.
  generalize dependent (Zpos (digits2_pos m)). intros d A1 Hd.
  set (K := Z.div2 (d + e + 1)).
  assert (HK : (2 * K <= d + e + 1)%Z).
  { unfold K. rewrite Z.div2_div.
    assert (H := Z.div_mod (d + e + 1) 2 ltac:(lia)).
    assert (H' := Z.mod_pos_bound (d + e + 1) 2 ltac:(lia)). lia. }
  assert (He2 : (2 * Z.div2 e <= e)%Z).
  { rewrite Z.div2_div.
    assert (H := Z.div_mod e 2 ltac:(lia)).
    assert (H' := Z.mod_pos_bound e 2 ltac:(lia)). lia. }
  assert (Ha : (Z.min (fexp prec emax K) (Z.div2 e) <= fexp prec emax K)%Z) by lia.
  assert (Hb : (2 * Z.min (fexp prec emax K) (Z.div2 e) <= e)%Z) by lia.
  generalize dependent (Z.min (fexp prec emax K) (Z.div2 e)). intros e' Ha Hb.
  assert (Es : exists s, (e - 2 * e' = s /\ 0 <= s)%Z) by (eexists; split; [reflexivity|lia]).
  destruct Es as (s & Es & Hs). rewrite Es.
  set (m' := match s with
             | 0%Z => Zpos m
             | Zpos _ => Z.shiftl (Zpos m) s
             | Zneg _ => 0%Z
             end).
  assert (Em : m' = (Zpos m * 2 ^ s)%Z).
  { unfold m'. destruct s as [|p|p]; try lia.
    apply Z.shiftl_mul_pow2. lia. }
  clearbody m'.
  assert (P2 : (0 < 2 ^ s)%Z) by (apply Z.pow_pos_nonneg; lia).
  assert (Hm' : (0 < m')%Z) by nia.
  assert (Hsq := Z.sqrtrem_spec m' ltac:(lia)).
  destruct (Z.sqrtrem m') as [q r]. destruct Hsq as [Eq Hr].
  assert (Hq : (0 <= q)%Z) by lia.
  split; [exact Hq|]. split.
  - exists (sqrt (IZR m')). split.
    + assert (Eq' : IZR m' = IZR q * IZR q + IZR r).
      { rewrite <- mult_IZR, <- plus_IZR. f_equal. exact Eq. }
      assert (Hq' : 0 <= IZR q) by (apply IZR_le; lia).
      assert (Hr1 : 0 <= IZR r) by (apply IZR_le; lia).
      assert (Hr2 : IZR r <= 2 * IZR q).
      { rewrite <- mult_IZR. apply IZR_le. lia. }
      assert (Hs0 := sqrt_pos (IZR m')).
      assert (Hss : sqrt (IZR m') * sqrt (IZR m') = IZR m').
      { apply sqrt_sqrt. rewrite Eq'. nra. }
      destruct (Z.eqb_spec r 0) as [R0|R0].
      * simpl. subst r. rewrite Eq', Rplus_0_r. apply sqrt_square. exact Hq'.
      * assert (Hr1' : 1 <= IZR r) by (apply IZR_le; lia).
        destruct (Z.leb_spec r q) as [L|G]; simpl.
        -- assert (IZR r <= IZR q) by (apply IZR_le; lia). split; nra.
        -- assert (IZR q + 1 <= IZR r).
           { rewrite <- plus_IZR. apply IZR_le. lia. }
           split; nra.
    + assert (Hb' := bpow_pos e').
      assert (Ee : bpow e = bpow s * (bpow e' * bpow e')).
      { rewrite <- !bpow_add. f_equal. lia. }
      rewrite Ee.
      replace (IZR (Zpos m) * (bpow s * (bpow e' * bpow e')))
        with (IZR m' * (bpow e' * bpow e')).
      2:{ rewrite Em, mult_IZR, (bpow_IZR s) by lia. ring. }
      rewrite sqrt_mult_alt by (apply IZR_le; lia).
      rewrite sqrt_square by lra. reflexivity.
  - apply Z.le_trans with (fexp prec emax K); [assumption|].
    apply fexp_mono.
    assert (Hdq : (0 <= Zdigits2 q)%Z) by (destruct q; simpl; lia).
    destruct q as [|pq|pq]; try lia.
    destruct (digits2_bounds pq) as [_ B2]. cbn [Zdigits2].
    set (k := Zpos (digits2_pos pq)) in *.
    assert (Hk : (0 < k)%Z) by (unfold k; lia).
    destruct (Z_lt_le_dec (2 * k) (d + s)) as [L|G]; [exfalso|lia].
    assert (H1 : ((Zpos pq + 1) * (Zpos pq + 1) <= 2 ^ k * 2 ^ k)%Z)
      by (apply Z.mul_le_mono_nonneg; lia).
    rewrite <- Z.pow_add_r in H1 by lia.
    assert (H2 : (2 ^ (k + k) <= 2 ^ (d - 1 + s))%Z) by (apply Z.pow_le_mono_r; lia).
    rewrite (Z.pow_add_r 2 (d - 1) s) in H2 by lia.
    assert (H3 : (2 ^ (d - 1) * 2 ^ s <= Zpos m * 2 ^ s)%Z)
      by (apply Z.mul_le_mono_nonneg_r; lia).
    assert (H4 : (m' < (Zpos pq + 1) * (Zpos pq + 1))%Z) by lia.
    lia.
Qed.

Theorem fsqrt_rounds u :
  is_finite u = true -> 0 <= F2R u -> rounds (sqrt (F2R u)) (fsqrt u).
Proof.
  intros Fu Hu. destruct u as [s|s| |s m e]; try discriminate.
  - simpl. rewrite sqrt_0. apply rounds_zero.
  - destruct s.
    + exfalso. rewrite F2R_finite in Hu. unfold sgn in Hu.
      assert (0 < IZR (Zpos m) * bpow e).
      { apply Rmult_lt_0_compat; [apply IZR_lt; lia|apply bpow_pos]. }
      lra.
    + unfold fsqrt, SFsqrt.
      assert (H := sqrt_core_spec m e).
      destruct (SFsqrt_core_binary prec emax (Zpos m) e) as [[q e'] l].
      destruct H as (Hq & (w & Hw & Ew) & He).
      destruct (bra_rounds false q e' l w Hq Hw He) as [R _].
      unfold sgn in R. rewrite Rmult_1_l, Ew in R.
      rewrite F2R_finite. unfold sgn. rewrite Rmult_1_l. exact R.
Qed.

(** ** Representable numbers and the error of rounding *)

Lemma binary_round_rounding s m e :
  exists e' r,
    rounding (IZR (Zpos m) * bpow e) e' r
    /\ binary_round prec emax s m e = finish s r e'.
Proof.
  unfold binary_round.
  destruct (shl_align_spec m e (fexp prec emax (Zpos (digits2_pos m) + e)))
    as (Hv & Hd & He).
  destruct (shl_align m e (fexp prec emax (Zpos (digits2_pos m) + e))) as [mz ez].
  cbn [fst snd] in *. rewrite <- Hv.
  destruct (bra_rounding s (Zpos mz) ez loc_Exact (IZR (Zpos mz)))
    as (e' & r & Hr & _ & _ & E).
  - lia.
  - reflexivity.
  - cbn [Zdigits2]. rewrite Hd, He. lia.
  - exists e', r. split; assumption.
Qed.

Lemma rounding_integer m e e' r :
  rounding (IZR (Zpos m) * bpow e) e' r -> (Zpos m < 2 ^ 24)%Z ->
  (-149 <= e)%Z ->
  IZR r * bpow e' = IZR (Zpos m) * bpow e.
Proof.
  intros (H1 & H2 & H3 & H4 & H5 & H6) Hm He.
  assert (Hle : (e' <= e)%Z).
  { destruct (Z_le_gt_dec e' e) as [L|G]; [exact L|exfalso].
    assert (L1 := H5 ltac:(lia)).
    assert (L2 : IZR (Zpos m) * bpow e < bpow 24 * bpow e).
    { apply Rmult_lt_compat_r; [apply bpow_pos|].
      rewrite bpow_IZR by lia. apply IZR_lt. lia. }
    rewrite <- bpow_add in L2.
    assert (L3 : bpow (24 + e) <= bpow (e' + 23)) by (apply bpow_le; lia).
    lra. }
  assert (Eb : bpow e = bpow (e - e') * bpow e').
  { rewrite <- bpow_add. f_equal. lia. }
  assert (En : IZR (Zpos m) * bpow e * bpow (- e') = IZR (Zpos m * 2 ^ (e - e'))).
  { rewrite mult_IZR, <- (bpow_IZR (e - e')) by lia.
    rewrite Eb, !Rmult_assoc, bpow_inv. ring. }
  rewrite En in H4. rewrite <- minus_IZR in H4.
  assert (Er : r = (Zpos m * 2 ^ (e - e'))%Z).
  { assert (Hx : IZR (r - Zpos m * 2 ^ (e - e')) < 1) by (clear - H4; absr).
    assert (Hy : -1 < IZR (r - Zpos m * 2 ^ (e - e'))) by (clear - H4; absr).
    apply lt_IZR in Hx, Hy. lia. }
  rewrite Er, mult_IZR, <- (bpow_IZR (e - e')) by lia.
  rewrite Eb. ring.
Qed.

(** An integer below 2^24 times a power of two from 2^-149 on, of a
    magnitude below overflow, is a binary32 number. *)
Lemma representable (z e : Z) :
  (Z.abs z < 2 ^ 24)%Z -> (-149 <= e)%Z -> Rabs (IZR z * bpow e) < Tov ->
  exists g, valid g = true /\ is_finite g = true /\ F2R g = IZR z * bpow e.
Proof.
  intros Hz He Hb.
  destruct z as [|m|m].
  - exists (S754_zero false). rewrite Rmult_0_l. repeat split.
  - destruct (binary_round_rounding false m e) as (e' & r & Hr & E).
    destruct (finish_rounds false _ e' r Hr) as (A & _ & C).
    rewrite <- E in A, C. unfold sgn in A, C. rewrite Rmult_1_l in A, C.
    assert (Fg := rounds_finite _ _ A Hb).
    exists (binary_round prec emax false m e).
    split; [exact (rounds_valid _ _ A)|]. split; [exact Fg|].
    rewrite (C Fg). apply rounding_integer; [exact Hr|lia|lia].
  - destruct (binary_round_rounding true m e) as (e' & r & Hr & E).
    destruct (finish_rounds true _ e' r Hr) as (A & _ & C).
    rewrite <- E in A, C. unfold sgn in A, C.
    change (Zneg m) with (- Zpos m)%Z in *. rewrite opp_IZR in *.
    assert (Hb2 : Rabs (-1 * (IZR (Zpos m) * bpow e)) < Tov).
    { replace (-1 * (IZR (Zpos m) * bpow e)) with (- IZR (Zpos m) * bpow e) by lra.
      exact Hb. }
    assert (Fg := rounds_finite _ _ A Hb2).
    exists (binary_round prec emax true m e).
    split; [exact (rounds_valid _ _ A)|]. split; [exact Fg|].
    rewrite (C Fg), (rounding_integer m e e' r Hr) by lia. lra.
Qed.

(** Rounding a representable number changes nothing. *)
Lemma rounds_representable v f (z e : Z) :
  rounds v f -> v = IZR z * bpow e ->
  (Z.abs z < 2 ^ 24)%Z -> (-149 <= e)%Z -> Rabs v < Tov ->
  is_finite f = true /\ F2R f = v.
Proof.
  intros Hr Ev Hz He Hb. rewrite Ev in Hb.
  destruct (representable z e Hz He Hb) as (g & Vg & Fg & Eg).
  rewrite Ev, <- Eg in Hr |- *.
  exact (rounds_exact g f Vg Fg Hr).
Qed.

Lemma binade_aux v (n : nat) :
  bpow (-149) <= v -> v < bpow (-149 + Z.of_nat n) ->
  exists k, (-149 <= k < -149 + Z.of_nat n)%Z /\ bpow k <= v < bpow (k + 1).
Proof.
  intros Hlo. induction n as [|n IH]; intros Hhi.
  - change (-149 + Z.of_nat 0)%Z with (-149)%Z in Hhi. lra.
  - destruct (Rlt_le_dec v (bpow (-149 + Z.of_nat n))) as [L|G].
    + destruct (IH L) as (k & Hk & Hb). exists k. split; [lia|exact Hb].
    + exists (-149 + Z.of_nat n)%Z. split; [lia|]. split; [exact G|].
      replace (-149 + Z.of_nat n + 1)%Z with (-149 + Z.of_nat (S n))%Z by lia.
      exact Hhi.
Qed.

Lemma binade v :
  bpow (-149) <= v < bpow 128 ->
  exists k, (-149 <= k <= 127)%Z /\ bpow k <= v < bpow (k + 1).
Proof.
  intros [Hlo Hhi].
  destruct (binade_aux v 277 Hlo) as (k & Hk & Hb).
  - replace (-149 + Z.of_nat 277)%Z with 128%Z by lia. exact Hhi.
  - exists k. split; [lia|exact Hb].
Qed.

(** The integer part of a real that is not negative. *)
Lemma floor_exists v : 0 <= v -> exists z, (0 <= z)%Z /\ IZR z <= v < IZR z + 1.
Proof.
  intros Hv. exists (up v - 1)%Z. destruct (archimed v) as [A B].
  rewrite minus_IZR. split; [|lra].
  assert (H : 0 < IZR (up v)) by lra. apply lt_IZR in H. lia.
Qed.

Lemma Tov_lt_128 : Tov < bpow 128.
Proof. unfold Tov. assert (H := bpow_pos 103). lra. Qed.

(** Below every real from 0 to the overflow threshold there is a float,
    less than one unit in the last place away. *)
Lemma float_below v :
  0 <= v <= Tov ->
  exists g e, valid g = true /\ is_finite g = true
              /\ 0 <= F2R g /\ F2R g <= v < F2R g + bpow e
              /\ (bpow (e + 23) <= v \/ e = (-149)%Z).
Proof.
  intros [Hv0 HvT]. assert (HT := Tov_lt_128).
  destruct (Rlt_le_dec v (bpow (-149))) as [Small|Big].
  - exists (S754_zero false), (-149)%Z. simpl F2R. repeat split; auto; lra.
  - destruct (binade v) as (k & Hk & Hb); [lra|].
    set (e := Z.max (k - 23) (-149)).
    assert (He : (-149 <= e <= 104)%Z) by (unfold e; lia).
    assert (Hpe := bpow_pos e). assert (Hpi := bpow_inv e).
    destruct (floor_exists (v * bpow (- e))) as (z & Hz0 & Hz).
    { apply Rmult_le_pos; [lra|apply Rlt_le, bpow_pos]. }
    assert (Hup : v * bpow (- e) < bpow 24).
    { apply Rlt_le_trans with (bpow (k + 1) * bpow (- e)).
      - apply Rmult_lt_compat_r; [apply bpow_pos|lra].
      - rewrite <- bpow_add. apply bpow_le. unfold e. lia. }
    assert (Hz24 : (z < 2 ^ 24)%Z).
    { apply lt_IZR. rewrite <- bpow_IZR by lia. lra. }
    assert (Hzv : IZR z * bpow e <= v < IZR z * bpow e + bpow e).
    { assert (Ev : v * bpow (- e) * bpow e = v).
      { rewrite Rmult_assoc, (Rmult_comm (bpow (- e))), Hpi. ring. }
      assert (H1 : IZR z * bpow e <= v * bpow (- e) * bpow e)
        by (apply Rmult_le_compat_r; lra).
      assert (H2 : v * bpow (- e) * bpow e < (IZR z + 1) * bpow e)
        by (apply Rmult_lt_compat_r; lra).
      rewrite Ev in H1, H2. lra. }
    assert (Hz0' : 0 <= IZR z) by (apply IZR_le; lia).
    assert (Hmax : IZR z * bpow e <= bpow 128 - bpow 104).
    { rewrite bpow_128.
      assert (IZR z <= bpow 24 - 1).
      { rewrite bpow_IZR by lia. rewrite <- minus_IZR. apply IZR_le. lia. }
      assert (bpow e <= bpow 104) by (apply bpow_le; lia).
      assert (0 < bpow 104) by apply bpow_pos.
      assert (1 <= bpow 24) by (apply bpow_ge_1; lia). nra. }
    destruct (representable z e) as (g & Vg & Fg & Eg).
    + lia.
    + lia.
    + rewrite Rabs_pos_eq by nra. assert (H := Tov_gt_max). lra.
    + exists g, e. rewrite Eg. repeat split; auto; try lra; try nra.
      destruct (Z_le_gt_dec (-149) (k - 23)) as [L|G].
      * left. replace (e + 23)%Z with k by (unfold e; lia). lra.
      * right. unfold e. lia.
Qed.

(** The error of a rounding that does not overflow: at most 2^-23 of the
    value, or 2^-149 for the smallest values. *)
Lemma rounds_error v f :
  rounds v f -> is_finite f = true ->
  Rabs (F2R f - v) <= bpow (-23) * Rabs v
  \/ (Rabs v < bpow (-126) /\ Rabs (F2R f - v) <= bpow (-149)).
Proof.
  intros Hr Ff. assert (Hb := rounds_bound v f Hr Ff).
  assert (Hg : exists g e, valid g = true /\ is_finite g = true
             /\ Rabs (F2R g - v) <= bpow e
             /\ (bpow (e + 23) <= Rabs v \/ e = (-149)%Z)).
  { destruct (Rle_or_lt 0 v) as [P|N].
    - destruct (float_below v) as (g & e & Vg & Fg & G0 & Gv & Ge).
      { rewrite Rabs_pos_eq in Hb by lra. lra. }
      exists g, e. rewrite (Rabs_pos_eq v) by lra.
      repeat split; auto. rewrite Rabs_minus_sym, Rabs_pos_eq; lra.
    - destruct (float_below (- v)) as (g & e & Vg & Fg & G0 & Gv & Ge).
      { rewrite Rabs_left in Hb by lra. lra. }
      exists (SFopp g), e. rewrite valid_opp, F2R_opp.
      rewrite (Rabs_left v) by lra.
      repeat split; auto; [destruct g; auto|].
      replace (- F2R g - v) with (- v - F2R g) by lra.
      rewrite Rabs_pos_eq; lra. }
  destruct Hg as (g & e & Vg & Fg & Hd & He).
  assert (Hn := rounds_nearest v f g Hr Ff Vg Fg).
  destruct He as [He|He].
  - left. apply Rle_trans with (bpow e); [lra|].
    replace e with (-23 + (e + 23))%Z at 1 by lia. rewrite bpow_add.
    apply Rmult_le_compat_l; [apply Rlt_le, bpow_pos|exact He].
  - subst e. destruct (Rlt_le_dec (Rabs v) (bpow (-126))) as [S|B].
    + right. split; [exact S|lra].
    + left. apply Rle_trans with (bpow (-149)); [lra|].
      apply Rle_trans with (bpow (-23) * bpow (-126)).
      * rewrite <- bpow_add. apply bpow_le. lia.
      * apply Rmult_le_compat_l; [apply Rlt_le, bpow_pos|exact B].
Qed.

(** ** Integers and conversions *)

Lemma Tov_ge : bpow 127 <= Tov.
Proof.
  unfold Tov. replace 128%Z with (127 + 1)%Z by lia. rewrite bpow_succ.
  assert (bpow 103 <= bpow 127) by (apply bpow_le; lia). lra.
Qed.

Lemma IZR_lt_Tov z k :
  (Z.abs z <= 2 ^ k)%Z -> (0 <= k < 127)%Z -> Rabs (IZR z) < Tov.
Proof.
  intros Hz Hk. apply Rle_lt_trans with (bpow k).
  - rewrite <- abs_IZR, bpow_IZR by lia. apply IZR_le. exact Hz.
  - apply Rlt_le_trans with (bpow 127); [apply bpow_lt; lia|apply Tov_ge].
Qed.

Lemma of_int_exact i :
  (Z.abs i < 2 ^ 24)%Z ->
  valid (of_int i) = true /\ is_finite (of_int i) = true
  /\ F2R (of_int i) = IZR i.
Proof.
  intros Hi. assert (R := of_int_rounds i).
  split; [exact (rounds_valid _ _ R)|].
  apply (rounds_representable _ _ i 0 R).
  - rewrite bpow_0. ring.
  - exact Hi.
  - lia.
  - apply (IZR_lt_Tov i 24); lia.
Qed.

Lemma int_in_range z : (INT_MIN <= z <= INT_MAX)%Z -> int z = Ok z.
Proof.
  intros [A B]. unfold int, in_int.
  apply Z.leb_le in A, B. rewrite A, B. reflexivity.
Qed.

Lemma to_int_total u :
  is_finite u = true -> Rabs (F2R u) < bpow 31 ->
  exists z, to_int u = Ok z /\ trunc u = Some z.
Proof.
  intros Fu Hb. unfold to_int.
  assert (Ht : exists z, trunc u = Some z).
  { destruct u; try discriminate; eexists; reflexivity. }
  destruct Ht as [z Ht]. rewrite Ht. exists z. split; [|reflexivity].
  destruct (trunc_spec u z Ht) as (_ & P & N).
  rewrite bpow_IZR in Hb by lia.
  assert (Hz : (- 2 ^ 31 < z < 2 ^ 31)%Z).
  { destruct (Rle_or_lt 0 (F2R u)) as [A|A].
    - specialize (P A). rewrite Rabs_pos_eq in Hb by lra.
      assert (H1 : IZR z < IZR (2 ^ 31)) by lra.
      assert (H2 : IZR (-1) < IZR z) by (simpl; lra).
      apply lt_IZR in H1, H2. lia.
    - specialize (N (Rlt_le _ _ A)). rewrite Rabs_left in Hb by lra.
      assert (H1 : IZR (- 2 ^ 31) < IZR z) by (rewrite opp_IZR; lra).
      assert (H2 : IZR z < IZR 1) by (simpl; lra).
      apply lt_IZR in H1, H2. lia. }
  apply int_in_range. unfold INT_MIN, INT_MAX. lia.
Qed.

(** [fl] is the floor and [cl] the ceiling of a float from 0 to 2^23. *)
Lemma fl_spec v :
  valid v = true -> is_finite v = true -> 0 <= F2R v < bpow 23 ->
  exists n, fl v = Ok n /\ (0 <= n)%Z /\ IZR n <= F2R v < IZR n + 1.
Proof.
  intros Vv Fv [H0 H1].
  assert (B23 : bpow 23 < bpow 31) by (apply bpow_lt; lia).
  destruct (to_int_total v Fv) as (i & Ei & Ti).
  { rewrite Rabs_pos_eq; lra. }
  destruct (trunc_spec v i Ti) as (_ & P & _). specialize (P H0).
  rewrite bpow_IZR in H1 by lia.
  assert (Hi : (0 <= i < 2 ^ 23)%Z).
  { assert (A : IZR (-1) < IZR i) by (simpl; lra).
    assert (B : IZR i < IZR (2 ^ 23)) by lra.
    apply lt_IZR in A, B. lia. }
  destruct (of_int_exact i) as (Vi & Fi & Eo); [lia|].
  exists i. unfold fl. rewrite Ei. cbn [bind].
  assert (Hc : (v <? of_int i)%f32 = false).
  { destruct (v <? of_int i)%f32 eqn:E; [|reflexivity].
    apply (flt_spec v (of_int i) Vv Vi Fv Fi) in E. lra. }
  rewrite Hc, Z.sub_0_r.
  rewrite int_in_range by (unfold INT_MIN, INT_MAX; lia).
  repeat split; try lia; lra.
Qed.

Lemma cl_spec v :
  valid v = true -> is_finite v = true -> 0 <= F2R v < bpow 23 ->
  exists n, cl v = Ok n /\ (0 <= n)%Z /\ IZR n - 1 < F2R v <= IZR n.
Proof.
  intros Vv Fv [H0 H1].
  assert (B23 : bpow 23 < bpow 31) by (apply bpow_lt; lia).
  destruct (to_int_total v Fv) as (i & Ei & Ti).
  { rewrite Rabs_pos_eq; lra. }
  destruct (trunc_spec v i Ti) as (_ & P & _). specialize (P H0).
  rewrite bpow_IZR in H1 by lia.
  assert (Hi : (0 <= i < 2 ^ 23)%Z).
  { assert (A : IZR (-1) < IZR i) by (simpl; lra).
    assert (B : IZR i < IZR (2 ^ 23)) by lra.
    apply lt_IZR in A, B. lia. }
  destruct (of_int_exact i) as (Vi & Fi & Eo); [lia|].
  unfold cl. rewrite Ei. cbn [bind].
  change (v >? of_int i)%f32 with (of_int i <? v)%f32.
  destruct (of_int i <? v)%f32 eqn:E.
  - apply (flt_spec (of_int i) v Vi Vv Fi Fv) in E.
    exists (i + 1)%Z.
    rewrite int_in_range by (unfold INT_MIN, INT_MAX; lia).
    rewrite plus_IZR. repeat split; try lia; lra.
  - assert (Hle : F2R v <= IZR i).
    { destruct (Rle_or_lt (F2R v) (IZR i)) as [L|G]; [exact L|].
      rewrite <- Eo in G.
      apply (flt_spec (of_int i) v Vi Vv Fi Fv) in G. congruence. }
    exists i. rewrite Z.add_0_r.
    rewrite int_in_range by (unfold INT_MIN, INT_MAX; lia).
    repeat split; try lia; lra.
Qed.

(** ** The magnitude [mag] *)

Lemma finite_zero u : is_finite u = true -> F2R u = 0 -> exists s, u = S754_zero s.
Proof.
  destruct u as [s|s| |s m e]; try discriminate; intros _ H.
  - exists s. reflexivity.
  - exfalso. exact (finite_nonzero s m e H).
Qed.

Lemma rounds_zero_inv f : rounds 0 f -> is_finite f = true /\ F2R f = 0.
Proof.
  intros H. exact (rounds_exact (S754_zero false) f eq_refl eq_refl H).
Qed.

(** Operands of the same value give results of the same value. *)
Lemma fmul_ext u u' v v' :
  valid u = true -> valid u' = true -> valid v = true -> valid v' = true ->
  is_finite u = true -> is_finite u' = true ->
  is_finite v = true -> is_finite v' = true ->
  F2R u = F2R u' -> F2R v = F2R v' ->
  is_finite (u * v)%f32 = is_finite (u' * v')%f32
  /\ F2R (u * v)%f32 = F2R (u' * v')%f32.
Proof.
  intros Vu Vu' Vv Vv' Fu Fu' Fv Fv' Eu Ev.
  assert (R := fmul_rounds u v Vu Vv Fu Fv).
  assert (R' := fmul_rounds u' v' Vu' Vv' Fu' Fv').
  destruct (F2R_inj u u' Vu Vu' Fu Fu' Eu) as [E1|[Z1 Z1']];
    destruct (F2R_inj v v' Vv Vv' Fv Fv' Ev) as [E2|[Z2 Z2']].
  - subst. split; reflexivity.
  - rewrite Z2, Rmult_0_r in R. rewrite Z2', Rmult_0_r in R'.
    destruct (rounds_zero_inv _ R) as [A B].
    destruct (rounds_zero_inv _ R') as [A' B']. split; congruence.
  - rewrite Z1, Rmult_0_l in R. rewrite Z1', Rmult_0_l in R'.
    destruct (rounds_zero_inv _ R) as [A B].
    destruct (rounds_zero_inv _ R') as [A' B']. split; congruence.
  - rewrite Z1, Rmult_0_l in R. rewrite Z1', Rmult_0_l in R'.
    destruct (rounds_zero_inv _ R) as [A B].
    destruct (rounds_zero_inv _ R') as [A' B']. split; congruence.
Qed.

Lemma fadd_ext u u' v v' :
  valid u = true -> valid u' = true -> valid v = true -> valid v' = true ->
  is_finite u = true -> is_finite u' = true ->
  is_finite v = true -> is_finite v' = true ->
  F2R u = F2R u' -> F2R v = F2R v' ->
  is_finite (u + v)%f32 = is_finite (u' + v')%f32
  /\ F2R (u + v)%f32 = F2R (u' + v')%f32.
Proof.
  intros Vu Vu' Vv Vv' Fu Fu' Fv Fv' Eu Ev.
  assert (R := fadd_rounds u v Vu Vv Fu Fv).
  assert (R' := fadd_rounds u' v' Vu' Vv' Fu' Fv').
  destruct (F2R_inj u u' Vu Vu' Fu Fu' Eu) as [E1|[Z1 Z1']];
    destruct (F2R_inj v v' Vv Vv' Fv Fv' Ev) as [E2|[Z2 Z2']].
  - subst. split; reflexivity.
  - rewrite Z2, Rplus_0_r in R. rewrite Z2', Rplus_0_r in R'.
    destruct (rounds_exact _ _ Vu Fu R) as [A B].
    destruct (rounds_exact _ _ Vu' Fu' R') as [A' B']. split; congruence.
  - rewrite Z1, Rplus_0_l in R. rewrite Z1', Rplus_0_l in R'.
    destruct (rounds_exact _ _ Vv Fv R) as [A B].
    destruct (rounds_exact _ _ Vv' Fv' R') as [A' B']. split; congruence.
  - rewrite Z1, Z2, Rplus_0_l in R. rewrite Z1', Z2', Rplus_0_l in R'.
    destruct (rounds_zero_inv _ R) as [A B].
    destruct (rounds_zero_inv _ R') as [A' B']. split; congruence.
Qed.

Lemma fmul_opp_opp u : (SFopp u * SFopp u)%f32 = (u * u)%f32.
Proof. destruct u as [s|s| |s m e]; try reflexivity; destruct s; reflexivity. Qed.

Lemma is_finite_opp u : is_finite (SFopp u) = is_finite u.
Proof. destruct u; reflexivity. Qed.

(** The square [a * a] as [mag] computes it. *)
Lemma sq_rounds a :
  valid a = true -> is_finite a = true -> rounds (F2R a * F2R a) (a * a)%f32.
Proof. intros V F. apply fmul_rounds; assumption. Qed.

Lemma sq_nonneg a :
  valid a = true -> is_finite a = true -> is_finite (a * a)%f32 = true ->
  0 <= F2R (a * a)%f32.
Proof.
  intros V F Fs. apply (rounds_nonneg _ _ (sq_rounds a V F) Fs). nra.
Qed.

Lemma sq_mono a a' :
  valid a = true -> valid a' = true ->
  is_finite a = true -> is_finite a' = true ->
  Rabs (F2R a) <= Rabs (F2R a') ->
  is_finite (a' * a')%f32 = true ->
  is_finite (a * a)%f32 = true /\ F2R (a * a)%f32 <= F2R (a' * a')%f32.
Proof.
  intros V V' F F' Hle Fs'.
  assert (R := sq_rounds a V F). assert (R' := sq_rounds a' V' F').
  assert (B' := rounds_bound _ _ R' Fs').
  assert (Hsq : F2R a * F2R a <= F2R a' * F2R a').
  { revert Hle. unfold Rabs. repeat destruct Rcase_abs; intros; nra. }
  destruct Hsq as [Lt|Eq].
  - assert (Fs : is_finite (a * a)%f32 = true).
    { apply (rounds_finite _ _ R). rewrite Rabs_pos_eq by nra.
      rewrite Rabs_pos_eq in B' by nra. lra. }
    split; [exact Fs|]. exact (rounds_mono_finite _ _ _ _ R R' Fs Fs' Lt).
  - assert (Ev : F2R a = F2R a' \/ F2R (SFopp a) = F2R a').
    { rewrite F2R_opp.
      destruct (Rle_or_lt 0 (F2R a)); destruct (Rle_or_lt 0 (F2R a')); nra. }
    destruct Ev as [Ev|Ev].
    + destruct (fmul_ext a a' a a' V V' V V' F F' F F' Ev Ev) as [A B].
      rewrite A, B. split; [exact Fs'|lra].
    + assert (Vo : valid (SFopp a) = true) by (rewrite valid_opp; exact V).
      assert (Fo : is_finite (SFopp a) = true) by (rewrite is_finite_opp; exact F).
      destruct (fmul_ext (SFopp a) a' (SFopp a) a' Vo V' Vo V' Fo F' Fo F' Ev Ev)
        as [A B].
      rewrite fmul_opp_opp in A, B. rewrite A, B. split; [exact Fs'|lra].
Qed.

Lemma fsqrt_finite_inv u : is_finite (fsqrt u) = true -> is_finite u = true.
Proof. destruct u as [s|[|]| |[|] m e]; simpl; auto. Qed.

Lemma fsqrt_nonneg u :
  is_finite u = true -> 0 <= F2R u -> is_finite (fsqrt u) = true ->
  0 <= F2R (fsqrt u).
Proof.
  intros F H Fs. apply (rounds_nonneg _ _ (fsqrt_rounds u F H) Fs). apply sqrt_pos.
Qed.

Lemma fsqrt_mono u u' :
  valid u = true -> valid u' = true ->
  is_finite u = true -> is_finite u' = true ->
  0 <= F2R u <= F2R u' ->
  is_finite (fsqrt u') = true ->
  is_finite (fsqrt u) = true /\ F2R (fsqrt u) <= F2R (fsqrt u').
Proof.
  intros V V' F F' [H0 Hle] Fs'.
  assert (R := fsqrt_rounds u F H0). assert (R' := fsqrt_rounds u' F' ltac:(lra)).
  assert (B' := rounds_bound _ _ R' Fs').
  assert (P := sqrt_pos (F2R u)). assert (P' := sqrt_pos (F2R u')).
  rewrite Rabs_pos_eq in B' by lra.
  destruct Hle as [Lt|Eq].
  - assert (L : sqrt (F2R u) < sqrt (F2R u')) by (apply sqrt_lt_1; lra).
    assert (Fs : is_finite (fsqrt u) = true).
    { apply (rounds_finite _ _ R). rewrite Rabs_pos_eq; lra. }
    split; [exact Fs|]. exact (rounds_mono_finite _ _ _ _ R R' Fs Fs' L).
  - destruct (F2R_inj u u' V V' F F' Eq) as [E|[Z Z']].
    + subst. split; [assumption|lra].
    + destruct (finite_zero u F Z) as [s ->]. destruct (finite_zero u' F' Z') as [s' ->].
      simpl. split; [reflexivity|lra].
Qed.

Lemma mag_finite_inv p :
  is_finite (mag p) = true ->
  is_finite (x p) = true /\ is_finite (y p) = true
  /\ is_finite (x p * x p)%f32 = true /\ is_finite (y p * y p)%f32 = true
  /\ is_finite (x p * x p + y p * y p)%f32 = true.
Proof.
  unfold mag. intros H. apply fsqrt_finite_inv in H.
  destruct (fadd_finite_inv _ _ H) as [A B].
  destruct (fmul_finite_inv _ _ A) as [A' _].
  destruct (fmul_finite_inv _ _ B) as [B' _]. auto.
Qed.

(** [mag] grows with the magnitude of each coordinate. *)
Lemma mag_mono p q :
  valid (x p) = true -> valid (y p) = true ->
  valid (x q) = true -> valid (y q) = true ->
  is_finite (x p) = true -> is_finite (y p) = true ->
  Rabs (F2R (x p)) <= Rabs (F2R (x q)) ->
  Rabs (F2R (y p)) <= Rabs (F2R (y q)) ->
  is_finite (mag q) = true ->
  is_finite (mag p) = true /\ F2R (mag p) <= F2R (mag q).
Proof.
  intros Vxp Vyp Vxq Vyq Fxp Fyp Hx Hy Fq.
  destruct (mag_finite_inv q Fq) as (Fxq & Fyq & Fxx & Fyy & Fs).
  destruct (sq_mono _ _ Vxp Vxq Fxp Fxq Hx Fxx) as [Fa La].
  destruct (sq_mono _ _ Vyp Vyq Fyp Fyq Hy Fyy) as [Fb Lb].
  assert (Ra := sq_rounds _ Vxp Fxp). assert (Rb := sq_rounds _ Vyp Fyp).
  assert (Ra' := sq_rounds _ Vxq Fxq). assert (Rb' := sq_rounds _ Vyq Fyq).
  assert (Va := rounds_valid _ _ Ra). assert (Vb := rounds_valid _ _ Rb).
  assert (Va' := rounds_valid _ _ Ra'). assert (Vb' := rounds_valid _ _ Rb').
  assert (Pa := sq_nonneg _ Vxp Fxp Fa). assert (Pb := sq_nonneg _ Vyp Fyp Fb).
  assert (Rs := fadd_rounds _ _ Va Vb Fa Fb).
  assert (Rs' := fadd_rounds _ _ Va' Vb' Fxx Fyy).
  assert (Bs' := rounds_bound _ _ Rs' Fs).
  rewrite Rabs_pos_eq in Bs' by lra.
  assert (Hsum : is_finite (x p * x p + y p * y p)%f32 = true
                 /\ F2R (x p * x p + y p * y p)%f32
                    <= F2R (x q * x q + y q * y q)%f32).
  { destruct (Rle_lt_or_eq_dec _ _ (Rplus_le_compat _ _ _ _ La Lb)) as [Lt|Eq].
    - assert (Fs0 : is_finite (x p * x p + y p * y p)%f32 = true).
      { apply (rounds_finite _ _ Rs). rewrite Rabs_pos_eq; lra. }
      split; [exact Fs0|]. exact (rounds_mono_finite _ _ _ _ Rs Rs' Fs0 Fs Lt).
    - assert (Ea : F2R (x p * x p)%f32 = F2R (x q * x q)%f32) by lra.
      assert (Eb : F2R (y p * y p)%f32 = F2R (y q * y q)%f32) by lra.
      destruct (fadd_ext _ _ _ _ Va Va' Vb Vb' Fa Fxx Fb Fyy Ea Eb) as [A B].
      rewrite A, B. split; [exact Fs|lra]. }
  destruct Hsum as [Fs0 Ls].
  unfold mag. apply fsqrt_mono; auto.
  - exact (rounds_valid _ _ Rs).
  - exact (rounds_valid _ _ Rs').
  - split; [|exact Ls]. apply (rounds_nonneg _ _ Rs Fs0). lra.
Qed.

Lemma bpow_m23 : 0 < bpow (-23) <= / 1000000.
Proof.
  assert (H := bpow_inv 23). rewrite (bpow_IZR 23) in H by lia.
  assert (P := bpow_pos (-23)). split; [exact P|].
  change (2 ^ 23)%Z with 8388608%Z in H. change (- (23))%Z with (-23)%Z in H.
  lra.
Qed.

(** A rounding of a value that is zero or of magnitude 2^-126 or more has
    a relative error of 2^-23 at most. *)
Lemma rounds_rel v f :
  rounds v f -> is_finite f = true ->
  v = 0 \/ bpow (-126) <= Rabs v ->
  Rabs (F2R f - v) <= bpow (-23) * Rabs v.
Proof.
  intros Hr Ff [Z|B].
  - subst v. destruct (rounds_zero_inv f Hr) as [_ E]. rewrite E.
    replace (0 - 0) with 0 by lra. rewrite Rabs_R0. lra.
  - destruct (rounds_error v f Hr Ff) as [L|[S _]]; [exact L|lra].
Qed.

Lemma rel_bounds v w u :
  Rabs (w - v) <= u * Rabs v -> 0 <= v -> (1 - u) * v <= w <= (1 + u) * v.
Proof. intros H Hv. rewrite (Rabs_pos_eq v) in H by lra. revert H. absr. Qed.

Lemma sqrt_bpow_even e : sqrt (bpow (2 * e)) = bpow e.
Proof.
  replace (2 * e)%Z with (e + e)%Z by lia. rewrite bpow_add.
  apply sqrt_square. apply Rlt_le, bpow_pos.
Qed.

(** The value of [mag] against the Euclidean norm, squared: the three
    roundings cost a factor within (1 - 2^-23)^4 and (1 + 2^-23)^4 when no
    square underflows. *)
Lemma mag_bounds p :
  valid (x p) = true -> valid (y p) = true ->
  (F2R (x p) = 0 \/ bpow (-60) <= Rabs (F2R (x p))) ->
  (F2R (y p) = 0 \/ bpow (-60) <= Rabs (F2R (y p))) ->
  is_finite (mag p) = true ->
  let N := F2R (x p) * F2R (x p) + F2R (y p) * F2R (y p) in
  let u := bpow (-23) in
  0 <= F2R (mag p)
  /\ (1 - u) ^ 4 * N <= F2R (mag p) * F2R (mag p) <= (1 + u) ^ 4 * N.
Proof.
  intros Vx Vy Hx Hy Fm N u.
  destruct (mag_finite_inv p Fm) as (Fx & Fy & Fa & Fb & Fs).
  assert (Hu : 0 < u <= / 1000000) by exact bpow_m23.
  assert (Ra := sq_rounds _ Vx Fx). assert (Rb := sq_rounds _ Vy Fy).
  assert (Va := rounds_valid _ _ Ra). assert (Vb := rounds_valid _ _ Rb).
  assert (Rs := fadd_rounds _ _ Va Vb Fa Fb).
  assert (Vs := rounds_valid _ _ Rs).
  assert (B120 : bpow (-126) <= bpow (-120)) by (apply bpow_le; lia).
  assert (B121 : bpow (-126) <= bpow (-122)) by (apply bpow_le; lia).
  assert (P126 := bpow_pos (-126)).
  assert (Sq : forall c, bpow (-60) <= Rabs c -> bpow (-120) <= c * c).
  { intros c Hc. replace (-120)%Z with (-60 + -60)%Z by lia. rewrite bpow_add.
    assert (P := bpow_pos (-60)). revert Hc. absr; intros; nra. }
  assert (Ea : (1 - u) * (F2R (x p) * F2R (x p)) <= F2R (x p * x p)%f32
               <= (1 + u) * (F2R (x p) * F2R (x p))).
  { apply rel_bounds; [|nra]. apply (rounds_rel _ _ Ra Fa).
    destruct Hx as [Z|B]; [left; rewrite Z; ring|right].
    rewrite Rabs_pos_eq by nra. specialize (Sq _ B). lra. }
  assert (Eb : (1 - u) * (F2R (y p) * F2R (y p)) <= F2R (y p * y p)%f32
               <= (1 + u) * (F2R (y p) * F2R (y p))).
  { apply rel_bounds; [|nra]. apply (rounds_rel _ _ Rb Fb).
    destruct Hy as [Z|B]; [left; rewrite Z; ring|right].
    rewrite Rabs_pos_eq by nra. specialize (Sq _ B). lra. }
  set (A := F2R (x p * x p)%f32) in *. set (B := F2R (y p * y p)%f32) in *.
  assert (HN0 : 0 <= N) by (unfold N; nra).
  assert (HNz : N = 0 \/ bpow (-120) <= N).
  { destruct Hx as [Zx|Bx]; destruct Hy as [Zy|By].
    - left. unfold N. rewrite Zx, Zy. ring.
    - right. specialize (Sq _ By). unfold N. nra.
    - right. specialize (Sq _ Bx). unfold N. nra.
    - right. specialize (Sq _ Bx). unfold N. nra. }
  assert (HAB : (1 - u) * N <= A + B <= (1 + u) * N) by (unfold N; nra).
  assert (Es : (1 - u) * (A + B) <= F2R (x p * x p + y p * y p)%f32
               <= (1 + u) * (A + B)).
  { apply rel_bounds; [|nra]. apply (rounds_rel _ _ Rs Fs).
    destruct HNz as [Z|Bn]; [left; nra|right].
    rewrite Rabs_pos_eq by nra.
    assert (bpow (-121) <= (1 - u) * bpow (-120)).
    { replace (-120)%Z with (-121 + 1)%Z by lia. rewrite bpow_succ.
      assert (P := bpow_pos (-121)). nra. }
    assert (bpow (-126) <= bpow (-121)) by (apply bpow_le; lia). nra. }
  set (S := F2R (x p * x p + y p * y p)%f32) in *.
  assert (HS0 : 0 <= S) by nra.
  assert (Rm := fsqrt_rounds _ Fs HS0). fold S in Rm.
  change (fsqrt (x p * x p + y p * y p)%f32) with (mag p) in Rm.
  assert (HSN : (1 - u) * ((1 - u) * N) <= S <= (1 + u) * ((1 + u) * N)) by nra.
  assert (Ps := sqrt_pos S).
  assert (Ess : sqrt S * sqrt S = S) by (apply sqrt_sqrt; exact HS0).
  assert (Em : (1 - u) * sqrt S <= F2R (mag p) <= (1 + u) * sqrt S).
  { apply rel_bounds; [|exact Ps]. apply (rounds_rel _ _ Rm Fm).
    destruct HNz as [Z|Bn].
    - left. assert (S = 0) by nra. rewrite H. apply sqrt_0.
    - right. rewrite Rabs_pos_eq by exact Ps.
      apply Rle_trans with (bpow (-61)); [apply bpow_le; lia|].
      change (-61)%Z with (-61)%Z. rewrite <- (sqrt_bpow_even (-61)).
      apply sqrt_le_1; [apply Rlt_le, bpow_pos|exact HS0|].
      change (2 * -61)%Z with (-122)%Z.
      assert (bpow (-122) <= (1 - u) * ((1 - u) * bpow (-120))).
      { replace (-120)%Z with (-122 + 1 + 1)%Z by lia. rewrite !bpow_succ.
        assert (P := bpow_pos (-122)). nra. }
      nra. }
  set (M := F2R (mag p)) in *.
  assert (HM0 : 0 <= M) by nra.
  split; [exact HM0|].
  assert (T1 : 0 <= (1 - u) * sqrt S) by (apply Rmult_le_pos; lra).
  assert (L1 : (1 - u) * sqrt S * ((1 - u) * sqrt S) <= M * M)
    by (apply Rmult_le_compat; lra).
  assert (L2 : M * M <= (1 + u) * sqrt S * ((1 + u) * sqrt S))
    by (apply Rmult_le_compat; lra).
  replace ((1 - u) * sqrt S * ((1 - u) * sqrt S))
    with ((1 - u) * (1 - u) * (sqrt S * sqrt S)) in L1 by ring.
  replace ((1 + u) * sqrt S * ((1 + u) * sqrt S))
    with ((1 + u) * (1 + u) * (sqrt S * sqrt S)) in L2 by ring.
  rewrite Ess in L1, L2.
  assert (Q1 : 0 <= (1 - u) * (1 - u)) by nra.
  assert (Q2 : 0 <= (1 + u) * (1 + u)) by nra.
  split.
  - apply Rle_trans with ((1 - u) * (1 - u) * S); [|exact L1].
    replace ((1 - u) ^ 4 * N) with ((1 - u) * (1 - u) * ((1 - u) * ((1 - u) * N)))
      by ring.
    apply Rmult_le_compat_l; [exact Q1|lra].
  - apply Rle_trans with ((1 + u) * (1 + u) * S); [exact L2|].
    replace ((1 + u) ^ 4 * N) with ((1 + u) * (1 + u) * ((1 + u) * ((1 + u) * N)))
      by ring.
    apply Rmult_le_compat_l; [exact Q2|lra].
Qed.


(** ** Floats on a common grid subtract and add exactly *)

Lemma normal_form u :
  valid u = true -> is_finite u = true -> 1 <= Rabs (F2R u) ->
  exists m e, Rabs (F2R u) = IZR (Zpos m) * bpow e
              /\ (-23 <= e)%Z /\ (2 ^ 23 <= Zpos m < 2 ^ 24)%Z.
Proof.
  intros V F H1.
  destruct (valid_finite_form u V F) as [Z|(m & e & E & He & Hm & Hn)]; [lra|].
  exists m, e. split; [exact E|].
  assert (He23 : (-23 <= e)%Z).
  { destruct (Z_le_gt_dec (-23) e) as [L|G]; [exact L|exfalso].
    assert (B : bpow e <= bpow (-24)) by (apply bpow_le; lia).
    assert (M : IZR (Zpos m) < bpow 24).
    { rewrite bpow_IZR by lia. apply IZR_lt. exact Hm. }
    assert (P := bpow_pos e). assert (I := bpow_inv 24).
    change (- (24))%Z with (-24)%Z in I.
    assert (P24 := bpow_pos (-24)).
    assert (IZR (Zpos m) * bpow e < bpow 24 * bpow (-24)).
    { apply Rle_lt_trans with (IZR (Zpos m) * bpow (-24)).
      - apply Rmult_le_compat_l; [apply IZR_le; lia|exact B].
      - apply Rmult_lt_compat_r; assumption. }
    lra. }
  split; [exact He23|]. split; [apply Hn; lia|exact Hm].
Qed.

Lemma multiple_shift e e' u : (e' <= e)%Z -> multiple e u -> multiple e' u.
Proof.
  intros Hle [z Hz]. exists (z * 2 ^ (e - e'))%Z.
  rewrite Hz, mult_IZR, <- (bpow_IZR (e - e')) by lia.
  rewrite Rmult_assoc, <- bpow_add. do 2 f_equal. lia.
Qed.

Lemma multiple_ge1 u :
  valid u = true -> is_finite u = true -> 1 <= Rabs (F2R u) ->
  multiple (-23) u.
Proof.
  intros V F H1. destruct (normal_form u V F H1) as (m & e & E & He & Hm).
  apply (multiple_shift e); [exact He|].
  destruct (Rle_or_lt 0 (F2R u)) as [P|N].
  - exists (Zpos m). rewrite Rabs_pos_eq in E by exact P. exact E.
  - exists (Zneg m). rewrite Rabs_left in E by exact N.
    change (Zneg m) with (- Zpos m)%Z. rewrite opp_IZR. lra.
Qed.

Lemma multiple_int e u n :
  (e <= 0)%Z -> F2R u = IZR n -> multiple e u.
Proof.
  intros He E. apply (multiple_shift 0); [exact He|].
  exists n. rewrite bpow_0. lra.
Qed.

Lemma exact_on_grid e (zu zv : Z) (c : R) f :
  rounds c f -> c = IZR zu * bpow e ->
  (-149 <= e <= 0)%Z -> Rabs c < bpow (24 + e) ->
  is_finite f = true /\ F2R f = c.
Proof.
  intros R Ec He Hb.
  apply (rounds_representable c f zu e R Ec); [|lia|].
  - assert (P := bpow_pos e).
    rewrite Ec, Rabs_mult, (Rabs_pos_eq (bpow e)), bpow_add in Hb by lra.
    assert (H : Rabs (IZR zu) < bpow 24) by (apply Rmult_lt_reg_r with (bpow e); lra).
    rewrite <- abs_IZR, bpow_IZR in H by lia. apply lt_IZR in H. exact H.
  - apply Rlt_le_trans with (bpow (24 + e)); [exact Hb|].
    apply Rle_trans with (bpow 127); [apply bpow_le; lia|apply Tov_ge].
Qed.

Lemma fsub_exact e u v :
  valid u = true -> valid v = true ->
  is_finite u = true -> is_finite v = true ->
  multiple e u -> multiple e v -> (-149 <= e <= 0)%Z ->
  Rabs (F2R u - F2R v) < bpow (24 + e) ->
  is_finite (u - v)%f32 = true /\ F2R (u - v)%f32 = F2R u - F2R v.
Proof.
  intros Vu Vv Fu Fv [zu Eu] [zv Ev] He Hb.
  apply (exact_on_grid e (zu - zv) 0 _ _ (fsub_rounds u v Vu Vv Fu Fv)); auto.
  rewrite Eu, Ev, minus_IZR. ring.
Qed.

Lemma fadd_exact e u v :
  valid u = true -> valid v = true ->
  is_finite u = true -> is_finite v = true ->
  multiple e u -> multiple e v -> (-149 <= e <= 0)%Z ->
  Rabs (F2R u + F2R v) < bpow (24 + e) ->
  is_finite (u + v)%f32 = true /\ F2R (u + v)%f32 = F2R u + F2R v.
Proof.
  intros Vu Vv Fu Fv [zu Eu] [zv Ev] He Hb.
  apply (exact_on_grid e (zu + zv) 0 _ _ (fadd_rounds u v Vu Vv Fu Fv)); auto.
  rewrite Eu, Ev, plus_IZR. ring.
Qed.

Lemma bpow_1' : bpow (24 + -23) = 2.
Proof. change (24 + -23)%Z with 1%Z. apply bpow_1. Qed.

(** Two floats of magnitude 1 or more, or integers, less than 2 apart. *)
Lemma fsub_exact_near u v :
  valid u = true -> valid v = true ->
  is_finite u = true -> is_finite v = true ->
  multiple (-23) u -> multiple (-23) v ->
  Rabs (F2R u - F2R v) < 2 ->
  is_finite (u - v)%f32 = true /\ F2R (u - v)%f32 = F2R u - F2R v.
Proof.
  intros Vu Vv Fu Fv Mu Mv Hb.
  apply (fsub_exact (-23)); auto; [lia|]. rewrite bpow_1'. exact Hb.
Qed.


(** ** The next grid line *)

Lemma not_pow2 z k : pow2b z = false -> (0 <= k)%Z -> z <> (2 ^ k)%Z.
Proof.
  unfold pow2b. intros H Hk E. subst z.
  rewrite Z.log2_pow2, Z.eqb_refl in H by exact Hk. discriminate.
Qed.

Lemma own_grid v (B : Z) :
  valid v = true -> is_finite v = true -> 1 <= F2R v < IZR B ->
  (B <= 2 ^ 23)%Z ->
  exists e, (-23 <= e <= 0)%Z /\ multiple e v /\ F2R v < bpow (24 + e)
            /\ bpow (23 + e) <= F2R v.
Proof.
  intros V F [H1 HB] HB23.
  destruct (normal_form v V F) as (m & e & E & He & Hm).
  { rewrite Rabs_pos_eq; lra. }
  rewrite Rabs_pos_eq in E by lra.
  assert (P := bpow_pos e).
  assert (M1 : bpow 23 <= IZR (Zpos m)).
  { rewrite bpow_IZR by lia. apply IZR_le. lia. }
  assert (M2 : IZR (Zpos m) < bpow 24).
  { rewrite bpow_IZR by lia. apply IZR_lt. lia. }
  assert (Lo : bpow (23 + e) <= F2R v).
  { rewrite bpow_add, E. apply Rmult_le_compat_r; lra. }
  assert (Hi : F2R v < bpow (24 + e)).
  { rewrite bpow_add, E. apply Rmult_lt_compat_r; lra. }
  exists e. split.
  - split; [exact He|].
    destruct (Z_le_gt_dec e 0) as [L|G]; [exact L|exfalso].
    assert (bpow 24 <= bpow (23 + e)) by (apply bpow_le; lia).
    assert (IZR B <= bpow 23).
    { rewrite bpow_IZR by lia. apply IZR_le. exact HB23. }
    assert (bpow 23 < bpow 24) by (apply bpow_lt; lia). lra.
  - split; [exists (Zpos m); exact E|]. split; assumption.
Qed.

(** [fl(v + 1.0f)] is a grid line beyond [v], less than 2 away, and not
    beyond the line [L] when [L] is no power of two. *)
Lemma step_up v (L : Z) :
  valid v = true -> is_finite v = true -> 1 <= F2R v < IZR L ->
  (L <= 2 ^ 20)%Z -> pow2b L = false ->
  exists i, fl (v + F1)%f32 = Ok i
            /\ F2R v < IZR i /\ (i <= L)%Z /\ IZR i - F2R v < 2.
Proof.
  intros V F [H1 HL] HL20 Hp.
  assert (L20 : IZR L <= bpow 20).
  { rewrite bpow_IZR by lia. apply IZR_le. exact HL20. }
  assert (B2023 : bpow 20 + 2 < bpow 23).
  { rewrite !bpow_IZR by lia. rewrite <- plus_IZR. apply IZR_lt. lia. }
  assert (R := fadd_rounds v F1 V eq_refl F eq_refl). rewrite F2R_F1 in R.
  assert (Vu := rounds_valid _ _ R).
  assert (Fu : is_finite (v + F1)%f32 = true).
  { apply (rounds_finite _ _ R). rewrite Rabs_pos_eq by lra.
    apply Rlt_le_trans with (bpow 127); [|apply Tov_ge].
    assert (bpow 23 < bpow 127) by (apply bpow_lt; lia). lra. }
  destruct (floor_exists (F2R v)) as (n & Hn0 & Hn); [lra|].
  assert (HnL : (1 <= n < L)%Z).
  { assert (A : IZR 1 < IZR n + 1) by lra. rewrite <- plus_IZR in A.
    assert (B : IZR n < IZR L) by lra. apply lt_IZR in A, B. lia. }
  destruct (of_int_exact (n + 1)) as (Vg & Fg & Eg); [lia|].
  rewrite plus_IZR in Eg.
  assert (Lo : IZR n + 1 <= F2R (v + F1)%f32).
  { rewrite <- Eg. apply (rounds_ge_float _ _ _ R Fu Vg Fg). lra. }
  assert (Up : F2R (v + F1)%f32 < F2R v + 2).
  { assert (N := rounds_nearest _ _ _ R Fu Vg Fg). rewrite Eg in N.
    revert N. absr. }
  destruct (fl_spec (v + F1)%f32 Vu Fu) as (i & Ei & Hi0 & Hi); [lra|].
  exists i. split; [exact Ei|].
  assert (Hin : (n + 1 <= i <= n + 2)%Z).
  { assert (A : IZR (n + 1) < IZR (i + 1)) by (rewrite !plus_IZR; lra).
    assert (B : IZR i < IZR (n + 3)) by (rewrite plus_IZR; lra).
    apply lt_IZR in A, B. lia. }
  assert (Hni : IZR n + 1 <= IZR i).
  { rewrite <- plus_IZR. apply IZR_le. lia. }
  split; [lra|]. split; [|lra].
  destruct (Z_le_gt_dec i L) as [Le|Gt]; [exact Le|exfalso].
  assert (En : n = (L - 1)%Z) by lia.
  destruct (own_grid v L V F) as (e & He & Mv & Hv & _); [lra|lia|].
  assert (P : bpow (24 + e) = IZR (2 ^ (24 + e))) by (apply bpow_IZR; lia).
  assert (HP : (L + 1 <= 2 ^ (24 + e))%Z).
  { assert (A : IZR (L - 1) < IZR (2 ^ (24 + e))) by (rewrite <- P, <- En; lra).
    apply lt_IZR in A.
    assert (NP := not_pow2 L (24 + e) Hp ltac:(lia)). lia. }
  assert (HP' : IZR L + 1 <= bpow (24 + e)).
  { rewrite P, <- plus_IZR. apply IZR_le. exact HP. }
  destruct (fadd_exact e v F1 V eq_refl F eq_refl Mv) as [_ Ex].
  - apply (multiple_int e F1 1); [lia|exact F2R_F1].
  - lia.
  - rewrite F2R_F1, Rabs_pos_eq; lra.
  - rewrite F2R_F1 in Ex.
    assert (A : IZR i < IZR (L + 1)) by (rewrite plus_IZR; lra).
    apply lt_IZR in A. lia.
Qed.

(** [cl(v - 1.0f)] is the grid line before [v]. *)
Lemma step_down v :
  valid v = true -> is_finite v = true -> 1 <= F2R v <= bpow 20 ->
  exists i, cl (v - F1)%f32 = Ok i
            /\ (0 <= i)%Z /\ IZR i < F2R v <= IZR i + 1.
Proof.
  intros V F [H1 H20].
  assert (B2023 : bpow 20 < bpow 23) by (apply bpow_lt; lia).
  destruct (own_grid v (2 ^ 23) V F) as (e & He & Mv & Hv & _).
  { rewrite <- bpow_IZR by lia. lra. }
  { lia. }
  destruct (fsub_exact e v F1 V eq_refl F eq_refl Mv) as [Fu Ex].
  - apply (multiple_int e F1 1); [lia|exact F2R_F1].
  - lia.
  - rewrite F2R_F1, Rabs_pos_eq; lra.
  - rewrite F2R_F1 in Ex.
    assert (Vu := rounds_valid _ _ (fsub_rounds v F1 V eq_refl F eq_refl)).
    destruct (cl_spec (v - F1)%f32 Vu Fu) as (i & Ei & Hi0 & Hi); [lra|].
    exists i. split; [exact Ei|]. split; [exact Hi0|lra].
Qed.


Lemma dir_sq p : dir p * dir p = 1.
Proof. destruct p; unfold dir; lra. Qed.

Lemma multiple_nonzero e u :
  multiple e u -> F2R u <> 0 -> bpow e <= Rabs (F2R u).
Proof.
  intros [z Ez] Nz. rewrite Ez in *. assert (P := bpow_pos e).
  rewrite Rabs_mult, (Rabs_pos_eq (bpow e)) by lra.
  assert (Hz : z <> 0%Z) by (intros ->; apply Nz; ring).
  assert (1 <= Rabs (IZR z)).
  { rewrite <- abs_IZR. apply IZR_le. lia. }
  nra.
Qed.

Lemma multiple_sub e u v (f : float) :
  multiple e u -> multiple e v -> F2R f = F2R u - F2R v -> multiple e f.
Proof.
  intros [zu Eu] [zv Ev] E. exists (zu - zv)%Z.
  rewrite E, Eu, Ev, minus_IZR. ring.
Qed.

(** One step along an axis: the grid line [sh] or [sv] goes to, and the
    exact distance to it. *)
Lemma axis_step (p : bool) (v : float) (L : Z) :
  valid v = true -> is_finite v = true ->
  1 <= F2R v <= IZR L -> (p = true -> F2R v < IZR L) ->
  (L <= 2 ^ 20)%Z -> pow2b L = false ->
  exists i,
    (if p then fl (v + F1)%f32 else cl (v - F1)%f32) = Ok i
    /\ (0 <= i <= L)%Z
    /\ valid (of_int i) = true /\ is_finite (of_int i) = true
    /\ F2R (of_int i) = IZR i
    /\ valid (of_int i - v)%f32 = true /\ is_finite (of_int i - v)%f32 = true
    /\ F2R (of_int i - v)%f32 = IZR i - F2R v
    /\ bpow (-23) <= dir p * (IZR i - F2R v) < 2.
Proof.
  intros V F [H1 HL] Hp HL20 Pw.
  assert (L20 : IZR L <= bpow 20).
  { rewrite bpow_IZR by lia. apply IZR_le. exact HL20. }
  assert (Hi : exists i,
    (if p then fl (v + F1)%f32 else cl (v - F1)%f32) = Ok i
    /\ (0 <= i <= L)%Z /\ 0 < dir p * (IZR i - F2R v) < 2).
  { destruct p.
    - destruct (step_up v L V F) as (i & Ei & A & B & C); auto.
      exists i. split; [exact Ei|]. unfold dir. split; [|lra].
      split; [|exact B]. assert (D : IZR 0 < IZR i) by lra.
      apply lt_IZR in D. lia.
    - destruct (step_down v V F) as (i & Ei & A & B); [lra|].
      exists i. split; [exact Ei|]. unfold dir. split; [|lra].
      split; [exact A|]. assert (D : IZR i < IZR L) by lra.
      apply lt_IZR in D. lia. }
  destruct Hi as (i & Ei & Hi & Hd).
  destruct (of_int_exact i) as (Vi & Fi & Xi); [lia|].
  assert (Mv : multiple (-23) v).
  { apply multiple_ge1; auto. rewrite Rabs_pos_eq; lra. }
  assert (Mi : multiple (-23) (of_int i)) by (apply (multiple_int _ _ i); [lia|exact Xi]).
  assert (Hab : Rabs (F2R (of_int i) - F2R v) < 2).
  { rewrite Xi. destruct p; unfold dir in Hd; revert Hd; absr. }
  destruct (fsub_exact_near _ _ Vi V Fi F Mi Mv Hab) as [Fs Es].
  assert (Vs := rounds_valid _ _ (fsub_rounds _ _ Vi V Fi F)).
  exists i. rewrite Xi in Es. repeat split; auto; try lia; try lra.
  assert (Ms := multiple_sub _ _ _ _ Mi Mv (eq_trans Es (f_equal (fun t => t - F2R v) (eq_sym Xi)))).
  assert (Nz : F2R (of_int i - v)%f32 <> 0).
  { rewrite Es. destruct p; unfold dir in Hd; lra. }
  assert (Hm := multiple_nonzero _ _ Ms Nz). rewrite Es in Hm.
  destruct p; unfold dir in *; revert Hm; absr.
Qed.

(** The grid line a step goes to is the first one ahead, but for a forward
    step from less than 1 below a power of two, which may go to the line
    after it. *)
Lemma step_line (p : bool) (v : float) (L i : Z) :
  valid v = true -> is_finite v = true ->
  1 <= F2R v <= IZR L -> (p = true -> F2R v < IZR L) ->
  (L <= 2 ^ 20)%Z -> pow2b L = false ->
  (if p then fl (v + F1)%f32 else cl (v - F1)%f32) = Ok i ->
  first_line p (F2R v) i \/ skipped_line p (F2R v) i.
Proof.
  intros V F [H1 HL] Hp HL20 Pw Ei.
  assert (L20 : IZR L <= bpow 20).
  { rewrite bpow_IZR by lia. apply IZR_le. exact HL20. }
  destruct p.
  - specialize (Hp eq_refl).
    destruct (step_up v L V F) as (i0 & Ei0 & A & B & C); auto.
    rewrite Ei in Ei0. injection Ei0 as <-.
    destruct (floor_exists (F2R v)) as (n & Hn0 & Hn); [lra|].
    assert (Hin : (n + 1 <= i <= n + 2)%Z).
    { assert (X : IZR n < IZR i) by lra.
      assert (Y : IZR i < IZR (n + 3)) by (rewrite plus_IZR; lra).
      apply lt_IZR in X, Y. lia. }
    destruct (Z.eq_dec i (n + 1)) as [E|E].
    + left. unfold first_line. subst i. rewrite plus_IZR. lra.
    + assert (E2 : i = (n + 2)%Z) by lia.
      right. unfold skipped_line. split; [reflexivity|].
      subst i. rewrite plus_IZR. split; [|lra].
      replace (n + 2 - 1)%Z with (n + 1)%Z by lia.
      destruct (pow2b (n + 1)) eqn:P; [reflexivity|exfalso].
      assert (HnL : (n + 1 <= L)%Z).
      { assert (X : IZR n < IZR L) by lra. apply lt_IZR in X. lia. }
      destruct (step_up v (n + 1) V F) as (i1 & Ei1 & _ & B1 & _); auto.
      * rewrite plus_IZR. lra.
      * lia.
      * rewrite Ei in Ei1. injection Ei1 as <-. lia.
  - destruct (step_down v V F) as (i0 & Ei0 & A & B); [lra|].
    rewrite Ei in Ei0. injection Ei0 as <-.
    left. unfold first_line. lra.
Qed.

(** ** The slope of the direction *)

Lemma fgt_zero_iff f :
  valid f = true -> is_finite f = true ->
  ((f >? F0)%f32 = true <-> 0 < F2R f).
Proof.
  intros V F. unfold fgt.
  change 0 with (F2R F0) at 1. apply flt_spec; auto.
Qed.

Lemma dir_pos f :
  valid f = true -> is_finite f = true -> F2R f <> 0 ->
  0 < dir (f >? F0)%f32 * F2R f.
Proof.
  intros V F Nz. assert (H := fgt_zero_iff f V F).
  destruct (f >? F0)%f32; unfold dir.
  - assert (0 < F2R f) by (apply H; reflexivity). lra.
  - destruct (Rle_or_lt (F2R f) 0) as [L|G]; [lra|].
    apply H in G. discriminate.
Qed.

Lemma slope_cases (d : Point) :
  valid (x d) = true -> valid (y d) = true ->
  is_finite (x d) = true -> is_finite (y d) = true ->
  F2R (x d) <> 0 \/ F2R (y d) <> 0 ->
  (exists s, slope d = S754_infinity s)
  \/ (valid (slope d) = true /\ is_finite (slope d) = true
      /\ (F2R (slope d) = 0
          \/ 0 < dir (x d >? F0)%f32 * dir (y d >? F0)%f32 * F2R (slope d))).
Proof.
  intros Vx Vy Fx Fy Nz. unfold slope.
  destruct (Req_dec (F2R (x d)) 0) as [Zx|Nx].
  - left. destruct Nz as [Nz|Nz]; [contradiction|].
    destruct (finite_zero _ Fx Zx) as [s ->].
    destruct (y d) as [sy|sy| |sy my ey]; try discriminate.
    + simpl in Nz. lra.
    + eexists. reflexivity.
  - assert (R := fdiv_rounds (y d) (x d) Fy Fx Nx).
    destruct (is_finite (y d / x d)%f32) eqn:Ff.
    + right. split; [exact (rounds_valid _ _ R)|]. split; [reflexivity|].
      destruct (Req_dec (F2R (y d)) 0) as [Zy|Ny].
      * left. rewrite Zy in R. unfold Rdiv in R. rewrite Rmult_0_l in R.
        exact (proj2 (rounds_zero_inv _ R)).
      * destruct (Req_dec (F2R (y d / x d)%f32) 0) as [Z|N]; [left; exact Z|right].
        assert (Px := dir_pos _ Vx Fx Nx). assert (Py := dir_pos _ Vy Fy Ny).
        set (sx := dir (x d >? F0)%f32) in *. set (sy := dir (y d >? F0)%f32) in *.
        assert (Hq : 0 < sx * sy * (F2R (y d) / F2R (x d))).
        { replace (sx * sy * (F2R (y d) / F2R (x d)))
            with ((sy * F2R (y d)) / (sx * F2R (x d)) * (sx * sx)).
          - unfold sx. rewrite dir_sq, Rmult_1_r.
            apply Rdiv_lt_0_compat; assumption.
          - field. split; [exact Nx|]. unfold sx, dir. destruct (x d >? F0)%f32; lra. }
        assert (S1 : sx * sy = 1 \/ sx * sy = -1).
        { unfold sx, sy, dir.
          destruct (x d >? F0)%f32; destruct (y d >? F0)%f32; lra. }
        destruct S1 as [S1|S1]; rewrite S1 in *.
        -- assert (0 <= F2R (y d / x d)%f32)
             by (apply (rounds_nonneg _ _ R Ff); lra). lra.
        -- assert (F2R (y d / x d)%f32 <= 0)
             by (apply (rounds_nonpos _ _ R Ff); lra). lra.
    + left. assert (Nn := rounds_not_nan _ _ R).
      destruct (y d / x d)%f32; try discriminate; eexists; reflexivity.
Qed.



(** ** Infinities in the steps *)

Lemma rounds_gi v f : rounds v f -> gi f.
Proof.
  intros R. destruct (is_finite f) eqn:F.
  - left. split; [exact (rounds_valid _ _ R)|exact F].
  - right. assert (N := rounds_not_nan _ _ R).
    destruct f; try discriminate. eexists. reflexivity.
Qed.

Lemma rounds_nn v f : rounds v f -> 0 <= v -> nn f.
Proof.
  intros R Hv. destruct (is_finite f) eqn:F.
  - left. split; [exact (rounds_valid _ _ R)|]. split; [exact F|].
    exact (rounds_nonneg _ _ R F Hv).
  - right. assert (N := rounds_not_nan _ _ R). assert (T := Tov_pos).
    destruct f as [|[|]| |]; try discriminate; [|reflexivity].
    simpl in R. lra.
Qed.

Lemma finite_nonzero_form u :
  is_finite u = true -> F2R u <> 0 -> exists s m e, u = S754_finite s m e.
Proof.
  destruct u as [s|s| |s m e]; try discriminate; intros _ H.
  - simpl in H. lra.
  - eauto.
Qed.

Lemma gi_fmul sl u :
  gi sl -> valid u = true -> is_finite u = true -> F2R u <> 0 ->
  gi (sl * u)%f32.
Proof.
  intros [[V F]|[s ->]] Vu Fu Nz.
  - exact (rounds_gi _ _ (fmul_rounds sl u V Vu F Fu)).
  - destruct (finite_nonzero_form u Fu Nz) as (s' & m & e & ->).
    right. eexists. reflexivity.
Qed.

Lemma gi_fadd s u :
  gi s -> valid u = true -> is_finite u = true -> gi (s + u)%f32.
Proof.
  intros [[V F]|[s' ->]] Vu Fu.
  - exact (rounds_gi _ _ (fadd_rounds s u V Vu F Fu)).
  - right. destruct u; try discriminate; eexists; reflexivity.
Qed.

Lemma gi_fsub s u :
  gi s -> valid u = true -> is_finite u = true -> gi (s - u)%f32.
Proof.
  intros [[V F]|[s' ->]] Vu Fu.
  - exact (rounds_gi _ _ (fsub_rounds s u V Vu F Fu)).
  - right. destruct u; try discriminate; eexists; reflexivity.
Qed.

Lemma gi_fdiv u sl :
  valid u = true -> is_finite u = true -> F2R u <> 0 -> gi sl ->
  gi (u / sl)%f32.
Proof.
  intros Vu Fu Nz [[V F]|[s ->]].
  - destruct (Req_dec (F2R sl) 0) as [Z|N].
    + destruct (finite_zero sl F Z) as [s ->].
      destruct (finite_nonzero_form u Fu Nz) as (s' & m & e & ->).
      right. eexists. reflexivity.
    + exact (rounds_gi _ _ (fdiv_rounds u sl Fu F N)).
  - destruct (finite_nonzero_form u Fu Nz) as (s' & m & e & ->).
    left. split; reflexivity.
Qed.

Lemma sq_nn u : gi u -> nn (u * u)%f32.
Proof.
  intros [[V F]|[s ->]].
  - apply (rounds_nn _ _ (sq_rounds u V F)). nra.
  - right. destruct s; reflexivity.
Qed.

Lemma fadd_nn u v : nn u -> nn v -> nn (u + v)%f32.
Proof.
  intros [(Vu & Fu & Pu)| ->] [(Vv & Fv & Pv)| ->].
  - apply (rounds_nn _ _ (fadd_rounds u v Vu Vv Fu Fv)). lra.
  - right. destruct u; try discriminate; reflexivity.
  - right. destruct v; try discriminate; reflexivity.
  - right. reflexivity.
Qed.

Lemma fsqrt_nn u : nn u -> nn (fsqrt u).
Proof.
  intros [(Vu & Fu & Pu)| ->].
  - apply (rounds_nn _ _ (fsqrt_rounds u Fu Pu)). apply sqrt_pos.
  - right. reflexivity.
Qed.

Lemma mag_nn p : gi (x p) -> gi (y p) -> nn (mag p).
Proof.
  intros Gx Gy. unfold mag. apply fsqrt_nn, fadd_nn; apply sq_nn; assumption.
Qed.

Lemma fadd_inf_l v : nn v -> (S754_infinity false + v)%f32 = S754_infinity false.
Proof.
  intros [(Vv & Fv & Pv)| ->]; [|reflexivity].
  destruct v; try discriminate; reflexivity.
Qed.

Lemma fadd_inf_r v : nn v -> (v + S754_infinity false)%f32 = S754_infinity false.
Proof.
  intros [(Vv & Fv & Pv)| ->]; [|reflexivity].
  destruct v; try discriminate; reflexivity.
Qed.

Lemma mag_inf_x p s :
  x p = S754_infinity s -> gi (y p) -> mag p = S754_infinity false.
Proof.
  intros E Gy. unfold mag. rewrite E.
  replace (S754_infinity s * S754_infinity s)%f32 with (S754_infinity false)
    by (destruct s; reflexivity).
  rewrite fadd_inf_l by (apply sq_nn; exact Gy). reflexivity.
Qed.

Lemma mag_inf_y p s :
  y p = S754_infinity s -> gi (x p) -> mag p = S754_infinity false.
Proof.
  intros E Gx. unfold mag. rewrite E.
  replace (S754_infinity s * S754_infinity s)%f32 with (S754_infinity false)
    by (destruct s; reflexivity).
  rewrite fadd_inf_r by (apply sq_nn; exact Gx). reflexivity.
Qed.

Lemma flt_inf u : is_finite u = true -> (u <? S754_infinity false)%f32 = true.
Proof. destruct u as [s|s| |[|] m e]; try discriminate; reflexivity. Qed.

Lemma flt_nn_finite u v : nn u -> (u <? v)%f32 = true -> is_finite u = true.
Proof.
  intros [(_ & F & _)| ->] H; [exact F|].
  destruct v as [|[|]| |]; discriminate.
Qed.

(** When [v] is not chosen by [<], and [u] is a number, [v] is a number
    that is not greater. *)
Lemma flt_false_le u v :
  valid u = true -> is_finite u = true -> nn v ->
  (u <? v)%f32 = false ->
  is_finite v = true /\ F2R v <= F2R u.
Proof.
  intros Vu Fu [(Vv & Fv & Pv)| ->] H.
  - split; [exact Fv|].
    destruct (Rle_or_lt (F2R v) (F2R u)) as [L|G]; [exact L|].
    apply (flt_spec u v Vu Vv Fu Fv) in G. congruence.
  - rewrite flt_inf in H by exact Fu. discriminate.
Qed.

Lemma sq_nonneg_R r : 0 <= r * r.
Proof. destruct (Rle_or_lt 0 r); [apply Rmult_le_pos; lra|]. 
  replace (r * r) with ((- r) * (- r)) by ring. apply Rmult_le_pos; lra. Qed.

Lemma sq_le_R r s : 0 <= r <= s -> r * r <= s * s.
Proof. intros H. apply Rmult_le_compat; lra. Qed.

Lemma pow4_lower u : 0 <= u <= 1 -> 1 - 4 * u <= (1 - u) ^ 4.
Proof.
  intros H. replace ((1 - u) ^ 4) with (1 - 4 * u + u * u * ((2 - u) * (2 - u) + 2)) by ring.
  assert (A := sq_nonneg_R u). assert (B := sq_nonneg_R (2 - u)).
  assert (0 <= u * u * ((2 - u) * (2 - u) + 2)) by (apply Rmult_le_pos; lra). lra.
Qed.

Lemma pow4_upper u : 0 <= u <= / 10 -> (1 + u) ^ 4 <= 1 + 5 * u.
Proof.
  intros H. replace ((1 + u) ^ 4) with (1 + 4 * u + u * (u * (6 + u * (4 + u)))) by ring.
  assert (A : u * (4 + u) <= / 10 * 5) by (apply Rmult_le_compat; lra).
  assert (B : u * (6 + u * (4 + u)) <= / 10 * 7).
  { apply Rmult_le_compat; try lra. assert (0 <= u * (4 + u)) by (apply Rmult_le_pos; lra). lra. }
  assert (C : u * (u * (6 + u * (4 + u))) <= u * 1) by (apply Rmult_le_compat_l; lra).
  lra.
Qed.

(** The two distances [cmp] compares cannot be in the wrong order when the
    crossing of [sv] is a quarter of a cell past the line of [sh]. *)
Lemma gap_contra a b u E m M0 :
  0 < a < 2 -> 0 < b < 2 -> 0 < u <= / 1000000 ->
  (1 - u) * (a + / 4) <= E ->
  (1 - u) ^ 4 * (E * E + b * b) <= m * m ->
  M0 * M0 <= (1 + u) ^ 4 * (a * a + b * b) ->
  0 <= m <= M0 -> False.
Proof.
  intros Ha Hb Hu HE Hm HM Hmm.
  assert (L4 := pow4_lower u ltac:(lra)). assert (U4 := pow4_upper u ltac:(lra)).
  assert (Hsq : m * m <= M0 * M0) by (apply sq_le_R; lra).
  set (c := a + / 4) in *.
  assert (Hc : / 4 < c < 9 / 4) by (unfold c; lra).
  assert (E0 : 0 <= (1 - u) * c) by (apply Rmult_le_pos; lra).
  assert (HE2 : (1 - u) * c * ((1 - u) * c) <= E * E) by (apply sq_le_R; lra).
  assert (Hcc1 : 0 <= c * c) by apply sq_nonneg_R.
  assert (Hcc2 : c * c <= 9 / 4 * (9 / 4)) by (apply sq_le_R; lra).
  assert (Hbb1 : 0 <= b * b) by apply sq_nonneg_R.
  assert (Hbb2 : b * b <= 2 * 2) by (apply sq_le_R; lra).
  assert (Haa1 : 0 <= a * a) by apply sq_nonneg_R.
  assert (Haa2 : a * a <= 2 * 2) by (apply sq_le_R; lra).
  assert (Huu : 0 <= u * u) by apply sq_nonneg_R.
  assert (Hcc : (1 - 2 * u) * (c * c) <= E * E).
  { apply Rle_trans with ((1 - u) * c * ((1 - u) * c)); [|exact HE2].
    replace ((1 - u) * c * ((1 - u) * c))
      with ((1 - 2 * u) * (c * c) + u * u * (c * c)) by ring.
    assert (0 <= u * u * (c * c)) by (apply Rmult_le_pos; assumption). lra. }
  assert (Q1 : u * (c * c) <= u * (9 / 4 * (9 / 4))) by (apply Rmult_le_compat_l; lra).
  assert (Q2 : u * (b * b) <= u * (2 * 2)) by (apply Rmult_le_compat_l; lra).
  assert (Q3 : u * (a * a) <= u * (2 * 2)) by (apply Rmult_le_compat_l; lra).
  assert (Q0 : 0 <= (1 - 2 * u) * (c * c) + b * b).
  { assert (0 <= (1 - 2 * u) * (c * c)) by (apply Rmult_le_pos; lra). lra. }
  (* the left side from below *)
  assert (T1 : (1 - 4 * u) * ((1 - 2 * u) * (c * c) + b * b) <= m * m).
  { apply Rle_trans with ((1 - u) ^ 4 * (E * E + b * b)); [|exact Hm].
    apply Rmult_le_compat; lra. }
  (* the right side from above *)
  assert (T2 : M0 * M0 <= (1 + 5 * u) * (a * a + b * b)).
  { apply Rle_trans with ((1 + u) ^ 4 * (a * a + b * b)); [exact HM|].
    apply Rmult_le_compat_r; lra. }
  assert (T3 : c * c = a * a + a / 2 + / 16) by (unfold c; field).
  assert (T4 : c * c + b * b - 6 * (u * (c * c)) - 4 * (u * (b * b))
               <= (1 - 4 * u) * ((1 - 2 * u) * (c * c) + b * b)).
  { replace ((1 - 4 * u) * ((1 - 2 * u) * (c * c) + b * b))
      with (c * c + b * b - 6 * (u * (c * c)) - 4 * (u * (b * b))
            + 8 * (u * u * (c * c))) by ring.
    assert (0 <= u * u * (c * c)) by (apply Rmult_le_pos; assumption). lra. }
  assert (T5 : (1 + 5 * u) * (a * a + b * b)
               = a * a + b * b + 5 * (u * (a * a)) + 5 * (u * (b * b))) by ring.
  lra.
Qed.


(** ** Rounding in the sense of a step *)

Lemma rounds_dir_le p v f g :
  rounds v f -> is_finite f = true -> valid g = true -> is_finite g = true ->
  dir p * v <= dir p * F2R g -> dir p * F2R f <= dir p * F2R g.
Proof.
  intros R F Vg Fg H. destruct p; unfold dir in *.
  - assert (F2R f <= F2R g) by (apply (rounds_le_float _ _ _ R F Vg Fg); lra). lra.
  - assert (F2R g <= F2R f) by (apply (rounds_ge_float _ _ _ R F Vg Fg); lra). lra.
Qed.

Lemma rounds_dir_ge p v f g :
  rounds v f -> is_finite f = true -> valid g = true -> is_finite g = true ->
  dir p * F2R g <= dir p * v -> dir p * F2R g <= dir p * F2R f.
Proof.
  intros R F Vg Fg H. destruct p; unfold dir in *.
  - assert (F2R g <= F2R f) by (apply (rounds_ge_float _ _ _ R F Vg Fg); lra). lra.
  - assert (F2R f <= F2R g) by (apply (rounds_le_float _ _ _ R F Vg Fg); lra). lra.
Qed.

Lemma rounds_dir_nonneg p v f :
  rounds v f -> is_finite f = true -> 0 <= dir p * v -> 0 <= dir p * F2R f.
Proof.
  intros R F H.
  assert (A := rounds_dir_ge p v f (S754_zero false) R F eq_refl eq_refl).
  simpl F2R in A. rewrite Rmult_0_r in A. apply A. exact H.
Qed.

Lemma dir_abs p v : 0 <= dir p * v -> Rabs v = dir p * v.
Proof. destruct p; unfold dir; intros H; [rewrite Rabs_pos_eq|rewrite Rabs_left1]; lra. Qed.

Lemma below_Tov v : Rabs v <= bpow 21 -> Rabs v < Tov.
Proof.
  intros H. apply Rle_lt_trans with (bpow 21); [exact H|].
  apply Rlt_le_trans with (bpow 127); [apply bpow_lt; lia|apply Tov_ge].
Qed.

Lemma bpow_20_21 : bpow 20 + 2 <= bpow 21.
Proof.
  rewrite !bpow_IZR by lia. rewrite <- plus_IZR. apply IZR_le. lia.
Qed.

Lemma mag22 : is_finite (mag {| x := F2; y := F2 |}) = true.
Proof. vm_compute. reflexivity. Qed.

Lemma dir_sq_mul p v : dir p * v * (dir p * v) = v * v.
Proof. destruct p; unfold dir; ring. Qed.

Section Candidates.

Variables (px py : bool) (sl wx wy xi yj : float).

Hypothesis Vwx : valid wx = true.
Hypothesis Fwx : is_finite wx = true.
Hypothesis Vwy : valid wy = true.
Hypothesis Fwy : is_finite wy = true.
Hypothesis Bwx : Rabs (F2R wx) <= bpow 20.
Hypothesis Bwy : Rabs (F2R wy) <= bpow 20.
Hypothesis Vxi : valid xi = true.
Hypothesis Fxi : is_finite xi = true.
Hypothesis Vyj : valid yj = true.
Hypothesis Fyj : is_finite yj = true.
Hypothesis VdX : valid (xi - wx)%f32 = true.
Hypothesis FdX : is_finite (xi - wx)%f32 = true.
Hypothesis EdX : F2R (xi - wx)%f32 = F2R xi - F2R wx.
Hypothesis HdX : bpow (-23) <= dir px * (F2R xi - F2R wx) < 2.
Hypothesis VdY : valid (yj - wy)%f32 = true.
Hypothesis FdY : is_finite (yj - wy)%f32 = true.
Hypothesis EdY : F2R (yj - wy)%f32 = F2R yj - F2R wy.
Hypothesis HdY : bpow (-23) <= dir py * (F2R yj - F2R wy) < 2.

(** The steps to the line [yj] when the slope is a number and the
    crossing of [xi] is not past [yj]. *)
Lemma sh_forward :
  valid sl = true -> is_finite sl = true ->
  0 <= dir px * dir py * F2R sl ->
  dir px * dir py * F2R sl * (dir px * (F2R xi - F2R wx))
    <= dir py * (F2R yj - F2R wy) ->
  valid (sh_y sl wx wy xi) = true /\ is_finite (sh_y sl wx wy xi) = true
  /\ 0 <= dir py * (F2R (sh_y sl wx wy xi) - F2R wy)
  /\ dir py * (F2R (sh_y sl wx wy xi) - F2R yj) <= 0
  /\ valid (sh_y sl wx wy xi - wy)%f32 = true
  /\ is_finite (sh_y sl wx wy xi - wy)%f32 = true
  /\ 0 <= dir py * F2R (sh_y sl wx wy xi - wy)%f32
       <= dir py * (F2R yj - F2R wy).
Proof.
  intros Vs Fs Hl Hle. unfold sh_y.
  assert (P23 := bpow_pos (-23)). assert (B21 := bpow_20_21).
  assert (P20 := bpow_pos 20).
  set (a := dir px * (F2R xi - F2R wx)) in *.
  set (b := dir py * (F2R yj - F2R wy)) in *.
  set (l := dir px * dir py * F2R sl) in *.
  assert (Hla : 0 <= l * a) by (apply Rmult_le_pos; lra).
  assert (Ep : dir py * (F2R sl * F2R (xi - wx)%f32) = l * a).
  { rewrite EdX. unfold l, a.
    replace (dir px * dir py * F2R sl * (dir px * (F2R xi - F2R wx)))
      with (dir px * dir px * (dir py * (F2R sl * (F2R xi - F2R wx)))) by ring.
    rewrite dir_sq. ring. }
  assert (R1 := fmul_rounds sl (xi - wx)%f32 Vs VdX Fs FdX).
  assert (F1 : is_finite (sl * (xi - wx))%f32 = true).
  { apply (rounds_finite _ _ R1), below_Tov.
    rewrite (dir_abs py) by (rewrite Ep; exact Hla). rewrite Ep. lra. }
  assert (V1 := rounds_valid _ _ R1).
  assert (L1 : 0 <= dir py * F2R (sl * (xi - wx))%f32 <= b).
  { split.
    - apply (rounds_dir_nonneg _ _ _ R1 F1). rewrite Ep. exact Hla.
    - unfold b. rewrite <- EdY.
      apply (rounds_dir_le _ _ _ _ R1 F1 VdY FdY). rewrite Ep, EdY. exact Hle. }
  set (s := (sl * (xi - wx))%f32) in *.
  assert (R2 := fadd_rounds s wy V1 Vwy F1 Fwy).
  assert (Hs : Rabs (F2R s) <= 2).
  { rewrite (dir_abs py) by lra. lra. }
  assert (F2 : is_finite (s + wy)%f32 = true).
  { apply (rounds_finite _ _ R2), below_Tov.
    apply Rle_trans with (Rabs (F2R s) + Rabs (F2R wy)); [apply Rabs_triang|lra]. }
  assert (V2 := rounds_valid _ _ R2).
  assert (L2a : dir py * F2R wy <= dir py * F2R (s + wy)%f32).
  { apply (rounds_dir_ge _ _ _ _ R2 F2 Vwy Fwy). lra. }
  assert (L2b : dir py * F2R (s + wy)%f32 <= dir py * F2R yj).
  { apply (rounds_dir_le _ _ _ _ R2 F2 Vyj Fyj). unfold b in L1. lra. }
  set (y1 := (s + wy)%f32) in *.
  assert (R3 := fsub_rounds y1 wy V2 Vwy F2 Fwy).
  assert (Hy : 0 <= dir py * (F2R y1 - F2R wy) <= b) by (unfold b; lra).
  assert (F3 : is_finite (y1 - wy)%f32 = true).
  { apply (rounds_finite _ _ R3), below_Tov.
    rewrite (dir_abs py) by lra. lra. }
  assert (V3 := rounds_valid _ _ R3).
  assert (L3 : 0 <= dir py * F2R (y1 - wy)%f32 <= b).
  { split.
    - apply (rounds_dir_nonneg _ _ _ R3 F3). lra.
    - unfold b. rewrite <- EdY.
      apply (rounds_dir_le _ _ _ _ R3 F3 VdY FdY). rewrite EdY. unfold b in Hy. lra. }
  repeat split; auto; lra.
Qed.


(** The steps to the line [xi] when the slope is a number other than 0 and
    the crossing of [yj] is not past [xi]. *)
Lemma sv_forward :
  valid sl = true -> is_finite sl = true ->
  0 < dir px * dir py * F2R sl ->
  dir py * (F2R yj - F2R wy)
    <= dir px * dir py * F2R sl * (dir px * (F2R xi - F2R wx)) ->
  valid (sv_x sl wx wy yj) = true /\ is_finite (sv_x sl wx wy yj) = true
  /\ 0 <= dir px * (F2R (sv_x sl wx wy yj) - F2R wx)
  /\ dir px * (F2R (sv_x sl wx wy yj) - F2R xi) <= 0
  /\ valid (sv_x sl wx wy yj - wx)%f32 = true
  /\ is_finite (sv_x sl wx wy yj - wx)%f32 = true
  /\ 0 <= dir px * F2R (sv_x sl wx wy yj - wx)%f32
       <= dir px * (F2R xi - F2R wx).
Proof.
  intros Vs Fs Hl Hle. unfold sv_x.
  assert (P23 := bpow_pos (-23)). assert (B21 := bpow_20_21).
  assert (P20 := bpow_pos 20).
  set (a := dir px * (F2R xi - F2R wx)) in *.
  set (b := dir py * (F2R yj - F2R wy)) in *.
  set (l := dir px * dir py * F2R sl) in *.
  assert (Nz : F2R sl <> 0) by (intros Z; unfold l in Hl; rewrite Z in Hl; lra).
  assert (Hq : 0 <= b / l <= a).
  { split; [apply Rlt_le, Rdiv_lt_0_compat; lra|].
    apply Rmult_le_reg_r with l; [lra|]. unfold Rdiv.
    rewrite Rmult_assoc, Rinv_l by lra. lra. }
  assert (Ep : dir px * (F2R (yj - wy)%f32 / F2R sl) = b / l).
  { rewrite EdY. unfold l, b. destruct px, py; unfold dir; field; lra. }
  assert (R1 := fdiv_rounds (yj - wy)%f32 sl FdY Fs Nz).
  assert (F1 : is_finite ((yj - wy) / sl)%f32 = true).
  { apply (rounds_finite _ _ R1), below_Tov.
    rewrite (dir_abs px) by (rewrite Ep; lra). rewrite Ep. lra. }
  assert (V1 := rounds_valid _ _ R1).
  assert (L1 : 0 <= dir px * F2R ((yj - wy) / sl)%f32 <= a).
  { split.
    - apply (rounds_dir_nonneg _ _ _ R1 F1). rewrite Ep. lra.
    - unfold a. rewrite <- EdX.
      apply (rounds_dir_le _ _ _ _ R1 F1 VdX FdX). rewrite Ep, EdX. fold a. lra. }
  set (t := ((yj - wy) / sl)%f32) in *.
  assert (R2 := fadd_rounds t wx V1 Vwx F1 Fwx).
  assert (Ht : Rabs (F2R t) <= 2).
  { rewrite (dir_abs px) by lra. lra. }
  assert (F2 : is_finite (t + wx)%f32 = true).
  { apply (rounds_finite _ _ R2), below_Tov.
    apply Rle_trans with (Rabs (F2R t) + Rabs (F2R wx)); [apply Rabs_triang|lra]. }
  assert (V2 := rounds_valid _ _ R2).
  assert (L2a : dir px * F2R wx <= dir px * F2R (t + wx)%f32).
  { apply (rounds_dir_ge _ _ _ _ R2 F2 Vwx Fwx). lra. }
  assert (L2b : dir px * F2R (t + wx)%f32 <= dir px * F2R xi).
  { apply (rounds_dir_le _ _ _ _ R2 F2 Vxi Fxi). unfold a in L1. lra. }
  set (x2 := (t + wx)%f32) in *.
  assert (R3 := fsub_rounds x2 wx V2 Vwx F2 Fwx).
  assert (Hx : 0 <= dir px * (F2R x2 - F2R wx) <= a) by (unfold a; lra).
  assert (F3 : is_finite (x2 - wx)%f32 = true).
  { apply (rounds_finite _ _ R3), below_Tov.
    rewrite (dir_abs px) by lra. lra. }
  assert (V3 := rounds_valid _ _ R3).
  assert (L3 : 0 <= dir px * F2R (x2 - wx)%f32 <= a).
  { split.
    - apply (rounds_dir_nonneg _ _ _ R3 F3). lra.
    - unfold a. rewrite <- EdX.
      apply (rounds_dir_le _ _ _ _ R3 F3 VdX FdX). rewrite EdX. unfold a in Hx. lra. }
  repeat split; auto; lra.
Qed.


Hypothesis Hsl :
  (exists s, sl = S754_infinity s)
  \/ (valid sl = true /\ is_finite sl = true
      /\ (F2R sl = 0 \/ 0 < dir px * dir py * F2R sl)).

Lemma dX_nonzero : F2R (xi - wx)%f32 <> 0.
Proof.
  rewrite EdX. assert (P := bpow_pos (-23)).
  destruct px; unfold dir in HdX; lra.
Qed.

Lemma dY_nonzero : F2R (yj - wy)%f32 <> 0.
Proof.
  rewrite EdY. assert (P := bpow_pos (-23)).
  destruct py; unfold dir in HdY; lra.
Qed.

Lemma gi_sl : gi sl.
Proof.
  destruct Hsl as [[s E]|(V & F & _)]; [right; eauto|left; auto].
Qed.

Lemma gi_sh_y : gi (sh_y sl wx wy xi - wy)%f32.
Proof.
  unfold sh_y. apply gi_fsub; auto. apply gi_fadd; auto.
  apply gi_fmul; auto. apply gi_sl. apply dX_nonzero.
Qed.

Lemma gi_sv_x : gi (sv_x sl wx wy yj - wx)%f32.
Proof.
  unfold sv_x. apply gi_fsub; auto. apply gi_fadd; auto.
  apply gi_fdiv; auto. apply dY_nonzero. apply gi_sl.
Qed.

Lemma nn_msh : nn (mag {| x := (xi - wx)%f32; y := (sh_y sl wx wy xi - wy)%f32 |}).
Proof. apply mag_nn; cbn [x y]; [left; auto|apply gi_sh_y]. Qed.

Lemma nn_msv : nn (mag {| x := (sv_x sl wx wy yj - wx)%f32; y := (yj - wy)%f32 |}).
Proof. apply mag_nn; cbn [x y]; [apply gi_sv_x|left; auto]. Qed.

Lemma nn_finite_valid u : nn u -> is_finite u = true -> valid u = true.
Proof. intros [(V & _)| ->]; [auto|discriminate]. Qed.

(** When [cmp] takes the crossing of [sh], its second coordinate lies
    between [wy] and the line [yj]. *)
Lemma sh_chosen :
  (mag {| x := (xi - wx)%f32; y := (sh_y sl wx wy xi - wy)%f32 |}
   <? mag {| x := (sv_x sl wx wy yj - wx)%f32; y := (yj - wy)%f32 |})%f32 = true ->
  valid (sh_y sl wx wy xi) = true /\ is_finite (sh_y sl wx wy xi) = true
  /\ 0 <= dir py * (F2R (sh_y sl wx wy xi) - F2R wy)
  /\ dir py * (F2R (sh_y sl wx wy xi) - F2R yj) <= 0.
Proof.
  intros Hlt. assert (P23 := bpow_pos (-23)).
  assert (Fm := flt_nn_finite _ _ nn_msh Hlt).
  destruct (mag_finite_inv _ Fm) as (_ & Fey & _). cbn [x y] in Fey.
  destruct (fsub_finite_inv _ _ Fey) as [Fy1 _].
  assert (Fy1' := Fy1). unfold sh_y in Fy1'.
  destruct (fadd_finite_inv _ _ Fy1') as [Fs _].
  destruct (fmul_finite_inv _ _ Fs) as [Fsl _].
  destruct Hsl as [[s0 E]|(Vsl & _ & Hl)]; [rewrite E in Fsl; discriminate|].
  set (a := dir px * (F2R xi - F2R wx)) in *.
  set (b := dir py * (F2R yj - F2R wy)) in *.
  assert (Hl0 : 0 <= dir px * dir py * F2R sl).
  { destruct Hl as [Z|Pl]; [rewrite Z; lra|lra]. }
  destruct (Rle_or_lt (dir px * dir py * F2R sl * a) b) as [Le|Gt].
  - destruct (sh_forward Vsl Fsl Hl0 Le) as (A & B & C & D & _). auto.
  - exfalso.
    assert (Pl : 0 < dir px * dir py * F2R sl).
    { destruct Hl as [Z|Pl]; [rewrite Z in Gt; lra|exact Pl]. }
    destruct (sv_forward Vsl Fsl Pl (Rlt_le _ _ Gt)) as (_ & _ & _ & _ & Vex & Fex & Lex).
    fold a in Lex.
    (* the crossing of [sh] is at [yj] or past it *)
    set (l := dir px * dir py * F2R sl) in *.
    assert (Ep : dir py * (F2R sl * F2R (xi - wx)%f32) = l * a).
    { rewrite EdX. unfold l, a.
      replace (dir px * dir py * F2R sl * (dir px * (F2R xi - F2R wx)))
        with (dir px * dir px * (dir py * (F2R sl * (F2R xi - F2R wx)))) by ring.
      rewrite dir_sq. ring. }
    assert (R1 := fmul_rounds sl (xi - wx)%f32 Vsl VdX Fsl FdX).
    assert (V1 := rounds_valid _ _ R1).
    assert (L1 : b <= dir py * F2R (sl * (xi - wx))%f32).
    { unfold b. rewrite <- EdY.
      apply (rounds_dir_ge _ _ _ _ R1 Fs VdY FdY). rewrite Ep, EdY. fold b. lra. }
    assert (R2 : rounds (F2R (sl * (xi - wx))%f32 + F2R wy) (sh_y sl wx wy xi))
      by exact (fadd_rounds _ wy V1 Vwy Fs Fwy).
    assert (V2 := rounds_valid _ _ R2).
    assert (L2 : dir py * F2R yj <= dir py * F2R (sh_y sl wx wy xi)).
    { apply (rounds_dir_ge _ _ _ _ R2 Fy1 Vyj Fyj). unfold b in L1. lra. }
    assert (R3 : rounds (F2R (sh_y sl wx wy xi) - F2R wy) (sh_y sl wx wy xi - wy)%f32)
      by exact (fsub_rounds _ wy V2 Vwy Fy1 Fwy).
    assert (L3 : b <= dir py * F2R (sh_y sl wx wy xi - wy)%f32).
    { unfold b. rewrite <- EdY.
      apply (rounds_dir_ge _ _ _ _ R3 Fey VdY FdY). rewrite EdY. lra. }
    assert (V3 := rounds_valid _ _ R3).
    destruct (mag_mono
                {| x := (sv_x sl wx wy yj - wx)%f32; y := (yj - wy)%f32 |}
                {| x := (xi - wx)%f32; y := (sh_y sl wx wy xi - wy)%f32 |})
      as [Fv Lv]; cbn [x y]; auto.
    + rewrite (dir_abs px) by lra. rewrite (dir_abs px), EdX by (rewrite EdX; fold a; lra).
      fold a. lra.
    + rewrite (dir_abs py), EdY by (rewrite EdY; fold b; lra). fold b.
      rewrite (dir_abs py) by lra. lra.
    + assert (Vm := nn_finite_valid _ nn_msh Fm).
      assert (Vv := nn_finite_valid _ nn_msv Fv).
      apply (flt_spec _ _ Vm Vv Fm Fv) in Hlt. lra.
Qed.


Lemma small_mag_finite (ex ey : float) :
  valid ex = true -> valid ey = true ->
  is_finite ex = true -> is_finite ey = true ->
  Rabs (F2R ex) <= 2 -> Rabs (F2R ey) <= 2 ->
  is_finite (mag {| x := ex; y := ey |}) = true.
Proof.
  intros Vx Vy Fx Fy Hx Hy.
  destruct (mag_mono {| x := ex; y := ey |} {| x := F2; y := F2 |}) as [F _];
    cbn [x y]; auto; try exact mag22;
    rewrite F2R_F2, (Rabs_pos_eq 2) by lra; assumption.
Qed.

(** When [cmp] takes the crossing of [sv], its first coordinate lies
    between [wx] and a quarter of a cell past the line [xi]. *)
Lemma sv_chosen :
  (mag {| x := (xi - wx)%f32; y := (sh_y sl wx wy xi - wy)%f32 |}
   <? mag {| x := (sv_x sl wx wy yj - wx)%f32; y := (yj - wy)%f32 |})%f32 = false ->
  valid (sv_x sl wx wy yj) = true /\ is_finite (sv_x sl wx wy yj) = true
  /\ 0 <= dir px * (F2R (sv_x sl wx wy yj) - F2R wx)
  /\ dir px * (F2R (sv_x sl wx wy yj) - F2R xi) < / 4.
Proof.
  intros Hge. assert (P23 := bpow_pos (-23)).
  assert (Hu := bpow_m23).
  set (a := dir px * (F2R xi - F2R wx)) in *.
  set (b := dir py * (F2R yj - F2R wy)) in *.
  assert (Aa : Rabs (F2R (xi - wx)%f32) = a).
  { rewrite (dir_abs px), EdX by (rewrite EdX; fold a; lra). reflexivity. }
  assert (Ab : Rabs (F2R (yj - wy)%f32) = b).
  { rewrite (dir_abs py), EdY by (rewrite EdY; fold b; lra). reflexivity. }
  destruct Hsl as [[s0 E]|(Vsl & Fsl & Hl)].
  - (* an infinite slope: the crossing of [sv] is straight ahead *)
    destruct (finite_nonzero_form _ FdY dY_nonzero) as (s' & m & e & EY).
    unfold sv_x. rewrite E, EY.
    change (S754_finite s' m e / S754_infinity s0)%f32 with (S754_zero (xorb s' s0)).
    assert (R := fadd_rounds (S754_zero (xorb s' s0)) wx eq_refl Vwx eq_refl Fwx).
    simpl F2R in R. rewrite Rplus_0_l in R.
    destruct (rounds_exact wx _ Vwx Fwx R) as [F X].
    split; [exact (rounds_valid _ _ R)|]. split; [exact F|]. rewrite X.
    split; [rewrite Rminus_diag, Rmult_0_r; lra|].
    replace (dir px * (F2R wx - F2R xi)) with (- a) by (unfold a; ring). lra.
  - destruct Hl as [Z|Pl].
    + (* a slope of 0: the crossing of [sv] is at infinity *)
      exfalso.
      destruct (sh_forward Vsl Fsl) as (_ & _ & _ & _ & Vey & Fey & Ley).
      { rewrite Z. lra. }
      { rewrite Z, Rmult_0_r, Rmult_0_l. fold b. lra. }
      fold b in Ley.
      assert (Fm : is_finite (mag {| x := (xi - wx)%f32;
                                     y := (sh_y sl wx wy xi - wy)%f32 |}) = true).
      { apply small_mag_finite; auto; [rewrite Aa; lra|].
        rewrite (dir_abs py) by lra. lra. }
      destruct (finite_zero sl Fsl Z) as [s0 E].
      destruct (finite_nonzero_form _ FdY dY_nonzero) as (s' & m & e & EY).
      assert (Ex : exists s1, (sv_x sl wx wy yj - wx)%f32 = S754_infinity s1).
      { unfold sv_x. rewrite E, EY.
        change (S754_finite s' m e / S754_zero s0)%f32
          with (S754_infinity (xorb s' s0)).
        destruct wx; try discriminate; eexists; reflexivity. }
      destruct Ex as [s1 Ex].
      rewrite (mag_inf_x {| x := (sv_x sl wx wy yj - wx)%f32; y := (yj - wy)%f32 |} s1)
        in Hge; cbn [x y]; [|exact Ex|left; auto].
      rewrite flt_inf in Hge by exact Fm. discriminate.
    + set (l := dir px * dir py * F2R sl) in *.
      destruct (Rle_or_lt b (l * a)) as [Le|Gt].
      * destruct (sv_forward Vsl Fsl Pl Le) as (A & B & C & D & _).
        repeat split; auto. lra.
      * (* the crossing of [sh] is before the line [yj] *)
        destruct (sh_forward Vsl Fsl (Rlt_le _ _ Pl) (Rlt_le _ _ Gt))
          as (_ & _ & _ & _ & Vey & Fey & Ley).
        fold b in Ley.
        assert (Aey : Rabs (F2R (sh_y sl wx wy xi - wy)%f32) <= b).
        { rewrite (dir_abs py) by lra. lra. }
        assert (F0m : is_finite (mag {| x := (xi - wx)%f32; y := (yj - wy)%f32 |}) = true).
        { apply small_mag_finite; auto; [rewrite Aa|rewrite Ab]; lra. }
        destruct (mag_mono
                    {| x := (xi - wx)%f32; y := (sh_y sl wx wy xi - wy)%f32 |}
                    {| x := (xi - wx)%f32; y := (yj - wy)%f32 |})
          as [Fm Lm]; cbn [x y]; auto; [lra|rewrite Ab; exact Aey|].
        assert (Vm := nn_finite_valid _ nn_msh Fm).
        destruct (flt_false_le _ _ Vm Fm nn_msv Hge) as [Fv Lv].
        destruct (mag_finite_inv _ Fv) as (Fex & _). cbn [x y] in Fex.
        destruct (fsub_finite_inv _ _ Fex) as [Fx2 _].
        assert (Fx2' := Fx2). unfold sv_x in Fx2'.
        destruct (fadd_finite_inv _ _ Fx2') as [Ft _].
        assert (Nz : F2R sl <> 0) by (intros Z; unfold l in Pl; rewrite Z in Pl; lra).
        assert (Ep : dir px * (F2R (yj - wy)%f32 / F2R sl) = b / l).
        { rewrite EdY. unfold l, b. destruct px, py; unfold dir; field; lra. }
        assert (R1 := fdiv_rounds (yj - wy)%f32 sl FdY Fsl Nz).
        assert (V1 := rounds_valid _ _ R1).
        assert (L1 : 0 <= dir px * F2R ((yj - wy) / sl)%f32).
        { apply (rounds_dir_nonneg _ _ _ R1 Ft). rewrite Ep.
          apply Rlt_le, Rdiv_lt_0_compat; lra. }
        assert (R2 : rounds (F2R ((yj - wy) / sl)%f32 + F2R wx) (sv_x sl wx wy yj))
          by exact (fadd_rounds _ wx V1 Vwx Ft Fwx).
        assert (V2 := rounds_valid _ _ R2).
        assert (L2 : dir px * F2R wx <= dir px * F2R (sv_x sl wx wy yj)).
        { apply (rounds_dir_ge _ _ _ _ R2 Fx2 Vwx Fwx). lra. }
        split; [exact V2|]. split; [exact Fx2|]. split; [lra|].
        destruct (Rlt_or_le (dir px * (F2R (sv_x sl wx wy yj) - F2R xi)) (/ 4))
          as [Lt|Ge]; [exact Lt|exfalso].
        assert (R3 : rounds (F2R (sv_x sl wx wy yj) - F2R wx)
                            (sv_x sl wx wy yj - wx)%f32)
          by exact (fsub_rounds _ wx V2 Vwx Fx2 Fwx).
        assert (V3 := rounds_valid _ _ R3).
        set (v := F2R (sv_x sl wx wy yj) - F2R wx) in *.
        assert (Hv : a + / 4 <= dir px * v).
        { unfold v, a. unfold a in Ge. lra. }
        assert (Av : Rabs v = dir px * v) by (apply dir_abs; lra).
        assert (B126 : bpow (-126) <= bpow (-23)) by (apply bpow_le; lia).
        assert (Rl := rounds_rel _ _ R3 Fex).
        rewrite Av in Rl. specialize (Rl ltac:(right; lra)).
        set (E := dir px * F2R (sv_x sl wx wy yj - wx)%f32).
        assert (HE : (1 - bpow (-23)) * (a + / 4) <= E).
        { apply Rle_trans with ((1 - bpow (-23)) * (dir px * v)).
          - apply Rmult_le_compat_l; lra.
          - unfold E. revert Rl. destruct px; unfold dir; absr. }
        assert (B60 : bpow (-60) <= bpow (-23)) by (apply bpow_le; lia).
        assert (HE0 : / 8 <= E).
        { apply Rle_trans with ((1 - bpow (-23)) * (a + / 4)); [|exact HE].
          assert (0 <= (/ 2 - bpow (-23)) * (a + / 4)) by (apply Rmult_le_pos; lra).
          lra. }
        assert (AE : Rabs (F2R (sv_x sl wx wy yj - wx)%f32) = E)
          by (apply dir_abs; fold E; lra).
        assert (MB := mag_bounds
                        {| x := (sv_x sl wx wy yj - wx)%f32; y := (yj - wy)%f32 |}).
        cbn [x y] in MB. cbv zeta in MB.
        destruct MB as (M0v & M1v & _); auto.
        { right. rewrite AE. assert (P60 := bpow_pos (-60)).
          assert (bpow (-60) <= / 8).
          { apply Rle_trans with (bpow (-3)); [apply bpow_le; lia|].
            assert (I := bpow_inv 3). rewrite (bpow_IZR 3) in I by lia.
            change (- (3))%Z with (-3)%Z in I. change (2 ^ 3)%Z with 8%Z in I.
            assert (P3 := bpow_pos (-3)). lra. }
          lra. }
        { right. rewrite Ab. lra. }
        assert (MB := mag_bounds {| x := (xi - wx)%f32; y := (yj - wy)%f32 |}).
        cbn [x y] in MB. cbv zeta in MB.
        destruct MB as (M00 & _ & M01); auto.
        { right. rewrite Aa. lra. }
        { right. rewrite Ab. lra. }
        rewrite <- (dir_sq_mul px (F2R (sv_x sl wx wy yj - wx)%f32)) in M1v.
        rewrite <- (dir_sq_mul py (F2R (yj - wy)%f32)) in M1v, M01.
        rewrite <- (dir_sq_mul px (F2R (xi - wx)%f32)) in M01.
        rewrite EdX, EdY in *. fold a b E in M1v, M01.
        apply (gap_contra a b (bpow (-23)) E _ _ ltac:(lra) ltac:(lra) Hu HE M1v M01).
        lra.
Qed.

End Candidates.

(** * Termination of [cast] *)





Lemma tile_tile_at a tiles :
  tile a tiles = (ix <- to_int (x a) ;; iy <- to_int (y a) ;; tile_at tiles ix iy).
Proof. reflexivity. Qed.

Lemma in_upto n i : (0 <= i <= n)%Z -> In i (upto n).
Proof.
  intros H. unfold upto. apply in_map_iff. exists (Z.to_nat i).
  split; [lia|]. apply in_seq. lia.
Qed.

Lemma enclosed_cell tiles LX LY ix iy :
  enclosedb tiles LX LY = true -> (0 <= ix <= LX)%Z -> (0 <= iy <= LY)%Z ->
  exists t, tile_at tiles ix iy = Ok t
            /\ (t = 0%Z -> (1 <= ix <= LX - 1 /\ 1 <= iy <= LY - 1)%Z).
Proof.
  intros He Hx Hy. unfold enclosedb in He.
  rewrite forallb_forall in He. specialize (He iy (in_upto _ _ Hy)).
  rewrite forallb_forall in He. specialize (He ix (in_upto _ _ Hx)).
  unfold cell_ok in He. destruct (tile_at tiles ix iy) as [t| |]; try discriminate.
  exists t. split; [reflexivity|]. intros ->.
  destruct (ix =? 0)%Z eqn:E1; [discriminate|].
  destruct (ix =? LX)%Z eqn:E2; [discriminate|].
  destruct (iy =? 0)%Z eqn:E3; [discriminate|].
  destruct (iy =? LY)%Z eqn:E4; [discriminate|].
  apply Z.eqb_neq in E1, E2, E3, E4. lia.
Qed.


(** ** The nudge and the sampled cell *)

Lemma F2R_F0_01_le : F2R F0_01 <= / 100.
Proof.
  unfold F0_01. rewrite F2R_finite. unfold sgn. rewrite Rmult_1_l.
  assert (I := bpow_inv 30). rewrite (bpow_IZR 30) in I by lia.
  change (- (30))%Z with (-30)%Z in I. change (2 ^ 30)%Z with 1073741824%Z in I.
  assert (P := bpow_pos (-30)). lra.
Qed.

(** A coordinate of the nudge [0.01f * direction]: half a cell at most, in
    the sense of the step. *)
Lemma nudge_coord (c : float) :
  valid c = true -> is_finite c = true -> Rabs (F2R c) <= 50 ->
  valid (c * F0_01)%f32 = true /\ is_finite (c * F0_01)%f32 = true
  /\ 0 <= dir (c >? F0)%f32 * F2R (c * F0_01)%f32 <= / 2.
Proof.
  intros V F B.
  assert (R := fmul_rounds c F0_01 V eq_refl F eq_refl).
  assert (P := F2R_F0_01_pos). assert (U := F2R_F0_01_le).
  assert (Hd : 0 <= dir (c >? F0)%f32 * F2R c).
  { assert (H := fgt_zero_iff c V F). destruct (c >? F0)%f32; unfold dir.
    - assert (0 < F2R c) by (apply H; reflexivity). lra.
    - destruct (Rle_or_lt (F2R c) 0) as [L|G]; [lra|]. apply H in G. discriminate. }
  assert (Ha : Rabs (F2R c) = dir (c >? F0)%f32 * F2R c) by (apply dir_abs; exact Hd).
  set (p := (c >? F0)%f32) in *.
  assert (Hv : 0 <= dir p * (F2R c * F2R F0_01) <= / 2).
  { replace (dir p * (F2R c * F2R F0_01)) with (dir p * F2R c * F2R F0_01) by ring.
    split; [apply Rmult_le_pos; lra|].
    apply Rle_trans with (50 * / 100); [|lra].
    apply Rmult_le_compat; lra. }
  assert (Fn : is_finite (c * F0_01)%f32 = true).
  { apply (rounds_finite _ _ R), below_Tov. rewrite (dir_abs p) by lra.
    assert (1 <= bpow 21) by (apply bpow_ge_1; lia). lra. }
  split; [exact (rounds_valid _ _ R)|]. split; [exact Fn|]. split.
  - apply (rounds_dir_nonneg _ _ _ R Fn). lra.
  - destruct p; unfold dir in *.
    + assert (H := rounds_le_float _ _ F0_5 R Fn eq_refl eq_refl).
      rewrite F2R_F0_5 in H. lra.
    + assert (H := rounds_ge_float _ _ (SFopp F0_5) R Fn eq_refl eq_refl).
      rewrite F2R_opp, F2R_F0_5 in H. lra.
Qed.

(** A coordinate of the sampled point [ray + nudge]: ahead of the crossing
    by two thirds of a cell at most. *)
Lemma test_coord p (r n : float) :
  valid r = true -> is_finite r = true ->
  valid n = true -> is_finite n = true ->
  Rabs (F2R r) <= bpow 20 + 1 ->
  0 <= dir p * F2R n <= / 2 ->
  valid (r + n)%f32 = true /\ is_finite (r + n)%f32 = true
  /\ dir p * F2R r <= dir p * F2R (r + n)%f32 <= dir p * F2R r + 2 / 3.
Proof.
  intros Vr Fr Vn Fn Br Hn.
  assert (R := fadd_rounds r n Vr Vn Fr Fn).
  assert (B21 := bpow_20_21). assert (P20 := bpow_pos 20).
  assert (An : Rabs (F2R n) <= / 2) by (rewrite (dir_abs p); lra).
  assert (Bv : Rabs (F2R r + F2R n) <= bpow 20 + 2).
  { apply Rle_trans with (Rabs (F2R r) + Rabs (F2R n)); [apply Rabs_triang|lra]. }
  assert (Ft : is_finite (r + n)%f32 = true).
  { apply (rounds_finite _ _ R), below_Tov. lra. }
  split; [exact (rounds_valid _ _ R)|]. split; [exact Ft|]. split.
  - apply (rounds_dir_ge _ _ _ _ R Ft Vr Fr). lra.
  - assert (He : Rabs (F2R (r + n)%f32 - (F2R r + F2R n)) <= / 6).
    { assert (U := bpow_m23).
      destruct (rounds_error _ _ R Ft) as [L|[_ L]].
      - apply Rle_trans with (bpow (-23) * (bpow 20 + 2)).
        + apply Rle_trans with (bpow (-23) * Rabs (F2R r + F2R n)); [exact L|].
          apply Rmult_le_compat_l; lra.
        + assert (E : bpow (-23) * bpow 20 = bpow (-3)).
          { rewrite <- bpow_add. reflexivity. }
          assert (I := bpow_inv 3). rewrite (bpow_IZR 3) in I by lia.
          change (- (3))%Z with (-3)%Z in I. change (2 ^ 3)%Z with 8%Z in I.
          rewrite Rmult_plus_distr_l, E. lra.
      - apply Rle_trans with (bpow (-149)); [exact L|].
        apply Rle_trans with (bpow (-23)); [apply bpow_le; lia|lra]. }
    revert He. destruct p; unfold dir in *; absr.
Qed.

Lemma dec_total v :
  is_finite v = true -> Rabs (F2R v) < bpow 31 -> exists r, dec v = Ok r.
Proof.
  intros F B. destruct (to_int_total v F B) as (i & E & _).
  unfold dec. rewrite E. eexists. reflexivity.
Qed.

(** [nudge] returns one of [delta], [dx] and [dy]: each coordinate of the
    nudge is that of [0.01f * direction] or [0.0f]. *)
Lemma nudge_total ray direction :
  is_finite (x ray) = true -> is_finite (y ray) = true ->
  Rabs (F2R (x ray)) < bpow 31 -> Rabs (F2R (y ray)) < bpow 31 ->
  exists n, nudge ray direction = Ok n
            /\ (x n = x (mul direction F0_01) \/ x n = F0)
            /\ (y n = y (mul direction F0_01) \/ y n = F0).
Proof.
  intros Fx Fy Bx By.
  destruct (dec_total _ Fx Bx) as [rx Ex]. destruct (dec_total _ Fy By) as [ry Ey].
  unfold nudge. rewrite Ex. cbn [bind].
  destruct (rx =? F0)%f32.
  - rewrite Ey. cbn [bind]. destruct (ry =? F0)%f32; eexists; (split; [reflexivity|]);
      cbn [x y]; auto.
  - cbn [bind]. eexists. split; [reflexivity|]. cbn [x y]. auto.
Qed.

(** The cell a coordinate converts to. *)
Lemma cell_of_coord (t : float) (L : Z) :
  is_finite t = true -> (0 <= L <= 2 ^ 20)%Z -> -1 < F2R t < IZR L + 1 ->
  exists c, to_int t = Ok c /\ (0 <= c <= L)%Z
            /\ (0 <= F2R t -> IZR c <= F2R t < IZR c + 1).
Proof.
  intros F HL [Lo Hi].
  assert (L20 : IZR L <= bpow 20).
  { rewrite bpow_IZR by lia. apply IZR_le. lia. }
  assert (B : bpow 20 + 2 <= bpow 21) by exact bpow_20_21.
  assert (B31 : bpow 21 < bpow 31) by (apply bpow_lt; lia).
  assert (P20 := bpow_pos 20).
  destruct (to_int_total t F) as (c & E & T).
  { unfold Rabs. destruct Rcase_abs; lra. }
  exists c. split; [exact E|].
  destruct (trunc_spec t c T) as (_ & P & N).
  destruct (Rle_or_lt 0 (F2R t)) as [A|A].
  - specialize (P A). split; [|intros _; exact P].
    assert (H1 : IZR (-1) < IZR c) by (simpl; lra).
    assert (H2 : IZR c < IZR (L + 1)) by (rewrite plus_IZR; lra).
    apply lt_IZR in H1, H2. lia.
  - specialize (N (Rlt_le _ _ A)). split; [|intros; lra].
    assert (H1 : IZR (-1) < IZR c) by (simpl; lra).
    assert (H2 : IZR c < IZR 1) by (simpl; lra).
    apply lt_IZR in H1, H2. lia.
Qed.




(** ** Counting the grid lines left *)

Lemma Rfloor_spec r : IZR (Rfloor r) <= r < IZR (Rfloor r) + 1.
Proof.
  unfold Rfloor. destruct (archimed r) as [A B]. rewrite minus_IZR. lra.
Qed.

Lemma Rfloor_ge r (i : Z) : IZR i <= r -> (i <= Rfloor r)%Z.
Proof.
  intros H. destruct (Rfloor_spec r) as [_ B].
  assert (C : IZR i < IZR (Rfloor r + 1)) by (rewrite plus_IZR; lra).
  apply lt_IZR in C. lia.
Qed.

Lemma Rfloor_lt r (i : Z) : r < IZR i -> (Rfloor r < i)%Z.
Proof.
  intros H. destruct (Rfloor_spec r) as [A _].
  assert (C : IZR (Rfloor r) < IZR i) by lra. apply lt_IZR in C. exact C.
Qed.

Lemma Rfloor_mono r s : r <= s -> (Rfloor r <= Rfloor s)%Z.
Proof.
  intros H. apply Rfloor_ge. destruct (Rfloor_spec r) as [A _]. lra.
Qed.

Lemma lines_nonneg p v L : 1 <= v <= IZR L -> (0 <= lines p v L)%Z.
Proof.
  intros [A B]. unfold lines. destruct p.
  - assert (H : (Rfloor v < L + 1)%Z) by (apply Rfloor_lt; rewrite plus_IZR; lra). lia.
  - assert (H : (Rfloor (- v) < 0)%Z) by (apply Rfloor_lt; simpl; lra). lia.
Qed.

Lemma lines_le p v L : 1 <= v <= IZR L -> (lines p v L <= L)%Z.
Proof.
  intros [A B]. unfold lines. destruct p.
  - assert (H : (1 <= Rfloor v)%Z) by (apply Rfloor_ge; simpl; lra). lia.
  - assert (H : (- L <= Rfloor (- v))%Z) by (apply Rfloor_ge; rewrite opp_IZR; lra). lia.
Qed.

(** Moving on in the sense of the step does not add lines. *)
Lemma lines_forward p v r L :
  0 <= dir p * (r - v) -> (lines p r L <= lines p v L)%Z.
Proof.
  intros H. unfold lines. destruct p; unfold dir in H.
  - assert (A : (Rfloor v <= Rfloor r)%Z) by (apply Rfloor_mono; lra). lia.
  - assert (A : (Rfloor (- v) <= Rfloor (- r))%Z) by (apply Rfloor_mono; lra). lia.
Qed.

(** Reaching a grid line takes one line off. *)
Lemma lines_step p v (i : Z) L :
  0 < dir p * (IZR i - v) -> (lines p (IZR i) L < lines p v L)%Z.
Proof.
  intros H. unfold lines. destruct p; unfold dir in H.
  - assert (A : (i <= Rfloor (IZR i))%Z) by (apply Rfloor_ge; lra).
    assert (B : (Rfloor v < i)%Z) by (apply Rfloor_lt; lra). lia.
  - assert (A : (- i <= Rfloor (- IZR i))%Z) by (apply Rfloor_ge; rewrite opp_IZR; lra).
    assert (B : (Rfloor (- v) < - i)%Z) by (apply Rfloor_lt; rewrite opp_IZR; lra). lia.
Qed.

(** One axis of a step of [cast]: the crossing [r] is ahead of [w] and
    less than a quarter of a cell past the line [i]; the sampled
    coordinate [r + n] converts to a cell of the grid, and when that cell
    is not on the border the crossing is inside the border again. *)
Lemma axis_cell p (w r n : float) (i L : Z) :
  axis_inside p w L -> (0 <= i <= L)%Z -> (L <= 2 ^ 20)%Z ->
  0 < dir p * (IZR i - F2R w) < 2 ->
  valid r = true -> is_finite r = true ->
  0 <= dir p * (F2R r - F2R w) -> dir p * (F2R r - IZR i) < / 4 ->
  valid n = true -> is_finite n = true -> 0 <= dir p * F2R n <= / 2 ->
  exists c, to_int (r + n)%f32 = Ok c /\ (0 <= c <= L)%Z
            /\ ((1 <= c <= L - 1)%Z ->
                axis_inside p r L /\ (lines p (F2R r) L <= lines p (F2R w) L)%Z).
Proof.
  intros (Vw & Fw & [W1 WL] & Wp) Hi HL Hd Vr Fr Hf Hq Vn Fn Hn.
  assert (L20 : IZR L <= bpow 20).
  { rewrite bpow_IZR by lia. apply IZR_le. lia. }
  assert (I0 : 0 <= IZR i <= IZR L) by (split; apply IZR_le; lia).
  assert (Br : Rabs (F2R r) <= bpow 20 + 1).
  { destruct p; unfold dir in *; unfold Rabs; destruct Rcase_abs; lra. }
  destruct (test_coord p r n Vr Fr Vn Fn Br Hn) as (Vt & Ft & Ht).
  destruct (cell_of_coord (r + n)%f32 L Ft) as (c & Ec & Hc & Hfl).
  { lia. }
  { destruct p; unfold dir in *; lra. }
  exists c. split; [exact Ec|]. split; [exact Hc|]. intros Hin.
  split; [|apply lines_forward; exact Hf].
  assert (C1 : 1 <= IZR c) by (apply IZR_le; lia).
  assert (C2 : IZR c + 1 <= IZR L).
  { rewrite <- plus_IZR. apply IZR_le. lia. }
  split; [exact Vr|]. split; [exact Fr|].
  destruct p; unfold dir in *.
  - assert (T0 : 0 <= F2R (r + n)%f32) by lra. specialize (Hfl T0).
    split; [lra|]. intros _. lra.
  - assert (T0 : 0 <= F2R (r + n)%f32).
    { destruct (Rle_or_lt 0 (F2R (r + n)%f32)) as [A|A]; [exact A|exfalso].
      apply to_int_spec in Ec. destruct Ec as [T _].
      destruct (trunc_spec _ _ T) as (_ & _ & N). specialize (N (Rlt_le _ _ A)).
      lra. }
    specialize (Hfl T0). split; [lra|]. intros E. discriminate.
Qed.




(** ** One step of [cast] *)

Lemma nudge_x_coord d n :
  good_dir d -> (x n = x (mul d F0_01) \/ x n = F0) ->
  valid (x n) = true /\ is_finite (x n) = true
  /\ 0 <= dir (x d >? F0)%f32 * F2R (x n) <= / 2.
Proof.
  intros (Vx & Vy & Fx & Fy & _ & Bx & By) [E|E]; rewrite E.
  - cbn [mul x]. apply nudge_coord; assumption.
  - simpl F2R. rewrite Rmult_0_r. repeat split; lra.
Qed.

Lemma nudge_y_coord d n :
  good_dir d -> (y n = y (mul d F0_01) \/ y n = F0) ->
  valid (y n) = true /\ is_finite (y n) = true
  /\ 0 <= dir (y d >? F0)%f32 * F2R (y n) <= / 2.
Proof.
  intros (Vx & Vy & Fx & Fy & _ & Bx & By) [E|E]; rewrite E.
  - cbn [mul y]. apply nudge_coord; assumption.
  - simpl F2R. rewrite Rmult_0_r. repeat split; lra.
Qed.

Lemma coord_bound p (w r : float) (i L : Z) :
  1 <= F2R w <= IZR L -> (0 <= i <= L)%Z -> (L <= 2 ^ 20)%Z ->
  0 <= dir p * (F2R r - F2R w) -> dir p * (F2R r - IZR i) < / 4 ->
  Rabs (F2R r) < bpow 31.
Proof.
  intros [W1 WL] Hi HL Hf Hq.
  assert (L20 : IZR L <= bpow 20).
  { rewrite bpow_IZR by lia. apply IZR_le. lia. }
  assert (I0 : 0 <= IZR i <= IZR L) by (split; apply IZR_le; lia).
  assert (B := bpow_20_21).
  assert (B31 : bpow 21 < bpow 31) by (apply bpow_lt; lia).
  destruct p; unfold dir in *; unfold Rabs; destruct Rcase_abs; lra.
Qed.

(** The crossing [cmp] chooses between those of [sh] and [sv]: ahead of
    [w] on both axes, on one of the two lines [i] and [j] and less than a
    quarter of a cell past the other. *)
Lemma cast_crossing d w LX LY :
  good_dir d -> inside d w LX LY ->
  (LX <= 2 ^ 20)%Z -> (LY <= 2 ^ 20)%Z ->
  pow2b LX = false -> pow2b LY = false ->
  exists h v (i j : Z),
    sh w d = Ok h /\ sv w d = Ok v
    /\ (0 <= i <= LX)%Z /\ 0 < dir (x d >? F0)%f32 * (IZR i - F2R (x w)) < 2
    /\ (0 <= j <= LY)%Z /\ 0 < dir (y d >? F0)%f32 * (IZR j - F2R (y w)) < 2
    /\ valid (x (cmp w h v)) = true /\ is_finite (x (cmp w h v)) = true
    /\ 0 <= dir (x d >? F0)%f32 * (F2R (x (cmp w h v)) - F2R (x w))
    /\ dir (x d >? F0)%f32 * (F2R (x (cmp w h v)) - IZR i) < / 4
    /\ valid (y (cmp w h v)) = true /\ is_finite (y (cmp w h v)) = true
    /\ 0 <= dir (y d >? F0)%f32 * (F2R (y (cmp w h v)) - F2R (y w))
    /\ dir (y d >? F0)%f32 * (F2R (y (cmp w h v)) - IZR j) < / 4
    /\ (F2R (x (cmp w h v)) = IZR i \/ F2R (y (cmp w h v)) = IZR j)
    /\ x h = of_int i /\ y v = of_int j
    /\ (first_line (x d >? F0)%f32 (F2R (x w)) i
        \/ skipped_line (x d >? F0)%f32 (F2R (x w)) i)
    /\ (first_line (y d >? F0)%f32 (F2R (y w)) j
        \/ skipped_line (y d >? F0)%f32 (F2R (y w)) j).
Proof.
  intros (Vdx & Vdy & Fdx & Fdy & Nz & _) [(Vwx & Fwx & Wx & Wxp) (Vwy & Fwy & Wy & Wyp)]
         HLX HLY PX PY.
  set (px := (x d >? F0)%f32) in *. set (py := (y d >? F0)%f32) in *.
  destruct (axis_step px (x w) LX Vwx Fwx Wx Wxp HLX PX)
    as (i & Ei & Hi & Vi & Fi & Xi & VdX & FdX & EdX & HdX).
  destruct (axis_step py (y w) LY Vwy Fwy Wy Wyp HLY PY)
    as (j & Ej & Hj & Vj & Fj & Xj & VdY & FdY & EdY & HdY).
  assert (NX := step_line px (x w) LX i Vwx Fwx Wx Wxp HLX PX Ei).
  assert (NY := step_line py (y w) LY j Vwy Fwy Wy Wyp HLY PY Ej).
  assert (P23 := bpow_pos (-23)).
  assert (Hsl := slope_cases d Vdx Vdy Fdx Fdy Nz). fold px py in Hsl.
  set (sl := slope d) in *.
  exists {| x := of_int i; y := sh_y sl (x w) (y w) (of_int i) |},
         {| x := sv_x sl (x w) (y w) (of_int j); y := of_int j |}, i, j.
  split. { unfold sh. fold px. rewrite Ei. reflexivity. }
  split. { unfold sv. fold py. rewrite Ej. reflexivity. }
  split; [exact Hi|]. split; [lra|]. split; [exact Hj|]. split; [lra|].
  assert (LX20 : IZR LX <= bpow 20).
  { rewrite bpow_IZR by lia. apply IZR_le. lia. }
  assert (LY20 : IZR LY <= bpow 20).
  { rewrite bpow_IZR by lia. apply IZR_le. lia. }
  assert (Bwx : Rabs (F2R (x w)) <= bpow 20) by (rewrite Rabs_pos_eq; lra).
  assert (Bwy : Rabs (F2R (y w)) <= bpow 20) by (rewrite Rabs_pos_eq; lra).
  assert (EdX' : F2R (of_int i - x w)%f32 = F2R (of_int i) - F2R (x w))
    by (rewrite Xi; exact EdX).
  assert (EdY' : F2R (of_int j - y w)%f32 = F2R (of_int j) - F2R (y w))
    by (rewrite Xj; exact EdY).
  assert (HdX' : bpow (-23) <= dir px * (F2R (of_int i) - F2R (x w)) < 2)
    by (rewrite Xi; exact HdX).
  assert (HdY' : bpow (-23) <= dir py * (F2R (of_int j) - F2R (y w)) < 2)
    by (rewrite Xj; exact HdY).
  unfold cmp, sub. cbn [x y].
  destruct (mag {| x := (of_int i - x w)%f32;
                   y := (sh_y sl (x w) (y w) (of_int i) - y w)%f32 |}
            <? mag {| x := (sv_x sl (x w) (y w) (of_int j) - x w)%f32;
                      y := (of_int j - y w)%f32 |})%f32 eqn:C; cbn [x y].
  - destruct (sh_chosen px py sl (x w) (y w) (of_int i) (of_int j)
                Vwx Fwx Vwy Fwy Bwx Bwy Vi Fi Vj Fj VdX FdX EdX' HdX'
                VdY FdY EdY' HdY' Hsl C) as (A & B & D & E).
    rewrite Xj in E. rewrite Xi.
    repeat split; auto; try lra.
  - destruct (sv_chosen px py sl (x w) (y w) (of_int i) (of_int j)
                Vwx Fwx Vwy Fwy Bwx Bwy Vi Fi Vj Fj VdX FdX EdX' HdX'
                VdY FdY EdY' HdY' Hsl C) as (A & B & D & E).
    rewrite Xi in E. rewrite Xj.
    repeat split; auto; try lra.
Qed.

(** One step of [cast] inside an enclosed grid: the sampled point is in the
    grid, and when its tile is 0 the crossing is inside the border with
    fewer lines ahead. *)
Lemma cast_step d w g LX LY :
  good_dir d -> enclosedb g LX LY = true ->
  (LX <= 2 ^ 20)%Z -> (LY <= 2 ^ 20)%Z ->
  pow2b LX = false -> pow2b LY = false ->
  inside d w LX LY ->
  exists h v n t,
    sh w d = Ok h /\ sv w d = Ok v
    /\ nudge (cmp w h v) d = Ok n
    /\ tile (add (cmp w h v) n) g = Ok t
    /\ (t = 0%Z ->
        inside d (cmp w h v) LX LY
        /\ (lines_left d (cmp w h v) LX LY < lines_left d w LX LY)%Z).
Proof.
  intros Gd En HLX HLY PX PY In.
  destruct (cast_crossing d w LX LY Gd In HLX HLY PX PY)
    as (h & v & i & j & Eh & Ev & Hi & Di & Hj & Dj
        & Vx & Fx & Ax & Qx & Vy & Fy & Ay & Qy & Hl & _).
  destruct In as [Ix Iy]. assert (Ix' := Ix). assert (Iy' := Iy).
  destruct Ix' as (_ & _ & Wx & _). destruct Iy' as (_ & _ & Wy & _).
  set (ray := cmp w h v) in *.
  destruct (nudge_total ray d Fx Fy) as (n & En' & Nx & Ny).
  { exact (coord_bound _ _ _ i LX Wx Hi HLX Ax Qx). }
  { exact (coord_bound _ _ _ j LY Wy Hj HLY Ay Qy). }
  destruct (nudge_x_coord d n Gd Nx) as (Vnx & Fnx & Hnx).
  destruct (nudge_y_coord d n Gd Ny) as (Vny & Fny & Hny).
  destruct (axis_cell _ (x w) (x ray) (x n) i LX Ix Hi HLX Di Vx Fx Ax Qx Vnx Fnx Hnx)
    as (cx & Ecx & Hcx & Kx).
  destruct (axis_cell _ (y w) (y ray) (y n) j LY Iy Hj HLY Dj Vy Fy Ay Qy Vny Fny Hny)
    as (cy & Ecy & Hcy & Ky).
  destruct (enclosed_cell g LX LY cx cy En Hcx Hcy) as (t & Et & Ht).
  subst ray.
  exists h, v, n, t. split; [exact Eh|]. split; [exact Ev|]. split; [exact En'|].
  split.
  - rewrite tile_tile_at. unfold add. cbn [x y]. rewrite Ecx, Ecy. exact Et.
  - intros T0. destruct (Ht T0) as [Cx Cy].
    destruct (Kx Cx) as [Jx Lx]. destruct (Ky Cy) as [Jy Ly].
    split; [split; assumption|]. unfold lines_left.
    destruct Hl as [E|E].
    + assert (S := lines_step (x d >? F0)%f32 (F2R (x w)) i LX ltac:(lra)).
      rewrite <- E in S. lia.
    + assert (S := lines_step (y d >? F0)%f32 (F2R (y w)) j LY ltac:(lra)).
      rewrite <- E in S. lia.
Qed.

(** [cast] returns within as many steps as there are lines ahead. *)
Lemma cast_returns d g LX LY :
  good_dir d -> enclosedb g LX LY = true ->
  (LX <= 2 ^ 20)%Z -> (LY <= 2 ^ 20)%Z ->
  pow2b LX = false -> pow2b LY = false ->
  forall (fuel : nat) w,
    inside d w LX LY -> (lines_left d w LX LY < Z.of_nat fuel)%Z ->
    exists hit, cast fuel w d g = Ok hit
                /\ h_tile hit <> 0%Z
                /\ tile (h_where hit) g = Ok (h_tile hit).
Proof.
  intros Gd En HLX HLY PX PY. induction fuel as [|fuel IH]; intros w In Hm.
  - exfalso. destruct In as [(_ & _ & Wx & _) (_ & _ & Wy & _)].
    assert (A := lines_nonneg (x d >? F0)%f32 _ LX Wx).
    assert (B := lines_nonneg (y d >? F0)%f32 _ LY Wy).
    unfold lines_left in Hm. lia.
  - destruct (cast_step d w g LX LY Gd En HLX HLY PX PY In)
      as (h & v & n & t & Eh & Ev & En' & Et & Hz).
    cbn [cast]. rewrite Eh, Ev. cbn [bind]. rewrite En'. cbn [bind].
    rewrite Et. cbn [bind].
    destruct (t =? 0)%Z eqn:E.
    + apply Z.eqb_eq in E. destruct (Hz E) as [In' Hl].
      apply IH; [exact In'|lia].
    + apply Z.eqb_neq in E. eexists. split; [reflexivity|].
      cbn [h_tile h_where]. split; [exact E|exact Et].
Qed.

(** * Tools for the rest of the code *)

Local Open Scope Z_scope.

(** ** [put] *)

Lemma store_length l i v : List.length (store l i v) = List.length l.
Proof.
  revert i. induction l as [|h t IH]; intros i; simpl; [reflexivity|].
  destruct i; simpl; [reflexivity|]. rewrite IH. reflexivity.
Qed.

Lemma store_same l i v :
  (i < List.length l)%nat -> nth_error (store l i v) i = Some v.
Proof.
  revert i. induction l as [|h t IH]; intros i H; simpl in *; [lia|].
  destruct i; simpl; [reflexivity|]. apply IH. lia.
Qed.

Lemma store_other l i k v :
  k <> i -> nth_error (store l i v) k = nth_error l k.
Proof.
  revert i k. induction l as [|h t IH]; intros i k H; simpl; [reflexivity|].
  destruct i, k; simpl; try reflexivity; [contradiction|]. apply IH. congruence.
Qed.

Lemma put_stores display col row pixel d' :
  put display col row pixel = Ok d' ->
  0 <= row + col * width display < Z.of_nat (List.length (pixels display))
  /\ width d' = width display
  /\ List.length (pixels d') = List.length (pixels display)
  /\ nth_error (pixels d') (Z.to_nat (row + col * width display)) = Some pixel
  /\ forall k, k <> Z.to_nat (row + col * width display) ->
               nth_error (pixels d') k = nth_error (pixels display) k.
Proof.
  unfold put. intros H.
  apply bind_Ok in H. destruct H as (o & Eo & H).
  apply bind_Ok in H. destruct H as (i & Ei & H).
  apply int_Ok in Eo. destruct Eo as [-> _].
  apply int_Ok in Ei. destruct Ei as [-> _].
  destruct ((0 <=? row + col * width display)
            && (row + col * width display <? Z.of_nat (List.length (pixels display))))
    eqn:E; [|discriminate].
  apply andb_prop in E. destruct E as [A B].
  apply Z.leb_le in A. apply Z.ltb_lt in B.
  inversion H; subst d'; clear H. cbn [pixels width].
  split; [lia|]. split; [reflexivity|]. split; [apply store_length|].
  split; [apply store_same; lia|]. intros k Hk. apply store_other. exact Hk.
Qed.

(** ** [tile] *)

Lemma to_char_zero c : 0 <= c < 256 -> (to_char (c - 48) = 0 <-> c = 48).
Proof.
  intros H. unfold to_char. split.
  - intros E.
    assert (M : (c - 48 + 128) mod 256 = 128) by lia.
    destruct (Z_lt_le_dec c 176) as [L|G].
    + rewrite Z.mod_small in M by lia. lia.
    + replace (c - 48 + 128) with ((c - 176) + 1 * 256) in M by lia.
      rewrite Z.mod_add, Z.mod_small in M by lia. lia.
  - intros ->. reflexivity.
Qed.

Lemma get_some_lt s : forall n c, String.get n s = Some c -> (n < String.length s)%nat.
Proof.
  induction s as [|h s IH]; intros n c H; simpl in *; [discriminate|].
  destruct n; [lia|]. apply IH in H. lia.
Qed.

(** ** [move] and the loop of [main] *)

Section Frames.
Variables cosf sinf : float -> float.
Variable walling : grid.

Lemma move_result hero key h' :
  move cosf sinf hero walling key = Ok h' ->
  fov h' = fov hero /\ speed h' = speed hero
  /\ acceleration h' = acceleration hero /\ theta h' = theta hero
  /\ ((where_ h' = add (where_ hero) (drive cosf sinf hero key)
       /\ velocity h' = drive cosf sinf hero key
       /\ tile (where_ h') walling = Ok 0)
      \/ (where_ h' = where_ hero /\ velocity h' = {| x := F0; y := F0 |})).
Proof.
  unfold move. intros H. apply bind_Ok in H. destruct H as (t & Et & H).
  inversion H; subst h'; clear H.
  destruct (t =? 0) eqn:E; cbn [fov speed acceleration theta where_ velocity].
  - apply Z.eqb_eq in E. subst t. repeat split; auto.
  - repeat split; auto.
Qed.

Lemma move_free hero key h' :
  tile (where_ hero) walling = Ok 0 ->
  move cosf sinf hero walling key = Ok h' ->
  tile (where_ h') walling = Ok 0.
Proof.
  intros H0 H. destruct (move_result hero key h' H) as (_ & _ & _ & _ & [(_ & _ & T)|(E & _)]).
  - exact T.
  - rewrite E. exact H0.
Qed.

Lemma frames_free ks : forall hero h',
  tile (where_ hero) walling = Ok 0 ->
  frames cosf sinf walling ks hero = Ok h' ->
  tile (where_ h') walling = Ok 0
  /\ fov h' = fov hero /\ speed h' = speed hero
  /\ acceleration h' = acceleration hero.
Proof.
  induction ks as [|k ks IH]; intros hero h' H0 H; cbn [frames] in H.
  - inversion H; subst. auto.
  - apply bind_Ok in H. destruct H as (h1 & E1 & H). unfold frame in E1.
    assert (T1 : tile (where_ h1) walling = Ok 0).
    { apply (move_free (spin hero k) k h1); [exact H0|exact E1]. }
    destruct (move_result _ _ _ E1) as (A & B & C & _).
    destruct (IH h1 h' T1 H) as (T & A' & B' & C').
    split; [exact T|]. cbn [spin fov speed acceleration] in A, B, C.
    repeat split; congruence.
Qed.

End Frames.

(** ** [rag] and [mag] *)

Lemma fadd_comm u v : (u + v)%f32 = (v + u)%f32.
Proof.
  destruct u as [su|su| |su mu eu]; destruct v as [sv|sv| |sv mv ev];
    try reflexivity; try (destruct su, sv; reflexivity).
  unfold fadd, SFadd. rewrite (Z.min_comm eu ev), Z.add_comm. reflexivity.
Qed.

Lemma fmul_neg_neg u : ((- u) * (- u))%f32 = (u * u)%f32.
Proof. destruct u as [s|s| |s m e]; try reflexivity; destruct s; reflexivity. Qed.

Local Open Scope R_scope.

(** ** Tests on floats *)

Lemma fleb_spec u v :
  valid u = true -> valid v = true ->
  is_finite u = true -> is_finite v = true ->
  (fleb u v = true <-> F2R u <= F2R v).
Proof.
  intros Vu Vv Fu Fv. unfold fleb, SFleb.
  assert (C := SFcompare_finite u v Vu Vv Fu Fv).
  destruct (SFcompare u v) as [[| |]|]; try contradiction;
    split; intros H; try reflexivity; try discriminate; lra.
Qed.

Lemma fleb_finite_between a c b :
  is_finite a = true -> is_finite b = true ->
  fleb a c = true -> fleb c b = true -> is_finite c = true.
Proof.
  destruct c as [s|[|]| |s m e]; try reflexivity; intros Fa Fb H1 H2; exfalso.
  - destruct a as [|[|]| |[|] ? ?]; cbv in H1; try discriminate; discriminate.
  - destruct b as [|[|]| |[|] ? ?]; cbv in H2; try discriminate; discriminate.
  - destruct a as [|[|]| |[|] ? ?]; cbv in H1; try discriminate; discriminate.
Qed.

Lemma flt_finite_between a c b :
  is_finite a = true -> is_finite b = true ->
  fleb a c = true -> (c <? b)%f32 = true -> is_finite c = true.
Proof.
  destruct c as [s|[|]| |s m e]; try reflexivity; intros Fa Fb H1 H2; exfalso.
  - destruct a as [|[|]| |[|] ? ?]; cbv in H1; try discriminate; discriminate.
  - destruct b as [|[|]| |[|] ? ?]; cbv in H2; try discriminate; discriminate.
  - destruct a as [|[|]| |[|] ? ?]; cbv in H1; try discriminate; discriminate.
Qed.

Lemma within50_spec c :
  within50 c = true ->
  valid c = true /\ is_finite c = true /\ Rabs (F2R c) <= 50.
Proof.
  unfold within50. intros H. apply andb_prop in H. destruct H as [H H2].
  apply andb_prop in H. destruct H as [V H1].
  destruct (of_int_exact (-50)) as (Va & Fa & Ea); [lia|].
  destruct (of_int_exact 50) as (Vb & Fb & Eb); [lia|].
  assert (F := fleb_finite_between _ _ _ Fa Fb H1 H2).
  apply (fleb_spec _ _ Va V Fa F) in H1. apply (fleb_spec _ _ V Vb F Fb) in H2.
  rewrite Ea in H1. rewrite Eb in H2.
  split; [exact V|]. split; [exact F|]. apply Rabs_le. lra.
Qed.

Lemma good_dirb_spec d : good_dirb d = true -> good_dir d.
Proof.
  unfold good_dirb. intros H. apply andb_prop in H. destruct H as [H N].
  apply andb_prop in H. destruct H as [Hx Hy].
  destruct (within50_spec _ Hx) as (Vx & Fx & Bx).
  destruct (within50_spec _ Hy) as (Vy & Fy & By).
  repeat split; auto.
  destruct (Req_dec (F2R (x d)) 0) as [Zx|Nx]; [|left; exact Nx].
  destruct (Req_dec (F2R (y d)) 0) as [Zy|Ny]; [|right; exact Ny].
  exfalso. apply negb_true_iff in N.
  assert (A : (x d =? F0)%f32 = true) by (apply feq_spec; auto).
  assert (B : (y d =? F0)%f32 = true) by (apply feq_spec; auto).
  rewrite A, B in N. discriminate.
Qed.

Lemma between_spec c L p :
  (0 <= L <= 2 ^ 20)%Z -> between c L = true -> axis_inside p c L.
Proof.
  unfold between. intros HL H. apply andb_prop in H. destruct H as [H H2].
  apply andb_prop in H. destruct H as [V H1].
  destruct (of_int_exact L) as (Vb & Fb & Eb); [lia|].
  assert (F := flt_finite_between _ _ _ (eq_refl : is_finite F1 = true) Fb H1 H2).
  apply (fleb_spec _ _ (eq_refl : valid F1 = true) V eq_refl F) in H1.
  apply (flt_spec _ _ V Vb F Fb) in H2.
  rewrite F2R_F1 in H1. rewrite Eb in H2.
  split; [exact V|]. split; [exact F|]. split; [lra|]. intros _. exact H2.
Qed.

Lemma insideb_spec d w LX LY :
  (0 <= LX <= 2 ^ 20)%Z -> (0 <= LY <= 2 ^ 20)%Z ->
  insideb w LX LY = true -> inside d w LX LY.
Proof.
  unfold insideb. intros HX HY H. apply andb_prop in H. destruct H as [A B].
  split; apply between_spec; assumption.
Qed.

(** ** [fl], [cl] and [dec] on all small floats *)

Lemma flt_finite_strict a c b :
  is_finite a = true -> is_finite b = true ->
  (a <? c)%f32 = true -> (c <? b)%f32 = true -> is_finite c = true.
Proof.
  destruct c as [s|[|]| |s m e]; try reflexivity; intros Fa Fb H1 H2; exfalso.
  - destruct a as [|[|]| |[|] ? ?]; cbv in H1; try discriminate; discriminate.
  - destruct b as [|[|]| |[|] ? ?]; cbv in H2; try discriminate; discriminate.
  - destruct a as [|[|]| |[|] ? ?]; cbv in H1; try discriminate; discriminate.
Qed.

Lemma small_spec v :
  small v = true ->
  valid v = true /\ is_finite v = true /\ Rabs (F2R v) < bpow 23.
Proof.
  unfold small. intros H. apply andb_prop in H. destruct H as [H H2].
  apply andb_prop in H. destruct H as [V H1].
  destruct (of_int_exact (-8388608)) as (Va & Fa & Ea); [lia|].
  destruct (of_int_exact 8388608) as (Vb & Fb & Eb); [lia|].
  assert (F := flt_finite_strict _ _ _ Fa Fb H1 H2).
  apply (flt_spec _ _ Va V Fa F) in H1. apply (flt_spec _ _ V Vb F Fb) in H2.
  rewrite Ea in H1. rewrite Eb in H2.
  split; [exact V|]. split; [exact F|].
  rewrite (bpow_IZR 23) by lia. change (2 ^ 23)%Z with 8388608%Z.
  unfold Rabs. destruct Rcase_abs; lra.
Qed.

(** The conversion to [int] of a small float, and the float of it. *)
Lemma small_trunc v :
  valid v = true -> is_finite v = true -> Rabs (F2R v) < bpow 23 ->
  exists i, to_int v = Ok i
            /\ (Z.abs i < 2 ^ 23)%Z
            /\ (0 <= F2R v -> IZR i <= F2R v < IZR i + 1)
            /\ (F2R v <= 0 -> IZR i - 1 < F2R v <= IZR i)
            /\ valid (of_int i) = true /\ is_finite (of_int i) = true
            /\ F2R (of_int i) = IZR i.
Proof.
  intros V F B.
  assert (B31 : bpow 23 < bpow 31) by (apply bpow_lt; lia).
  destruct (to_int_total v F ltac:(lra)) as (i & Ei & Ti).
  destruct (trunc_spec v i Ti) as (_ & P & N).
  rewrite (bpow_IZR 23) in B by lia.
  assert (Hi : (Z.abs i < 2 ^ 23)%Z).
  { destruct (Rle_or_lt 0 (F2R v)) as [A|A].
    - specialize (P A). rewrite Rabs_pos_eq in B by lra.
      assert (H1 : IZR (-1) < IZR i) by (simpl; lra).
      assert (H2 : IZR i < IZR (2 ^ 23)) by lra.
      apply lt_IZR in H1, H2. lia.
    - specialize (N (Rlt_le _ _ A)). rewrite Rabs_left in B by lra.
      assert (H1 : IZR (- 2 ^ 23) < IZR i) by (rewrite opp_IZR; lra).
      assert (H2 : IZR i < IZR 1) by (simpl; lra).
      apply lt_IZR in H1, H2. lia. }
  destruct (of_int_exact i) as (Vi & Fi & Xi); [lia|].
  exists i. repeat split; auto; try (apply P; assumption); try (apply N; assumption).
Qed.

Lemma fl_floor_small v :
  valid v = true -> is_finite v = true -> Rabs (F2R v) < bpow 23 ->
  exists n, fl v = Ok n /\ IZR n <= F2R v < IZR n + 1.
Proof.
  intros V F B.
  destruct (small_trunc v V F B) as (i & Ei & Hi & P & N & Vi & Fi & Xi).
  unfold fl. rewrite Ei. cbn [bind].
  destruct (v <? of_int i)%f32 eqn:C.
  - apply (flt_spec v (of_int i) V Vi F Fi) in C. rewrite Xi in C.
    exists (i - 1)%Z. rewrite int_in_range by (unfold INT_MIN, INT_MAX; lia).
    split; [reflexivity|]. rewrite minus_IZR.
    destruct (Rle_or_lt 0 (F2R v)) as [A|A]; [specialize (P A); lra|].
    specialize (N (Rlt_le _ _ A)). lra.
  - assert (Hge : IZR i <= F2R v).
    { destruct (Rle_or_lt (IZR i) (F2R v)) as [L|G]; [exact L|].
      rewrite <- Xi in G. apply (flt_spec v (of_int i) V Vi F Fi) in G. congruence. }
    exists i. rewrite Z.sub_0_r, int_in_range by (unfold INT_MIN, INT_MAX; lia).
    split; [reflexivity|].
    destruct (Rle_or_lt 0 (F2R v)) as [A|A]; [specialize (P A); lra|].
    specialize (N (Rlt_le _ _ A)). lra.
Qed.

Lemma cl_ceiling_small v :
  valid v = true -> is_finite v = true -> Rabs (F2R v) < bpow 23 ->
  exists n, cl v = Ok n /\ IZR n - 1 < F2R v <= IZR n.
Proof.
  intros V F B.
  destruct (small_trunc v V F B) as (i & Ei & Hi & P & N & Vi & Fi & Xi).
  unfold cl. rewrite Ei. cbn [bind].
  change (v >? of_int i)%f32 with (of_int i <? v)%f32.
  destruct (of_int i <? v)%f32 eqn:C.
  - apply (flt_spec (of_int i) v Vi V Fi F) in C. rewrite Xi in C.
    exists (i + 1)%Z. rewrite int_in_range by (unfold INT_MIN, INT_MAX; lia).
    split; [reflexivity|]. rewrite plus_IZR.
    destruct (Rle_or_lt 0 (F2R v)) as [A|A]; [specialize (P A); lra|].
    specialize (N (Rlt_le _ _ A)). lra.
  - assert (Hle : F2R v <= IZR i).
    { destruct (Rle_or_lt (F2R v) (IZR i)) as [L|G]; [exact L|].
      rewrite <- Xi in G. apply (flt_spec (of_int i) v Vi V Fi F) in G. congruence. }
    exists i. rewrite Z.add_0_r, int_in_range by (unfold INT_MIN, INT_MAX; lia).
    split; [reflexivity|].
    destruct (Rle_or_lt 0 (F2R v)) as [A|A]; [specialize (P A); lra|].
    specialize (N (Rlt_le _ _ A)). lra.
Qed.

(** [dec] is exact: the float minus its integral part, of magnitude
    below 1, and 0 exactly on the integers. *)
Lemma dec_exact v :
  valid v = true -> is_finite v = true -> Rabs (F2R v) < bpow 23 ->
  exists i r, to_int v = Ok i /\ dec v = Ok r
              /\ valid r = true /\ is_finite r = true
              /\ F2R r = F2R v - IZR i /\ Rabs (F2R r) < 1
              /\ ((r =? F0)%f32 = true <-> F2R v = IZR i).
Proof.
  intros V F B.
  destruct (small_trunc v V F B) as (i & Ei & Hi & P & N & Vi & Fi & Xi).
  assert (R := fsub_rounds v (of_int i) V Vi F Fi). rewrite Xi in R.
  assert (Vr := rounds_valid _ _ R).
  assert (Hd : Rabs (F2R v - IZR i) < 1).
  { destruct (Rle_or_lt 0 (F2R v)) as [A|A].
    - specialize (P A). rewrite Rabs_pos_eq; lra.
    - specialize (N (Rlt_le _ _ A)). rewrite Rabs_left1; lra. }
  assert (Ex : is_finite (v - of_int i)%f32 = true
               /\ F2R (v - of_int i)%f32 = F2R v - IZR i).
  { destruct (Rle_or_lt 1 (Rabs (F2R v))) as [G|S].
    - rewrite <- Xi.
      apply fsub_exact_near; auto.
      + apply multiple_ge1; auto.
      + apply (multiple_int _ _ i); [lia|exact Xi].
      + rewrite Xi. lra.
    - assert (i = 0%Z).
      { destruct (Rle_or_lt 0 (F2R v)) as [A|A].
        - specialize (P A). rewrite Rabs_pos_eq in S by lra.
          assert (H1 : IZR (-1) < IZR i) by (simpl; lra).
          assert (H2 : IZR i < IZR 1) by (simpl; lra).
          apply lt_IZR in H1, H2. lia.
        - specialize (N (Rlt_le _ _ A)). rewrite Rabs_left in S by lra.
          assert (H1 : IZR (-1) < IZR i) by (simpl; lra).
          assert (H2 : IZR i < IZR 1) by (simpl; lra).
          apply lt_IZR in H1, H2. lia. }
      subst i. simpl IZR in *. rewrite Rminus_0_r in *.
      exact (rounds_exact v _ V F R). }
  destruct Ex as [Fr Er].
  exists i, (v - of_int i)%f32. unfold dec. rewrite Ei. cbn [bind].
  repeat split; auto; try (rewrite Er; exact Hd).
  - intros H. apply (feq_spec _ F0 Vr eq_refl Fr eq_refl) in H.
    simpl F2R in H. lra.
  - intros H. apply (feq_spec _ F0 Vr eq_refl Fr eq_refl).
    simpl F2R. lra.
Qed.

Local Open Scope Z_scope.

(** ** Negation commutes with rounding *)

Lemma finish_opp s r e' : finish (negb s) r e' = SFopp (finish s r e').
Proof.
  unfold finish. destruct (shr_fexp prec emax r e' loc_Exact) as [mrs e''].
  destruct (shr_m mrs); try reflexivity.
  destruct (e'' <=? emax - prec); reflexivity.
Qed.

Lemma bra_opp s m e l :
  binary_round_aux prec emax (negb s) m e l
  = SFopp (binary_round_aux prec emax s m e l).
Proof. rewrite !bra_unfold. apply finish_opp. Qed.

Lemma fdiv_opp_r u v : (u / SFopp v)%f32 = SFopp (u / v)%f32.
Proof.
  unfold fdiv, SFdiv.
  destruct u as [su|su| |su mu eu], v as [sv|sv| |sv mv ev]; cbn [SFopp];
    try reflexivity;
    try (destruct su, sv; reflexivity).
  destruct (SFdiv_core_binary prec emax (Z.pos mu) eu (Z.pos mv) ev) as [[mz ez] lz].
  replace (xorb su (negb sv)) with (negb (xorb su sv)) by (destruct su, sv; reflexivity).
  apply bra_opp.
Qed.

Lemma of_int_opp d : d <> 0 -> of_int (- d) = SFopp (of_int d).
Proof.
  intros Hd. unfold of_int, binary_normalize.
  destruct d as [|p|p]; [contradiction| |]; cbn [Z.opp];
    unfold binary_round;
    destruct (shl_align p 0 (fexp prec emax (Z.pos (digits2_pos p) + 0))) as [mz ez].
  - exact (bra_opp false (Z.pos mz) ez loc_Exact).
  - change false with (negb true) at 1.
    rewrite (bra_opp true). destruct (binary_round_aux prec emax true (Z.pos mz) ez loc_Exact);
      try reflexivity; cbn [SFopp]; rewrite ?negb_involutive; reflexivity.
Qed.

(** ** Loops that paint a column *)

Lemma for_loop_ext {S : Type} (f g : Z -> S -> res S) :
  (forall i s, f i s = g i s) ->
  forall n i s, for_loop n i f s = for_loop n i g s.
Proof.
  intros E. induction n as [|n IH]; intros i s; simpl; [reflexivity|].
  rewrite E. destruct (g i s); simpl; auto.
Qed.

Lemma for_loop_paint f col :
  forall n i d d',
    for_loop n i (paint f col) d = Ok d' ->
    width d' = width d
    /\ List.length (pixels d') = List.length (pixels d)
    /\ (forall row, i <= row < i + Z.of_nat n ->
          exists c, f row = Ok c
                    /\ 0 <= row + col * width d < Z.of_nat (List.length (pixels d))
                    /\ nth_error (pixels d') (Z.to_nat (row + col * width d)) = Some c)
    /\ (forall k, (forall row, i <= row < i + Z.of_nat n ->
                               k <> Z.to_nat (row + col * width d)) ->
                  nth_error (pixels d') k = nth_error (pixels d) k).
Proof.
  induction n as [|n IH]; intros i d d' H.
  - simpl in H. inversion H; subst d'. repeat split; auto. intros row Hr. lia.
  - cbn [for_loop] in H. apply bind_Ok in H. destruct H as (d1 & E1 & H).
    unfold paint in E1. apply bind_Ok in E1. destruct E1 as (c & Ec & E1).
    apply put_stores in E1. destruct E1 as (B1 & W1 & L1 & S1 & O1).
    apply IH in H. destruct H as (W2 & L2 & P2 & O2).
    rewrite W1 in *. rewrite L1 in *.
    split; [exact W2|]. split; [exact L2|]. split.
    + intros row Hr. destruct (Z.eq_dec row i) as [->|Hne].
      * exists c. split; [exact Ec|]. split; [exact B1|].
        rewrite O2; [exact S1|]. intros row Hrow.
        destruct (P2 row Hrow) as (_ & _ & Brow & _). intros Q.
        apply Z2Nat.inj in Q; lia.
      * apply P2. lia.
    + intros k Hk. rewrite O2.
      * apply O1. apply Hk. lia.
      * intros row Hrow. apply Hk. lia.
Qed.

Lemma for_range_paint f col lo hi d d' :
  for_range lo hi (paint f col) d = Ok d' -> painted d d' col lo hi f.
Proof.
  unfold for_range, painted. intros H. apply for_loop_paint in H.
  destruct H as (W & L & P & O). repeat split; auto.
  - intros row Hr. apply P. lia.
  - intros k Hk. apply O. intros row Hr. apply Hk. lia.
Qed.

(** [(int)] truncates toward zero, so the cell 0 is two units wide. *)
Lemma tile_near_origin a g :
  valid (x a) = true -> is_finite (x a) = true ->
  valid (y a) = true -> is_finite (y a) = true ->
  (-1 < F2R (x a) < 1)%R -> (-1 < F2R (y a) < 1)%R ->
  tile a g = tile_at g 0 0.
Proof.
  intros Vx Fx Vy Fy Bx By.
  assert (P1 : (1 < bpow 23)%R) by (change 1%R with (bpow 0); apply bpow_lt; lia).
  assert (Z0 : forall v, valid v = true -> is_finite v = true ->
                         (-1 < F2R v < 1)%R -> to_int v = Ok 0).
  { intros v V F B.
    destruct (small_trunc v V F) as (i & Ei & Hi & P & N & _).
    { unfold Rabs. destruct Rcase_abs; lra. }
    rewrite Ei. f_equal.
    destruct (Rle_or_lt 0 (F2R v)) as [A|A].
    - specialize (P A).
      assert (H1 : (IZR (-1) < IZR i)%R) by (simpl; lra).
      assert (H2 : (IZR i < IZR 1)%R) by (simpl; lra).
      apply lt_IZR in H1, H2. lia.
    - specialize (N (Rlt_le _ _ A)).
      assert (H1 : (IZR (-1) < IZR i)%R) by (simpl; lra).
      assert (H2 : (IZR i < IZR 1)%R) by (simpl; lra).
      apply lt_IZR in H1, H2. lia. }
  unfold tile. rewrite (Z0 _ Vx Fx Bx), (Z0 _ Vy Fy By). reflexivity.
Qed.

(** ** A hero at rest *)

Lemma fadd_zero_r u v : is_zero u = false -> is_zero v = true -> (u + v)%f32 = u.
Proof.
  destruct v; try discriminate.
  destruct u as [s'|s'| |s' m e]; try reflexivity; discriminate.
Qed.

Lemma fmul_zero_finite u f :
  is_zero u = true -> is_finite f = true -> is_zero (u * f)%f32 = true.
Proof.
  destruct u; try discriminate.
  destruct f as [s'|s'| |s' m e]; try discriminate; reflexivity.
Qed.

Lemma mag_zeros p : is_zero (x p) = true -> is_zero (y p) = true -> mag p = F0.
Proof.
  destruct p as [[s1| | |] [s2| | |]]; try discriminate. intros _ _.
  destruct s1, s2; reflexivity.
Qed.

Lemma at_rest_spec hero :
  at_rest hero = true <->
  is_zero (x (velocity hero)) = true /\ is_zero (y (velocity hero)) = true
  /\ is_zero (x (where_ hero)) = false /\ is_zero (y (where_ hero)) = false
  /\ is_finite (F1 - acceleration hero / speed hero)%f32 = true
  /\ (speed hero <? F0)%f32 = false.
Proof.
  unfold at_rest. rewrite !andb_true_iff, !negb_true_iff. tauto.
Qed.

Section Rest.
Variables cosf sinf : float -> float.

Lemma drive_at_rest hero key :
  (forall k, key k = 0) -> at_rest hero = true ->
  is_zero (x (drive cosf sinf hero key)) = true
  /\ is_zero (y (drive cosf sinf hero key)) = true.
Proof.
  intros K R. apply at_rest_spec in R. destruct R as (Vx & Vy & _ & _ & Ff & Sp).
  unfold drive, pressed. rewrite !K. cbn [Z.eqb negb orb].
  assert (Zx := fmul_zero_finite _ _ Vx Ff).
  assert (Zy := fmul_zero_finite _ _ Vy Ff).
  rewrite (mag_zeros (mul (velocity hero) _)) by assumption.
  change (F0 >? speed hero)%f32 with (speed hero <? F0)%f32.
  rewrite Sp. split; assumption.
Qed.

Lemma move_rest hero walling key h' :
  (forall k, key k = 0) -> at_rest hero = true ->
  move cosf sinf hero walling key = Ok h' ->
  where_ h' = where_ hero /\ at_rest h' = true.
Proof.
  intros K R H.
  destruct (drive_at_rest hero key K R) as (Dx & Dy).
  destruct (move_result cosf sinf walling hero key h' H)
    as (_ & Es & Ea & _ & Hc).
  assert (R' := R). apply at_rest_spec in R'.
  destruct R' as (_ & _ & Wx & Wy & Ff & Sp).
  assert (W : where_ h' = where_ hero
              /\ is_zero (x (velocity h')) = true /\ is_zero (y (velocity h')) = true).
  { destruct Hc as [(W & Ve & _)|(W & Ve)].
    - rewrite W, Ve. unfold add. cbn [x y].
      rewrite !fadd_zero_r by assumption.
      destruct (where_ hero); auto.
    - rewrite W, Ve. auto. }
  destruct W as (W & Vx & Vy). split; [exact W|].
  apply at_rest_spec. rewrite W, Es, Ea. auto 10.
Qed.

Lemma spin_idle hero key : (forall k, key k = 0) -> spin hero key = hero.
Proof.
  intros K. unfold spin, pressed. rewrite !K. cbn [Z.eqb negb].
  destruct hero; reflexivity.
Qed.

Lemma frames_rest walling ks : forall hero h',
  Forall (fun key => forall k, key k = 0) ks -> at_rest hero = true ->
  frames cosf sinf walling ks hero = Ok h' ->
  where_ h' = where_ hero /\ at_rest h' = true.
Proof.
  induction ks as [|key ks IH]; intros hero h' HF R H.
  - simpl in H. inversion H; subst h'. auto.
  - inversion HF as [|? ? K HF']; subst.
    cbn [frames] in H. apply bind_Ok in H. destruct H as (h1 & E1 & H).
    unfold frame in E1. rewrite (spin_idle _ _ K) in E1.
    destruct (move_rest hero walling key h1 K R E1) as (W1 & R1).
    destruct (IH h1 h' HF' R1 H) as (W2 & R2).
    split; [congruence|exact R2].
Qed.
End Rest.


Local Open Scope Z_scope.
Local Open Scope R_scope.

(** ** The slab height against the distance, strictly (C7) *)

Lemma project_size_is_finite (xres yres : Z) (fov : Line) (corrected : Point)
  (w : Wall) :
  project xres yres fov corrected = Ok w -> is_finite (size w) = true.
Proof.
  intros H. rewrite (project_size _ _ _ _ _ H).
  unfold project in H.
  apply bind_Ok in H. destruct H as (t & Ht & _).
  apply to_int_spec in Ht. destruct Ht as [Ht _].
  destruct (trunc_spec _ _ Ht) as (F2' & _).
  assert (FA := fdiv_finite_inv _ _ F2').
  destruct (fadd_finite_inv _ _ FA) as [_ FS]. exact FS.
Qed.

Lemma bpow_m21 : bpow (-21) = 4 * bpow (-23).
Proof.
  replace (-21)%Z with (2 + -23)%Z by lia. rewrite bpow_add.
  rewrite (bpow_IZR 2) by lia. reflexivity.
Qed.

Lemma bpow_m23_small : bpow (-23) <= / 4.
Proof.
  assert (A : bpow (-23) <= bpow (-2)) by (apply bpow_le; lia).
  assert (B := bpow_inv 2). rewrite (bpow_IZR 2) in B by lia.
  change (IZR (2 ^ 2)) with 4 in B. change (- (2))%Z with (-2)%Z in B. lra.
Qed.

(** A quotient that rounds to 2^-125 or more is 2^-126 at least. *)
Lemma rounds_normal v f :
  rounds v f -> is_finite f = true -> 0 <= v -> bpow (-125) <= F2R f ->
  bpow (-126) <= v.
Proof.
  intros R F Hv Hf.
  assert (E : bpow (-125) = 2 * bpow (-126)).
  { replace (-125)%Z with (-126 + 1)%Z by lia. apply bpow_succ. }
  assert (P := bpow_pos (-126)).
  assert (S : bpow (-149) < bpow (-126)) by (apply bpow_lt; lia).
  assert (U := bpow_m23_small). assert (U0 := bpow_pos (-23)).
  destruct (rounds_error v f R F) as [L|[A B]].
  - destruct (rel_bounds _ _ _ L Hv) as [_ Up].
    destruct (Rle_or_lt (bpow (-126)) v) as [G|G]; [exact G|exfalso].
    assert (bpow (-23) * v <= / 4 * v) by (apply Rmult_le_compat_r; lra).
    lra.
  - exfalso. rewrite Rabs_pos_eq in A by lra. revert B. absr.
Qed.

(** Distances a relative 2^-21 apart give slab heights in strict order,
    unless the quotient underflows. *)
Lemma slab_decreasing (xres : Z) (focal d1 d2 : float) :
  (0 < xres)%Z ->
  valid focal = true -> valid d1 = true -> valid d2 = true ->
  (focal >? F0)%f32 = true ->
  is_finite (F0_5 * focal * of_int xres)%f32 = true ->
  (d1 <? d2)%f32 = true ->
  is_finite (slab xres focal d1) = true ->
  is_finite (slab xres focal d2) = true ->
  F2R (clamp d1) * (1 + bpow (-21)) <= F2R (clamp d2) ->
  fleb (pow2 (-125)) (slab xres focal d2) = true ->
  (slab xres focal d2 <? slab xres focal d1)%f32 = true.
Proof.
  intros Hx Vf V1 V2 Hpos Fn Hlt Fs1 Fs2 Hsep Hbig.
  destruct (numerator_nonneg xres focal Hx Vf Hpos Fn) as [Vn Hn].
  destruct (flt_not_nan _ _ Hlt) as [N1 N2].
  assert (Hc := F2R_F0_01_pos).
  change (slab xres focal d1)
    with (F0_5 * focal * of_int xres / clamp d1)%f32 in *.
  change (slab xres focal d2)
    with (F0_5 * focal * of_int xres / clamp d2)%f32 in *.
  set (n := (F0_5 * focal * of_int xres)%f32) in *.
  destruct (clamp_cases d1 V1 N1) as [Vc1 C1].
  destruct (clamp_cases d2 V2 N2) as [Vc2 C2].
  fold (clamp d1) in Vc1, C1. fold (clamp d2) in Vc2, C2.
  assert (Fc1 : is_finite (clamp d1) = true /\ F2R F0_01 <= F2R (clamp d1)).
  { destruct C1 as [C1|C1]; [exact C1|exfalso].
    unfold clamp in C1. destruct (d1 <? F0_01)%f32; [discriminate|].
    subst d1. destruct d2 as [|[|]| |]; discriminate. }
  destruct Fc1 as [Fc1 Lc1].
  assert (Fc2 : is_finite (clamp d2) = true /\ F2R F0_01 <= F2R (clamp d2)).
  { destruct C2 as [C2|C2]; [exact C2|exfalso].
    rewrite C2 in Hbig.
    destruct n as [sn|sn| |sn mn en]; try discriminate;
      destruct sn; vm_compute in Hbig; discriminate. }
  destruct Fc2 as [Fc2 Lc2].
  set (c1 := clamp d1) in *. set (c2 := clamp d2) in *.
  assert (R1 := fdiv_rounds n c1 Fn Fc1 ltac:(lra)).
  assert (R2 := fdiv_rounds n c2 Fn Fc2 ltac:(lra)).
  assert (Vf1 := rounds_valid _ _ R1). assert (Vf2 := rounds_valid _ _ R2).
  destruct (pow2_spec (-125)) as (Vp & Fp & Ep); [lia|].
  apply (fleb_spec _ _ Vp Vf2 Fp Fs2) in Hbig. rewrite Ep in Hbig.
  assert (I1 : 0 < / F2R c1) by (apply Rinv_0_lt_compat; lra).
  assert (I2 : 0 < / F2R c2) by (apply Rinv_0_lt_compat; lra).
  assert (Q2 : 0 <= F2R n / F2R c2).
  { apply Rmult_le_pos; [assumption|lra]. }
  assert (B2 := rounds_normal _ _ R2 Fs2 Q2 Hbig).
  assert (P126 := bpow_pos (-126)).
  set (v1 := F2R n / F2R c1) in *. set (v2 := F2R n / F2R c2) in *.
  assert (E1 : v1 * F2R c1 = F2R n) by (unfold v1; field; lra).
  assert (E2 : v2 * F2R c2 = F2R n) by (unfold v2; field; lra).
  assert (U0 := bpow_pos (-23)). assert (U4 := bpow_m23_small).
  set (u := bpow (-23)) in *. rewrite bpow_m21 in Hsep. fold u in Hsep.
  (* the exact quotients are a factor 1 + 4u apart *)
  assert (K : (1 + 4 * u) * v2 <= v1).
  { apply (Rmult_le_reg_r (F2R c1)); [lra|]. rewrite E1, <- E2.
    replace ((1 + 4 * u) * v2 * F2R c1) with (v2 * (F2R c1 * (1 + 4 * u))) by ring.
    apply Rmult_le_compat_l; lra. }
  assert (Pv : 0 < u * v2) by (apply Rmult_lt_0_compat; lra).
  assert (V1' : bpow (-126) <= Rabs v1) by (rewrite Rabs_pos_eq; lra).
  assert (V2' : bpow (-126) <= Rabs v2) by (rewrite Rabs_pos_eq; lra).
  assert (L1 := rounds_rel _ _ R1 Fs1 (or_intror V1')).
  assert (L2 := rounds_rel _ _ R2 Fs2 (or_intror V2')).
  fold u in L1, L2.
  destruct (rel_bounds _ _ _ L1 ltac:(lra)) as [Lo1 _].
  destruct (rel_bounds _ _ _ L2 ltac:(lra)) as [_ Up2].
  assert (Q : u * (u * v2) <= / 4 * (u * v2)) by (apply Rmult_le_compat_r; lra).
  assert (M : (1 - u) * ((1 + 4 * u) * v2) <= (1 - u) * v1)
    by (apply Rmult_le_compat_l; lra).
  assert (X : (1 - u) * ((1 + 4 * u) * v2)
              = v2 + 3 * (u * v2) - 4 * (u * (u * v2))) by ring.
  apply (flt_spec _ _ Vf2 Vf1 Fs2 Fs1). lra.
Qed.

(** C7, amended: for a positive [xres] and a focal length [fov.a.x > 0],
    and distances [d1 < d2] at which [project] returns, the slab height
    does not increase with the distance: the size at [d2] is at most the
    size at [d1]; the two sizes are the same when [d2] is below the clamp
    0.01f; and the size at [d1] is strictly the greater when the clamped
    distances are a relative 2^-21 apart,
    [clamp d1 * (1 + 2^-21) <= clamp d2], and the size at [d2] is 2^-125
    at least, so that it is no underflow. *)
Theorem project_size_decreasing (xres yres : Z) (fov : Line)
  (c1 c2 : Point) (w1 w2 : Wall) :
  (0 < xres)%Z ->
  valid (x (a fov)) = true -> valid (x c1) = true -> valid (x c2) = true ->
  (x (a fov) >? F0)%f32 = true ->
  project xres yres fov c1 = Ok w1 ->
  project xres yres fov c2 = Ok w2 ->
  (x c1 <? x c2)%f32 = true ->
  fleb (size w2) (size w1) = true
  /\ ((x c2 <? F0_01)%f32 = true -> size w1 = size w2)
  /\ (F2R (clamp (x c1)) * (1 + bpow (-21)) <= F2R (clamp (x c2)) ->
      fleb (pow2 (-125)) (size w2) = true ->
      (size w2 <? size w1)%f32 = true).
Proof.
  intros Hx Vf V1 V2 Hpos P1 P2 Hlt.
  assert (F1 := project_size_is_finite _ _ _ _ _ P1).
  assert (F2 := project_size_is_finite _ _ _ _ _ P2).
  assert (Fn := project_size_finite _ _ _ _ _ P1).
  rewrite (project_size _ _ _ _ _ P1) in *.
  rewrite (project_size _ _ _ _ _ P2) in *.
  destruct (slab_non_increasing xres (x (a fov)) (x c1) (x c2)) as [A B]; auto.
  split; [exact A|]. split; [exact B|].
  intros Hsep Hbig. apply slab_decreasing; auto.
Qed.

(** The amended claim at the display of [main], for the distances 1 and
    [mid1], which are far enough apart: 250 against 131.07 or so. *)
Lemma project_size_decreasing_witness :
  fleb (size mid_wall) (size east_wall) = true
  /\ (size mid_wall <? size east_wall)%f32 = true.
Proof.
  destruct (project_size_decreasing 500 500 (viewport F1) east mid1
              east_wall mid_wall) as (A & _ & C);
    try (vm_compute; reflexivity).
  split; [exact A|]. apply C; [|vm_compute; reflexivity].
  change (clamp (x east)) with F1.
  change (clamp (x mid1)) with (S754_finite false 16000001 (-23)).
  rewrite F2R_F1, F2R_finite, bpow_m21. unfold sgn.
  assert (I := bpow_inv 23). rewrite (bpow_IZR 23) in I by lia.
  change (IZR (2 ^ 23)) with 8388608 in I. change (- (23))%Z with (-23)%Z in I.
  lra.
Defined.

Local Open Scope Z_scope.
Local Open Scope R_scope.

(** * Further properties of the code *)

(** ** Tests on floats, continued *)

Lemma F2R_abs u : F2R (SFabs u) = Rabs (F2R u).
Proof.
  destruct u as [s|s| |s m e]; simpl; try (rewrite Rabs_R0; reflexivity).
  rewrite Rabs_mult, (Rabs_pos_eq (bpow e)) by (apply Rlt_le, bpow_pos).
  destruct s; simpl cond_Zopp.
  - change (Z.neg m) with (- Z.pos m)%Z. rewrite opp_IZR, Rabs_Ropp.
    rewrite Rabs_pos_eq; [reflexivity|]. apply IZR_le. lia.
  - rewrite Rabs_pos_eq; [reflexivity|]. apply IZR_le. lia.
Qed.

Lemma valid_abs u : valid (SFabs u) = valid u.
Proof. destruct u; reflexivity. Qed.

Lemma is_finite_abs u : is_finite (SFabs u) = is_finite u.
Proof. destruct u; reflexivity. Qed.

Lemma absle_spec u v :
  valid u = true -> valid v = true ->
  is_finite u = true -> is_finite v = true ->
  absle u v = true -> Rabs (F2R u) <= Rabs (F2R v).
Proof.
  intros Vu Vv Fu Fv H. unfold absle in H.
  apply fleb_spec in H; rewrite ?valid_abs, ?is_finite_abs; auto.
  rewrite !F2R_abs in H. exact H.
Qed.

Lemma clear60_spec u :
  valid u = true -> clear60 u = true ->
  F2R u = 0 \/ bpow (-60) <= Rabs (F2R u).
Proof.
  intros V H. unfold clear60 in H. apply orb_true_iff in H.
  destruct H as [H|H].
  - left. destruct u; try discriminate. reflexivity.
  - destruct (is_finite u) eqn:F.
    + right. apply fleb_spec in H; rewrite ?valid_abs, ?is_finite_abs; auto.
      rewrite F2R_abs in H.
      replace (bpow (-60)) with (F2R (S754_finite false 8388608 (-83))); [exact H|].
      unfold F2R, cond_Zopp. change (Z.pos 8388608) with (2 ^ 23)%Z.
      rewrite <- (bpow_IZR 23) by lia. rewrite <- bpow_add. reflexivity.
    + left. destruct u; try discriminate; reflexivity.
Qed.

Lemma not_nan_gi u : valid u = true -> not_nan u = true -> gi u.
Proof.
  intros V N. destruct u as [s|s| |s m e]; try discriminate.
  - left. split; [exact V|reflexivity].
  - right. exists s. reflexivity.
  - left. split; [exact V|reflexivity].
Qed.

Lemma within1_spec v :
  within1 v = true ->
  valid v = true /\ is_finite v = true /\ -1 < F2R v < 1.
Proof.
  unfold within1. intros H. apply andb_prop in H. destruct H as [H H2].
  apply andb_prop in H. destruct H as [V H1].
  destruct (of_int_exact (-1)) as (Va & Fa & Ea); [lia|].
  destruct (of_int_exact 1) as (Vb & Fb & Eb); [lia|].
  assert (F := flt_finite_strict _ _ _ Fa Fb H1 H2).
  apply (flt_spec _ _ Va V Fa F) in H1. apply (flt_spec _ _ V Vb F Fb) in H2.
  rewrite Ea in H1. rewrite Eb in H2.
  split; [exact V|]. split; [exact F|]. lra.
Qed.

Lemma nonzero_spec u v :
  valid u = true -> valid v = true ->
  is_finite u = true -> is_finite v = true ->
  ((u =? F0) && (v =? F0))%f32 = false ->
  F2R u <> 0 \/ F2R v <> 0.
Proof.
  intros Vu Vv Fu Fv N.
  destruct (Req_dec (F2R u) 0) as [Zu|Nu]; [|left; exact Nu].
  destruct (Req_dec (F2R v) 0) as [Zv|Nv]; [|right; exact Nv].
  exfalso.
  assert (A : (u =? F0)%f32 = true) by (apply feq_spec; auto).
  assert (B : (v =? F0)%f32 = true) by (apply feq_spec; auto).
  rewrite A, B in N. discriminate.
Qed.

(** ** [fl], [cl] and [dec] *)

(** X1: on a float [v] with [-2^23 < v < 2^23], negative ones too, [fl]
    returns the floor of [v]: the integer [n] with [n <= v < n + 1]. *)
Theorem fl_is_floor (v : float) :
  small v = true ->
  exists n, fl v = Ok n /\ IZR n <= F2R v < IZR n + 1.
Proof.
  intros H. destruct (small_spec v H) as (V & F & B).
  exact (fl_floor_small v V F B).
Qed.

Lemma fl_is_floor_witness :
  exists n, fl (- F3_5)%f32 = Ok n
            /\ IZR n <= F2R (- F3_5)%f32 < IZR n + 1.
Proof. apply (fl_is_floor (- F3_5)%f32). vm_compute. reflexivity. Defined.

(** X2: on a float [v] with [-2^23 < v < 2^23], [cl] returns the ceiling
    of [v]: the integer [n] with [n - 1 < v <= n]. *)
Theorem cl_is_ceiling (v : float) :
  small v = true ->
  exists n, cl v = Ok n /\ IZR n - 1 < F2R v <= IZR n.
Proof.
  intros H. destruct (small_spec v H) as (V & F & B).
  exact (cl_ceiling_small v V F B).
Qed.

Lemma cl_is_ceiling_witness :
  exists n, cl (- F3_5)%f32 = Ok n
            /\ IZR n - 1 < F2R (- F3_5)%f32 <= IZR n.
Proof. apply (cl_is_ceiling (- F3_5)%f32). vm_compute. reflexivity. Defined.

(** X3: on a float [v] with [-2^23 < v < 2^23], [dec] is exact: it
    returns [v - i] for [i] the conversion of [v] to [int], without any
    rounding; the result is below 1 in magnitude, and compares equal to 0
    exactly when [v] is an integer. *)
Theorem dec_is_fraction (v : float) :
  small v = true ->
  exists i r, to_int v = Ok i /\ dec v = Ok r
              /\ is_finite r = true
              /\ F2R r = F2R v - IZR i /\ Rabs (F2R r) < 1
              /\ ((r =? F0)%f32 = true <-> F2R v = IZR i).
Proof.
  intros H. destruct (small_spec v H) as (V & F & B).
  destruct (dec_exact v V F B) as (i & r & A1 & A2 & _ & A4 & A5 & A6 & A7).
  exists i, r. auto 10.
Qed.

Lemma dec_is_fraction_witness :
  exists i r, to_int (- F3_5)%f32 = Ok i /\ dec (- F3_5)%f32 = Ok r
              /\ is_finite r = true
              /\ F2R r = F2R (- F3_5)%f32 - IZR i /\ Rabs (F2R r) < 1
              /\ ((r =? F0)%f32 = true <-> F2R (- F3_5)%f32 = IZR i).
Proof. apply (dec_is_fraction (- F3_5)%f32). vm_compute. reflexivity. Defined.

(** ** [mag], [rag] and [slope] *)

(** X4: [mag] of a point whose coordinates are no NaN is never a NaN and
    never negative: it is plus infinity or a number from 0 on. *)
Theorem mag_never_nan (p : Point) :
  valid (x p) = true -> valid (y p) = true ->
  not_nan (x p) = true -> not_nan (y p) = true ->
  mag p = S754_infinity false
  \/ (valid (mag p) = true /\ is_finite (mag p) = true /\ 0 <= F2R (mag p)).
Proof.
  intros Vx Vy Nx Ny.
  destruct (mag_nn p (not_nan_gi _ Vx Nx) (not_nan_gi _ Vy Ny)) as [H|H].
  - right. exact H.
  - left. exact H.
Qed.

Lemma mag_never_nan_witness :
  mag crossing = S754_infinity false
  \/ (valid (mag crossing) = true /\ is_finite (mag crossing) = true
      /\ 0 <= F2R (mag crossing)).
Proof. apply (mag_never_nan crossing); vm_compute; reflexivity. Defined.

(** X5: [mag] is monotone in the magnitudes of the coordinates, whatever
    the rounding: where [|p.x| <= |q.x|], [|p.y| <= |q.y|] and [mag q] is
    finite, [mag p] is finite and [mag p <= mag q]. *)
Theorem mag_monotone (p q : Point) :
  valid (x p) = true -> valid (y p) = true ->
  valid (x q) = true -> valid (y q) = true ->
  is_finite (x p) = true -> is_finite (y p) = true ->
  is_finite (x q) = true -> is_finite (y q) = true ->
  absle (x p) (x q) = true -> absle (y p) (y q) = true ->
  is_finite (mag q) = true ->
  is_finite (mag p) = true /\ F2R (mag p) <= F2R (mag q).
Proof.
  intros Vxp Vyp Vxq Vyq Fxp Fyp Fxq Fyq Ax Ay Fq.
  apply mag_mono; auto using absle_spec.
Qed.

Lemma mag_monotone_witness :
  is_finite (mag shallow) = true /\ F2R (mag shallow) <= F2R (mag crossing).
Proof. apply (mag_monotone shallow crossing); vm_compute; reflexivity. Defined.

(** X6: [mag] is accurate: on coordinates that are 0 or of magnitude 2^-60
    at least, with a finite result, the square of [mag p] is the sum of the
    squares of the coordinates up to the factors [(1 - 2^-23)^4] and
    [(1 + 2^-23)^4]. *)
Theorem mag_accuracy (p : Point) :
  valid (x p) = true -> valid (y p) = true ->
  clear60 (x p) = true -> clear60 (y p) = true ->
  is_finite (mag p) = true ->
  0 <= F2R (mag p)
  /\ (1 - bpow (-23)) ^ 4 * (F2R (x p) * F2R (x p) + F2R (y p) * F2R (y p))
     <= F2R (mag p) * F2R (mag p)
     <= (1 + bpow (-23)) ^ 4 * (F2R (x p) * F2R (x p) + F2R (y p) * F2R (y p)).
Proof.
  intros Vx Vy Cx Cy F.
  exact (mag_bounds p Vx Vy (clear60_spec _ Vx Cx) (clear60_spec _ Vy Cy) F).
Qed.

Lemma mag_accuracy_witness :
  0 <= F2R (mag crossing)
  /\ (1 - bpow (-23)) ^ 4
       * (F2R (x crossing) * F2R (x crossing) + F2R (y crossing) * F2R (y crossing))
     <= F2R (mag crossing) * F2R (mag crossing)
     <= (1 + bpow (-23)) ^ 4
          * (F2R (x crossing) * F2R (x crossing) + F2R (y crossing) * F2R (y crossing)).
Proof. apply (mag_accuracy crossing); vm_compute; reflexivity. Defined.

(** X7: [rag] keeps the magnitude, bit for bit: [mag (rag p)] is
    [mag p] for every point, NaN and infinities included. *)
Theorem mag_of_rag (p : Point) : mag (rag p) = mag p.
Proof.
  unfold mag, rag. cbn [x y]. rewrite fmul_neg_neg. rewrite fadd_comm. reflexivity.
Qed.

(** X8: [slope] of a direction of two numbers that is not (0, 0) is never
    a NaN: it is an infinity (on a vertical direction, or by overflow) or
    a number that is 0 or has the sign the two coordinates give it. *)
Theorem slope_sign (d : Point) :
  valid (x d) = true -> valid (y d) = true ->
  is_finite (x d) = true -> is_finite (y d) = true ->
  ((x d =? F0) && (y d =? F0))%f32 = false ->
  (exists s, slope d = S754_infinity s)
  \/ (valid (slope d) = true /\ is_finite (slope d) = true
      /\ (F2R (slope d) = 0
          \/ 0 < dir (x d >? F0)%f32 * dir (y d >? F0)%f32 * F2R (slope d))).
Proof.
  intros Vx Vy Fx Fy N.
  exact (slope_cases d Vx Vy Fx Fy (nonzero_spec _ _ Vx Vy Fx Fy N)).
Qed.

Lemma slope_sign_witness :
  (exists s, slope north = S754_infinity s)
  \/ (valid (slope north) = true /\ is_finite (slope north) = true
      /\ (F2R (slope north) = 0
          \/ 0 < dir (x north >? F0)%f32 * dir (y north >? F0)%f32
                 * F2R (slope north))).
Proof. apply (slope_sign north); vm_compute; reflexivity. Defined.

(** ** The grid steps *)

Lemma axis_next (p : bool) (v : float) :
  between v 1048575 = true ->
  exists i,
    (if p then fl (v + F1)%f32 else cl (v - F1)%f32) = Ok i
    /\ F2R (of_int i) = IZR i
    /\ (if p then F2R v < IZR i < F2R v + 2 else F2R v - 1 <= IZR i < F2R v).
Proof.
  intros H.
  destruct (between_spec v 1048575 true ltac:(lia) H) as (V & F & [Lo Hi] & St).
  specialize (St eq_refl).
  assert (B20 : bpow 20 = 1048576) by (rewrite bpow_IZR by lia; reflexivity).
  destruct p.
  - destruct (step_up v 1048575 V F ltac:(lra) ltac:(lia) eq_refl)
      as (i & Ei & A & B & C).
    exists i. split; [exact Ei|].
    assert (Hi0 : (0 < i)%Z) by (apply lt_IZR; simpl; lra).
    destruct (of_int_exact i) as (_ & _ & Xi); [lia|].
    split; [exact Xi|]. lra.
  - destruct (step_down v V F ltac:(lra)) as (i & Ei & A & B).
    exists i. split; [exact Ei|].
    assert (Hi1 : (i < 1048575)%Z) by (apply lt_IZR; lra).
    destruct (of_int_exact i) as (_ & _ & Xi); [lia|].
    split; [exact Xi|]. lra.
Qed.

(** X9: from a first coordinate [a.x] with [1 <= a.x < 2^20 - 1], [sh]
    returns a point on a grid line: its first coordinate is an integer [i],
    exact as a float, strictly ahead of [a.x] in the sense of [b.x]
    (larger for [b.x > 0], smaller otherwise) and less than 2 away (at
    most 1 away backwards); its second coordinate is
    [slope b * (i - a.x) + a.y]. *)
Theorem sh_next_line (a b : Point) :
  between (x a) 1048575 = true ->
  exists i,
    sh a b = Ok {| x := of_int i;
                   y := (slope b * (of_int i - x a) + y a)%f32 |}
    /\ F2R (of_int i) = IZR i
    /\ (if (x b >? F0)%f32
        then F2R (x a) < IZR i < F2R (x a) + 2
        else F2R (x a) - 1 <= IZR i < F2R (x a)).
Proof.
  intros H. destruct (axis_next (x b >? F0)%f32 (x a) H) as (i & Ei & Xi & B).
  exists i. unfold sh. rewrite Ei. cbn [bind]. auto.
Qed.

Lemma sh_next_line_witness :
  exists i,
    sh (where_ born) shallow
    = Ok {| x := of_int i;
            y := (slope shallow * (of_int i - x (where_ born))
                  + y (where_ born))%f32 |}
    /\ F2R (of_int i) = IZR i
    /\ (if (x shallow >? F0)%f32
        then F2R (x (where_ born)) < IZR i < F2R (x (where_ born)) + 2
        else F2R (x (where_ born)) - 1 <= IZR i < F2R (x (where_ born))).
Proof. apply (sh_next_line (where_ born) shallow). vm_compute. reflexivity. Defined.

(** X10: from a second coordinate [a.y] with [1 <= a.y < 2^20 - 1], [sv]
    returns a point on a grid line: its second coordinate is an integer
    [i], exact as a float, strictly ahead of [a.y] in the sense of [b.y]
    and less than 2 away (at most 1 away backwards); its first coordinate
    is [(i - a.y) / slope b + a.x]. *)
Theorem sv_next_line (a b : Point) :
  between (y a) 1048575 = true ->
  exists i,
    sv a b = Ok {| x := ((of_int i - y a) / slope b + x a)%f32;
                   y := of_int i |}
    /\ F2R (of_int i) = IZR i
    /\ (if (y b >? F0)%f32
        then F2R (y a) < IZR i < F2R (y a) + 2
        else F2R (y a) - 1 <= IZR i < F2R (y a)).
Proof.
  intros H. destruct (axis_next (y b >? F0)%f32 (y a) H) as (i & Ei & Xi & B).
  exists i. unfold sv. rewrite Ei. cbn [bind]. auto.
Qed.

Lemma sv_next_line_witness :
  exists i,
    sv (where_ born) shallow
    = Ok {| x := ((of_int i - y (where_ born)) / slope shallow
                  + x (where_ born))%f32;
            y := of_int i |}
    /\ F2R (of_int i) = IZR i
    /\ (if (y shallow >? F0)%f32
        then F2R (y (where_ born)) < IZR i < F2R (y (where_ born)) + 2
        else F2R (y (where_ born)) - 1 <= IZR i < F2R (y (where_ born))).
Proof. apply (sv_next_line (where_ born) shallow). vm_compute. reflexivity. Defined.

(** ** One step of [cast] *)

(** X11: in a step of [cast] from a position [w] inside the border of a
    grid of last column [LX] and last row [LY] (no powers of two, at most
    2^20), along a direction of coordinates within 50 that is not (0, 0),
    [sh] and [sv] both return, [sh] on a grid line [x = i] and [sv] on a
    grid line [y = j].  Each of the two lines is the first one strictly
    ahead of [w] on its axis, but for a forward step from less than 1
    below a line that is a power of two, which may skip that line and go
    to the one after it.  The crossing [cmp] picks of the two lies on
    [x = i] or on [y = j], is not behind [w] on either axis, and passes
    neither of the two lines by a quarter of a cell. *)
Theorem cast_next_crossing (d w : Point) (LX LY : Z) :
  good_dirb d = true -> insideb w LX LY = true ->
  (0 <= LX <= 2 ^ 20)%Z -> (0 <= LY <= 2 ^ 20)%Z ->
  pow2b LX = false -> pow2b LY = false ->
  exists h v (i j : Z),
    sh w d = Ok h /\ sv w d = Ok v
    /\ (0 <= i <= LX)%Z /\ 0 < dir (x d >? F0)%f32 * (IZR i - F2R (x w)) < 2
    /\ (0 <= j <= LY)%Z /\ 0 < dir (y d >? F0)%f32 * (IZR j - F2R (y w)) < 2
    /\ valid (x (cmp w h v)) = true /\ is_finite (x (cmp w h v)) = true
    /\ 0 <= dir (x d >? F0)%f32 * (F2R (x (cmp w h v)) - F2R (x w))
    /\ dir (x d >? F0)%f32 * (F2R (x (cmp w h v)) - IZR i) < / 4
    /\ valid (y (cmp w h v)) = true /\ is_finite (y (cmp w h v)) = true
    /\ 0 <= dir (y d >? F0)%f32 * (F2R (y (cmp w h v)) - F2R (y w))
    /\ dir (y d >? F0)%f32 * (F2R (y (cmp w h v)) - IZR j) < / 4
    /\ (F2R (x (cmp w h v)) = IZR i \/ F2R (y (cmp w h v)) = IZR j)
    /\ x h = of_int i /\ y v = of_int j
    /\ (first_line (x d >? F0)%f32 (F2R (x w)) i
        \/ skipped_line (x d >? F0)%f32 (F2R (x w)) i)
    /\ (first_line (y d >? F0)%f32 (F2R (y w)) j
        \/ skipped_line (y d >? F0)%f32 (F2R (y w)) j).
Proof.
  intros Gd In HX HY PX PY.
  exact (cast_crossing d w LX LY (good_dirb_spec d Gd)
           (insideb_spec d w LX LY HX HY In)
           ltac:(lia) ltac:(lia) PX PY).
Qed.

Lemma cast_next_crossing_witness :
  exists h v (i j : Z),
    sh (where_ born) shallow = Ok h /\ sv (where_ born) shallow = Ok v
    /\ (0 <= i <= 44)%Z
    /\ 0 < dir (x shallow >? F0)%f32 * (IZR i - F2R (x (where_ born))) < 2
    /\ (0 <= j <= 6)%Z
    /\ 0 < dir (y shallow >? F0)%f32 * (IZR j - F2R (y (where_ born))) < 2
    /\ valid (x (cmp (where_ born) h v)) = true
    /\ is_finite (x (cmp (where_ born) h v)) = true
    /\ 0 <= dir (x shallow >? F0)%f32
            * (F2R (x (cmp (where_ born) h v)) - F2R (x (where_ born)))
    /\ dir (x shallow >? F0)%f32 * (F2R (x (cmp (where_ born) h v)) - IZR i) < / 4
    /\ valid (y (cmp (where_ born) h v)) = true
    /\ is_finite (y (cmp (where_ born) h v)) = true
    /\ 0 <= dir (y shallow >? F0)%f32
            * (F2R (y (cmp (where_ born) h v)) - F2R (y (where_ born)))
    /\ dir (y shallow >? F0)%f32 * (F2R (y (cmp (where_ born) h v)) - IZR j) < / 4
    /\ (F2R (x (cmp (where_ born) h v)) = IZR i
        \/ F2R (y (cmp (where_ born) h v)) = IZR j)
    /\ x h = of_int i /\ y v = of_int j
    /\ (first_line (x shallow >? F0)%f32 (F2R (x (where_ born))) i
        \/ skipped_line (x shallow >? F0)%f32 (F2R (x (where_ born))) i)
    /\ (first_line (y shallow >? F0)%f32 (F2R (y (where_ born))) j
        \/ skipped_line (y shallow >? F0)%f32 (F2R (y (where_ born))) j).
Proof.
  apply (cast_next_crossing shallow (where_ born) 44 6);
    try (vm_compute; reflexivity); lia.
Defined.

(** The exception is met: from 1.99999988f heading east, [a.x + 1.0f]
    rounds to 3 and [sh] goes to the line 3, past the line 2. *)
Lemma sh_skips_a_power_of_two :
  sh {| x := below2; y := F3_5 |} east = Ok {| x := of_int 3; y := F3_5 |}
  /\ (x {| x := below2; y := F3_5 |} <? of_int 2)%f32 = true
  /\ pow2b 2 = true.
Proof. repeat split; vm_compute; reflexivity. Qed.

(** X12: on a crossing of coordinates below 2^23 in magnitude and a
    direction of coordinates within 50, [nudge] returns an offset whose
    coordinates are each 0 or that of [direction * 0.01f], points the way
    of the direction on both axes, and is half a cell at most. *)
Theorem nudge_small (ray d : Point) :
  within50 (x d) = true -> within50 (y d) = true ->
  small (x ray) = true -> small (y ray) = true ->
  exists n, nudge ray d = Ok n
            /\ (x n = (x d * F0_01)%f32 \/ x n = F0)
            /\ (y n = (y d * F0_01)%f32 \/ y n = F0)
            /\ 0 <= dir (x d >? F0)%f32 * F2R (x n) <= / 2
            /\ 0 <= dir (y d >? F0)%f32 * F2R (y n) <= / 2.
Proof.
  intros Dx Dy Rx Ry.
  destruct (within50_spec _ Dx) as (Vdx & Fdx & Bdx).
  destruct (within50_spec _ Dy) as (Vdy & Fdy & Bdy).
  destruct (small_spec _ Rx) as (_ & Frx & Brx).
  destruct (small_spec _ Ry) as (_ & Fry & Bry).
  assert (B : bpow 23 < bpow 31) by (apply bpow_lt; lia).
  destruct (nudge_total ray d Frx Fry ltac:(lra) ltac:(lra)) as (n & En & Nx & Ny).
  destruct (nudge_coord _ Vdx Fdx Bdx) as (_ & _ & Cx).
  destruct (nudge_coord _ Vdy Fdy Bdy) as (_ & _ & Cy).
  exists n. split; [exact En|]. unfold mul in Nx, Ny. cbn [x y] in Nx, Ny.
  split; [exact Nx|]. split; [exact Ny|]. split.
  - destruct Nx as [-> | ->]; [exact Cx|]. simpl F2R. lra.
  - destruct Ny as [-> | ->]; [exact Cy|]. simpl F2R. lra.
Qed.

Lemma nudge_small_witness :
  exists n, nudge crossing shallow = Ok n
            /\ (x n = (x shallow * F0_01)%f32 \/ x n = F0)
            /\ (y n = (y shallow * F0_01)%f32 \/ y n = F0)
            /\ 0 <= dir (x shallow >? F0)%f32 * F2R (x n) <= / 2
            /\ 0 <= dir (y shallow >? F0)%f32 * F2R (y n) <= / 2.
Proof. apply (nudge_small crossing shallow); vm_compute; reflexivity. Defined.

(** ** [cast] returns *)

(** X13: [cast] returns.  In a grid whose outermost cells all hold walls,
    of last column [LX] and last row [LY] that are no powers of two and
    at most 2^20, from a position inside the border ([1 <= x < LX],
    [1 <= y < LY]), along a direction of coordinates within 50 that is
    not (0, 0), [cast] takes no more steps than [LX + LY] and returns a
    hit on a tile that is not 0: the tile at the place of the hit. *)
Theorem cast_terminates (g : grid) (LX LY : Z) (origin direction : Point)
  (fuel : nat) :
  enclosedb g LX LY = true ->
  (0 <= LX <= 2 ^ 20)%Z -> (0 <= LY <= 2 ^ 20)%Z ->
  pow2b LX = false -> pow2b LY = false ->
  good_dirb direction = true -> insideb origin LX LY = true ->
  (LX + LY < Z.of_nat fuel)%Z ->
  exists hit, cast fuel origin direction g = Ok hit
              /\ h_tile hit <> 0%Z
              /\ tile (h_where hit) g = Ok (h_tile hit).
Proof.
  intros En HX HY PX PY Gd In Hf.
  assert (In' := insideb_spec direction origin LX LY HX HY In).
  apply (cast_returns direction g LX LY (good_dirb_spec _ Gd) En
           ltac:(lia) ltac:(lia) PX PY fuel origin In').
  destruct In' as [(_ & _ & Wx & _) (_ & _ & Wy & _)].
  assert (A := lines_le (x direction >? F0)%f32 _ LX Wx).
  assert (B := lines_le (y direction >? F0)%f32 _ LY Wy).
  unfold lines_left. lia.
Qed.

Lemma cast_terminates_witness :
  exists hit, cast 64 (where_ born) shallow (walling build) = Ok hit
              /\ h_tile hit <> 0%Z
              /\ tile (h_where hit) (walling build) = Ok (h_tile hit).
Proof.
  apply (cast_terminates (walling build) 44 6 (where_ born) shallow 64);
    try (vm_compute; reflexivity); try lia.
Defined.

(** X14: [cast] never returns a hit on an empty tile: whenever it
    returns, on any grid, from any position and along any direction, the
    tile of the hit is not 0 and is the tile [tile] reads at the place of
    the hit. *)
Theorem cast_hit_is_wall (fuel : nat) (w d : Point) (g : grid) (hit : Hit) :
  cast fuel w d g = Ok hit ->
  h_tile hit <> 0%Z /\ tile (h_where hit) g = Ok (h_tile hit).
Proof.
  revert w. induction fuel as [|fuel IH]; intros w H; [discriminate|].
  cbn [cast] in H.
  apply bind_Ok in H. destruct H as (h & Eh & H).
  apply bind_Ok in H. destruct H as (v & Ev & H).
  apply bind_Ok in H. destruct H as (n & En & H).
  apply bind_Ok in H. destruct H as (t & Et & H).
  destruct (t =? 0)%Z eqn:E.
  - exact (IH _ H).
  - apply Z.eqb_neq in E. inversion H; subst hit; clear H.
    cbn [h_tile h_where]. split; [exact E|exact Et].
Qed.

Lemma cast_hit_is_wall_witness :
  exists hit, cast 64 (where_ born) east (walling build) = Ok hit
              /\ h_tile hit <> 0%Z
              /\ tile (h_where hit) (walling build) = Ok (h_tile hit).
Proof.
  eexists. split; [vm_compute; reflexivity|].
  apply (cast_hit_is_wall 64 (where_ born) east (walling build)).
  vm_compute. reflexivity.
Defined.

Local Open Scope Z_scope.

(** ** [tile] *)

(** X15: where [tile] returns, both coordinates convert to [int], the row
    is one of the grid, the column is a character of the row or its
    terminator, and the tile is 0 exactly where the character read is
    the digit 0. *)
Theorem tile_reads (a : Point) (tiles : grid) (t : Z) :
  tile a tiles = Ok t ->
  exists ix iy r,
    to_int (x a) = Ok ix /\ to_int (y a) = Ok iy
    /\ (0 <= iy)%Z /\ nth_error tiles (Z.to_nat iy) = Some r
    /\ (0 <= ix <= Z.of_nat (String.length r))%Z
    /\ (t = 0%Z <-> String.get (Z.to_nat ix) r = Some "0"%char).
Proof.
  unfold tile. intros H.
  apply bind_Ok in H. destruct H as (ix & Ex & H).
  apply bind_Ok in H. destruct H as (iy & Ey & H).
  apply bind_Ok in H. destruct H as (r & Er & H).
  apply bind_Ok in H. destruct H as (c & Ec & H).
  inversion H; subst t; clear H.
  exists ix, iy, r. split; [exact Ex|]. split; [exact Ey|].
  unfold row_at in Er. destruct (iy <? 0) eqn:Ny; [discriminate|].
  apply Z.ltb_ge in Ny.
  destruct (nth_error tiles (Z.to_nat iy)) as [r'|] eqn:En; [|discriminate].
  inversion Er; subst r'; clear Er.
  split; [exact Ny|]. split; [reflexivity|].
  unfold char_at in Ec. destruct (ix <? 0) eqn:Nx; [discriminate|].
  apply Z.ltb_ge in Nx.
  destruct (String.get (Z.to_nat ix) r) as [ch|] eqn:G.
  - inversion Ec; subst c; clear Ec.
    assert (Hlen := get_some_lt _ _ _ G).
    split; [lia|].
    assert (Hb := N_ascii_bounded ch).
    rewrite to_char_zero by lia. split.
    + intros E. f_equal. rewrite <- (ascii_N_embedding ch).
      replace (N_of_ascii ch) with 48%N by lia. reflexivity.
    + intros E. inversion E. reflexivity.
  - destruct (ix =? Z.of_nat (String.length r)) eqn:El; [|discriminate].
    apply Z.eqb_eq in El. inversion Ec; subst c; clear Ec.
    split; [lia|]. split; [intros E; vm_compute in E; discriminate|discriminate].
Qed.

Lemma tile_reads_witness :
  exists ix iy r,
    to_int (x (where_ born)) = Ok ix /\ to_int (y (where_ born)) = Ok iy
    /\ (0 <= iy)%Z /\ nth_error (walling build) (Z.to_nat iy) = Some r
    /\ (0 <= ix <= Z.of_nat (String.length r))%Z
    /\ (0%Z = 0%Z <-> String.get (Z.to_nat ix) r = Some "0"%char).
Proof. apply (tile_reads (where_ born) (walling build) 0). vm_compute. reflexivity. Defined.

(** X16: the conversions of [tile] truncate toward zero, so the cell
    (0, 0) is two units wide and high: every point with both coordinates
    strictly between -1 and 1 reads what the point (0, 0) reads. *)
Theorem tile_truncates_toward_zero (a : Point) (g : grid) :
  within1 (x a) = true -> within1 (y a) = true ->
  tile a g = tile {| x := F0; y := F0 |} g.
Proof.
  intros Hx Hy.
  destruct (within1_spec _ Hx) as (Vx & Fx & Bx).
  destruct (within1_spec _ Hy) as (Vy & Fy & By).
  rewrite (tile_near_origin a g Vx Fx Vy Fy Bx By). reflexivity.
Qed.

Lemma tile_truncates_toward_zero_witness :
  tile {| x := (- F0_5)%f32; y := F0_5 |} (walling build)
  = tile {| x := F0; y := F0 |} (walling build).
Proof.
  apply (tile_truncates_toward_zero {| x := (- F0_5)%f32; y := F0_5 |});
    vm_compute; reflexivity.
Defined.

(** ** [color] and [put] *)

(** X17: [color] is defined on the tiles 1, 2 and 3 only, where it is
    0xAA, 0xAA00 and 0xAA0000: the tile 0 shifts by a negative count, and
    from the tile 4 on the shifted value is no [int]. *)
Theorem color_defined (t c : Z) :
  color t = Ok c
  <-> (t = 1 /\ c = 170)%Z \/ (t = 2 /\ c = 43520)%Z
      \/ (t = 3 /\ c = 11141120)%Z.
Proof.
  split.
  - unfold color. destruct ((0 <=? 8 * (t - 1)) && (8 * (t - 1) <? 32)) eqn:E;
      [|discriminate].
    apply andb_prop in E. destruct E as [A B].
    apply Z.leb_le in A. apply Z.ltb_lt in B.
    assert (H : t = 1 \/ t = 2 \/ t = 3 \/ t = 4) by lia.
    destruct H as [ -> | [ -> | [ -> | -> ]]]; vm_compute; intros H; inversion H; auto.
  - intros [[ -> -> ] | [[ -> -> ] | [ -> -> ]]]; reflexivity.
Qed.

(** X18: [put] is defined only where the index [row + col * width] lies
    inside the pixel buffer; it then writes the pixel at that index and
    leaves every other pixel, the length of the buffer and the width as
    they were. *)
Theorem put_writes_one_pixel (display : Display) (col row pixel : Z)
  (d' : Display) :
  put display col row pixel = Ok d' ->
  (0 <= row + col * width display < Z.of_nat (List.length (pixels display)))%Z
  /\ width d' = width display
  /\ List.length (pixels d') = List.length (pixels display)
  /\ nth_error (pixels d') (Z.to_nat (row + col * width display)) = Some pixel
  /\ forall k, k <> Z.to_nat (row + col * width display) ->
               nth_error (pixels d') k = nth_error (pixels display) k.
Proof. exact (put_stores display col row pixel d'). Qed.

Lemma put_writes_one_pixel_witness :
  (0 <= 1 + 1 * width {| pixels := [0; 0; 0; 0]%Z; width := 2 |}
   < Z.of_nat (List.length (pixels {| pixels := [0; 0; 0; 0]%Z; width := 2 |})))%Z
  /\ width {| pixels := [0; 0; 0; 7]%Z; width := 2 |}
     = width {| pixels := [0; 0; 0; 0]%Z; width := 2 |}
  /\ List.length (pixels {| pixels := [0; 0; 0; 7]%Z; width := 2 |})
     = List.length (pixels {| pixels := [0; 0; 0; 0]%Z; width := 2 |})
  /\ nth_error (pixels {| pixels := [0; 0; 0; 7]%Z; width := 2 |})
       (Z.to_nat (1 + 1 * width {| pixels := [0; 0; 0; 0]%Z; width := 2 |}))
     = Some 7%Z
  /\ forall k,
       k <> Z.to_nat (1 + 1 * width {| pixels := [0; 0; 0; 0]%Z; width := 2 |}) ->
       nth_error (pixels {| pixels := [0; 0; 0; 7]%Z; width := 2 |}) k
       = nth_error (pixels {| pixels := [0; 0; 0; 0]%Z; width := 2 |}) k.
Proof.
  apply (put_writes_one_pixel {| pixels := [0; 0; 0; 0]%Z; width := 2 |} 1 1 7
           {| pixels := [0; 0; 0; 7]%Z; width := 2 |}).
  reflexivity.
Defined.

(** ** The row loops of [render] *)

(** X19: where the wall loop of [render] returns, it has painted the rows
    from [wall.bot] up to [wall.top] of the column with the colour of the
    tile hit, each at an index inside the buffer, and nothing else: a
    later row never overwrites an earlier one. *)
Theorem render_wall_rows (col : Z) (wall : Wall) (hit : Hit)
  (display d' : Display) :
  render_wall col wall hit display = Ok d' ->
  painted display d' col (bot wall) (top wall) (fun _ => color (h_tile hit)).
Proof.
  unfold render_wall. intros H.
  exact (for_range_paint (fun _ => color (h_tile hit)) col _ _ _ _ H).
Qed.

Lemma render_wall_rows_witness :
  painted {| pixels := [0; 0; 0]%Z; width := 3 |}
    {| pixels := [0; 170; 170]%Z; width := 3 |} 0
    (bot {| top := 3; bot := 1; size := F1 |})
    (top {| top := 3; bot := 1; size := F1 |})
    (fun _ => color (h_tile {| h_tile := 1; h_where := crossing |})).
Proof.
  apply (render_wall_rows 0 {| top := 3; bot := 1; size := F1 |}
           {| h_tile := 1; h_where := crossing |}
           {| pixels := [0; 0; 0]%Z; width := 3 |}
           {| pixels := [0; 170; 170]%Z; width := 3 |}).
  reflexivity.
Defined.

(** X20: where the flooring loop of [render] returns, it has painted the
    rows from 0 up to [wall.bot] of the column, the row [row] with the
    colour of the tile of the flooring at
    [lerp trace (- pcast size yres row)], and nothing else. *)
Theorem render_flooring_rows (map : Map) (gpu : Gpu) (col : Z) (wall : Wall)
  (trace : Line) (display d' : Display) :
  render_flooring map gpu col wall trace display = Ok d' ->
  painted display d' col 0 (bot wall)
    (fun row => p <- pcast (size wall) (yres gpu) row ;;
                t <- tile (lerp trace (- p)%f32) (floring map) ;;
                color t).
Proof.
  unfold render_flooring, for_range. intros H.
  rewrite (for_loop_ext _
             (paint (fun row => p <- pcast (size wall) (yres gpu) row ;;
                                t <- tile (lerp trace (- p)%f32) (floring map) ;;
                                color t) col)) in H.
  2:{ intros i s. unfold paint.
      destruct (pcast (size wall) (yres gpu) i); cbn [bind]; try reflexivity.
      destruct (tile _ (floring map)); cbn [bind]; reflexivity. }
  exact (for_range_paint _ col 0 (bot wall) _ _ H).
Qed.

Lemma render_flooring_rows_witness :
  painted {| pixels := [0; 0; 0]%Z; width := 3 |}
    {| pixels := [43520; 43520; 0]%Z; width := 3 |} 0 0
    (bot {| top := 3; bot := 2; size := F1 |})
    (fun row => p <- pcast (size {| top := 3; bot := 2; size := F1 |})
                      (yres {| xres := 500; yres := 500 |}) row ;;
                t <- tile (lerp {| a := where_ born; b := crossing |} (- p)%f32)
                       (floring build) ;;
                color t).
Proof.
  apply (render_flooring_rows build
           {| xres := 500; yres := 500 |} 0
           {| top := 3; bot := 2; size := F1 |}
           {| a := where_ born; b := crossing |}
           {| pixels := [0; 0; 0]%Z; width := 3 |}
           {| pixels := [43520; 43520; 0]%Z; width := 3 |}).
  vm_compute. reflexivity.
Defined.

(** X21: where the ceiling loop of [render] returns, it has painted the
    rows from [wall.top] up to [gpu.xres] of the column, the row [row]
    with the colour of the tile of the ceiling at
    [lerp trace (pcast size yres row)], and nothing else. *)
Theorem render_ceiling_rows (map : Map) (gpu : Gpu) (col : Z) (wall : Wall)
  (trace : Line) (display d' : Display) :
  render_ceiling map gpu col wall trace display = Ok d' ->
  painted display d' col (top wall) (xres gpu)
    (fun row => p <- pcast (size wall) (yres gpu) row ;;
                t <- tile (lerp trace p) (ceiling map) ;;
                color t).
Proof.
  unfold render_ceiling, for_range. intros H.
  rewrite (for_loop_ext _
             (paint (fun row => p <- pcast (size wall) (yres gpu) row ;;
                                t <- tile (lerp trace p) (ceiling map) ;;
                                color t) col)) in H.
  2:{ intros i s. unfold paint.
      destruct (pcast (size wall) (yres gpu) i); cbn [bind]; try reflexivity.
      destruct (tile _ (ceiling map)); cbn [bind]; reflexivity. }
  exact (for_range_paint _ col (top wall) (xres gpu) _ _ H).
Qed.

Lemma render_ceiling_rows_witness :
  painted {| pixels := [0; 0; 0]%Z; width := 3 |}
    {| pixels := [0; 0; 43520]%Z; width := 3 |} 0
    (top {| top := 2; bot := 1; size := F1 |})
    (xres {| xres := 3; yres := 500 |})
    (fun row => p <- pcast (size {| top := 2; bot := 1; size := F1 |})
                      (yres {| xres := 3; yres := 500 |}) row ;;
                t <- tile (lerp {| a := where_ born; b := crossing |} p)
                       (ceiling build) ;;
                color t).
Proof.
  apply (render_ceiling_rows build
           {| xres := 3; yres := 500 |} 0
           {| top := 2; bot := 1; size := F1 |}
           {| a := where_ born; b := crossing |}
           {| pixels := [0; 0; 0]%Z; width := 3 |}
           {| pixels := [0; 0; 43520]%Z; width := 3 |}).
  vm_compute. reflexivity.
Defined.

(** X22: the floor and the ceiling mirror each other about the horizon:
    for a row [row] of the display that is not the one where the divisor
    [2 * (row + 1) - yres] is 0, [pcast] at the row [yres - 2 - row] is
    the negation of [pcast] at [row], bit for bit. *)
Theorem pcast_mirror (size : float) (yres row : Z) (p : float) :
  (0 <= row < yres)%Z -> (yres < 2 ^ 30)%Z -> (2 * (row + 1) <> yres)%Z ->
  pcast size yres row = Ok p ->
  pcast size yres (yres - 2 - row) = Ok (SFopp p).
Proof.
  intros Hr Hy Hn H. unfold pcast in *.
  rewrite int_in_range in H by (unfold INT_MIN, INT_MAX; lia). cbn [bind] in H.
  rewrite int_in_range in H by (unfold INT_MIN, INT_MAX; lia). cbn [bind] in H.
  rewrite int_in_range in H by (unfold INT_MIN, INT_MAX; lia). cbn [bind] in H.
  rewrite int_in_range by (unfold INT_MIN, INT_MAX; lia). cbn [bind].
  rewrite int_in_range by (unfold INT_MIN, INT_MAX; lia). cbn [bind].
  rewrite int_in_range by (unfold INT_MIN, INT_MAX; lia). cbn [bind].
  inversion H; subst p; clear H.
  replace (2 * (yres - 2 - row + 1) - yres) with (- (2 * (row + 1) - yres)) by lia.
  rewrite of_int_opp by lia. rewrite fdiv_opp_r. reflexivity.
Qed.

Lemma pcast_mirror_witness :
  pcast F1 500 (500 - 2 - 10) = Ok (SFopp (F1 / of_int (-478))%f32).
Proof.
  apply (pcast_mirror F1 500 10 (F1 / of_int (-478))%f32);
    try lia; reflexivity.
Defined.

(** ** The loop of [main] *)

(** X23: [move] never leaves the hero inside a wall: from a position
    whose tile is 0, whatever keys each frame brings, every frame of the
    loop of [main] that returns leaves the hero on a tile that is 0, with
    the field of view, the top speed and the acceleration it had. *)
Theorem frames_stay_free (cosf sinf : float -> float) (walling : grid)
  (ks : list keys) (hero h' : Hero) :
  tile (where_ hero) walling = Ok 0%Z ->
  frames cosf sinf walling ks hero = Ok h' ->
  tile (where_ h') walling = Ok 0%Z
  /\ fov h' = fov hero /\ speed h' = speed hero
  /\ acceleration h' = acceleration hero.
Proof. exact (frames_free cosf sinf walling ks hero h'). Qed.

Lemma frames_stay_free_witness :
  exists h',
    frames (fun _ => F1) (fun _ => F0) (walling build) [forward; forward] born
    = Ok h'
    /\ tile (where_ h') (walling build) = Ok 0%Z
    /\ fov h' = fov born /\ speed h' = speed born
    /\ acceleration h' = acceleration born.
Proof.
  eexists. split; [vm_compute; reflexivity|].
  apply (frames_stay_free (fun _ => F1) (fun _ => F0) (walling build)
           [forward; forward] born); vm_compute; reflexivity.
Defined.

Lemma no_key_spec (key : keys) :
  no_key key = true -> forall k, key k = 0%Z.
Proof.
  unfold no_key. cbn [forallb]. rewrite !andb_true_iff, !Z.eqb_eq.
  intros H k. destruct k; tauto.
Qed.

(** X24: a hero at rest stays at rest: with a velocity of zeros, a
    position off the axes, a finite decay factor and a top speed that is
    not negative, frames in which no key is down leave the position as it
    is, bit for bit, and the velocity at zero. *)
Theorem frames_at_rest (cosf sinf : float -> float) (walling : grid)
  (ks : list keys) (hero h' : Hero) :
  forallb no_key ks = true -> at_rest hero = true ->
  frames cosf sinf walling ks hero = Ok h' ->
  where_ h' = where_ hero /\ at_rest h' = true.
Proof.
  intros K R H. apply (frames_rest cosf sinf walling ks hero h'); auto.
  apply Forall_forall. intros key Hin. apply no_key_spec.
  rewrite forallb_forall in K. exact (K key Hin).
Qed.

Lemma frames_at_rest_witness :
  exists h',
    frames (fun _ => F1) (fun _ => F0) (walling build) [idle; idle; idle] born
    = Ok h'
    /\ where_ h' = where_ born /\ at_rest h' = true.
Proof.
  eexists. split; [vm_compute; reflexivity|].
  apply (frames_at_rest (fun _ => F1) (fun _ => F0) (walling build)
           [idle; idle; idle] born); vm_compute; reflexivity.
Defined.

